(** * MediaDevicesManager: device registry, selection state and stream acquisition

    A shallow embedding of [MediaDevicesManager] (the browser-side manager of
    microphones, cameras and speakers) together with the properties of its
    enumeration pass, its persisted selection and its acquisition path.

    - JavaScript objects that the manager mutates in place (the device
      objects shared by [attributes.devices] and [_knownDevices]) are kept
      with their address, so that a write through one alias is seen through
      every other alias.
    - Calls into the platform ([navigator.mediaDevices], [track.stop()]), the
      persistent store and the notifications of the emitter are recorded in
      the state, in the order they happen.
    - An asynchronous method is split where it suspends: the call itself
      ([_updateDevices]), and the callbacks that run when its promise settles
      ([_updateDevices_then], [_updateDevices_catch]).  [getUserMedia] is also
      given as a whole, as a function of the answers of the platform.
    - [services/mediaDevicePreferences.ts], [BrowserStorage] and the emitter
      are not part of the sources at hand; what the manager needs of them is
      taken from the spec and marked as such. *)

From Stdlib Require Import String List Bool Arith ZArith Lia.
From stdpp Require Import base option list gmap strings pretty.

Open Scope string_scope.
Open Scope list_scope.

Module MediaDevices.

(** ** Data model *)

(** [MediaDeviceInfo.kind]. *)
Inductive MediaDeviceKind := audioinput | videoinput | audiooutput.

#[global] Instance MediaDeviceKind_eq_dec : EqDecision MediaDeviceKind.
Proof. solve_decision. Defined.

Definition kind_name (k : MediaDeviceKind) : string :=
  match k with
  | audioinput => "audioinput"
  | videoinput => "videoinput"
  | audiooutput => "audiooutput"
  end.

(** A device record.  A record delivered by the platform has no
    [fallbackLabel] property ([None]); [_addDevice] gives it one. *)
Record Device := {
  deviceId : string;
  groupId : string;
  kind : MediaDeviceKind;
  label : string;
  fallbackLabel : option string;
}.

(** A device object of the manager: the record together with the address of
    the JavaScript object holding it. *)
Abbreviation DeviceObject := (nat * Device)%type.

(** The three states of a selection: no choice yet, disabled, pinned. *)
Inductive Selection := undefined | null | Id (id : string).

#[global] Instance Selection_eq_dec : EqDecision Selection.
Proof. solve_decision. Defined.

(** Values handed to [set]: a selection, or a device list. *)
Inductive Value := VSelection (v : Selection) | VDevices (l : list DeviceObject).

(** Truthiness of a JavaScript string. *)
Definition truthy_string (s : string) : bool := negb (String.eqb s "").

Definition truthy_selection (v : Selection) : bool :=
  match v with
  | Id s => truthy_string s
  | _ => false
  end.

Definition truthy (v : Value) : bool :=
  match v with
  | VSelection s => truthy_selection s
  | VDevices _ => true
  end.

(** [a || b] on optional strings ([None] is [undefined]). *)
Definition or_else (a b : option string) : option string :=
  match a with
  | Some s => if truthy_string s then Some s else b
  | None => b
  end.

Definition to_selection (o : option string) : Selection :=
  match o with
  | Some s => Id s
  | None => undefined
  end.

(** [selection === candidate] where the candidate is a string or [undefined]. *)
Definition selection_is (v : Selection) (candidate : option string) : Prop :=
  v = to_selection candidate.

#[global] Instance selection_is_dec v c : Decision (selection_is v c).
Proof. unfold selection_is. apply _. Defined.

(** Tracks.  A track object is identified by its address [track_id];
    [track_settings] is what [getSettings()] returns. *)
Inductive TrackKind := audio | video.

#[global] Instance TrackKind_eq_dec : EqDecision TrackKind.
Proof. solve_decision. Defined.

Record TrackSettings := { settings_deviceId : option string }.

Record Track := {
  track_id : nat;
  track_kind : TrackKind;
  track_settings : option TrackSettings;
}.

Definition MediaStream : Type := list Track.

Record DOMException := { error_name : string; error_message : string }.

(** Constraints.  A [deviceId] constraint is a string or an object with
    optional [exact] and [ideal] members. *)
Inductive DeviceIdConstraint :=
  | deviceId_string (s : string)
  | deviceId_object (exact ideal : option string).

(** The value of [constraints.audio] / [constraints.video]: missing, a boolean,
    or an object with an optional [deviceId] and further members that the
    manager never looks at. *)
Inductive TrackConstraint :=
  | constraint_missing
  | constraint_bool (b : bool)
  | constraint_object (device : option DeviceIdConstraint) (rest : list (string * string)).

Record Constraints := {
  c_audio : TrackConstraint;
  c_video : TrackConstraint;
}.

(** What the persistent store holds under a key: a text, or the serialisation
    of an identifier list ([JSON.stringify] of a preference list, which
    [JSON.parse] turns back into the list). *)
Inductive Stored := SText (s : string) | SJson (l : list string).

#[global] Instance Stored_eq_dec : EqDecision Stored.
Proof. solve_decision. Defined.

(** Calls made into the platform, in the order they are made. *)
Inductive Effect :=
  | enumerateDevices_called
  | getUserMedia_called (c : Constraints)
  | track_stop_called (t : nat)
  | devicechange_listener_added
  | devicechange_listener_removed.

(** [navigator]: what [isSupported] looks at. *)
Record MediaDevicesApi := {
  has_getUserMedia : bool;
  has_enumerateDevices : bool;
}.

Record Navigator := { mediaDevices : option MediaDevicesApi }.

Record Platform := {
  navigator : option Navigator;
  (** whether [stop()] on a live track delivers ['ended'] to the listeners of
      the track before it returns; the platform's own tracks do not, a track
      wrapper that announces its termination does *)
  stop_announces_ended : bool;
}.

(** ** State *)

Record Attributes := {
  devices : list DeviceObject;
  audioInputId : Selection;
  videoInputId : Selection;
  (** properties assigned by [set] under any other key *)
  others : gmap string Value;
}.

(** The fields of the manager object. *)
Record Manager := {
  attributes : Attributes;
  _enabledCount : Z;
  _knownDevices : gmap string DeviceObject;
  _tracks : list Track;
  _pendingEnumerateDevicesPromise : option nat;
  _preferenceAudioInputList : list string;
  _preferenceVideoInputList : list string;
}.

(** What lies outside the manager object. *)
Record Outside := {
  BrowserStorage : gmap string Stored;
  (** notifications sent through [_trigger], oldest first *)
  triggered : list (string * Value);
  (** platform calls, oldest first *)
  effects : list Effect;
  (** enumeration promises that have not settled *)
  enumerations : list nat;
  next_promise : nat;
  next_address : nat;
  (** tracks whose [readyState] is ['ended'] *)
  ended : list nat;
  (** tracks carrying an ['ended'] and a ['cloned'] listener of the manager,
      one entry per registration *)
  listeners : list nat;
}.

Record World := { this : Manager; outside : Outside }.

(** Field updates. *)

Definition with_devices (v : list DeviceObject) (a : Attributes) : Attributes :=
  {| devices := v; audioInputId := audioInputId a;
     videoInputId := videoInputId a; others := others a |}.

Definition with_audioInputId (v : Selection) (a : Attributes) : Attributes :=
  {| devices := devices a; audioInputId := v;
     videoInputId := videoInputId a; others := others a |}.

Definition with_videoInputId (v : Selection) (a : Attributes) : Attributes :=
  {| devices := devices a; audioInputId := audioInputId a;
     videoInputId := v; others := others a |}.

Definition with_others (v : gmap string Value) (a : Attributes) : Attributes :=
  {| devices := devices a; audioInputId := audioInputId a;
     videoInputId := videoInputId a; others := v |}.

Definition with_attributes (f : Attributes -> Attributes) (m : Manager) : Manager :=
  {| attributes := f (attributes m); _enabledCount := _enabledCount m;
     _knownDevices := _knownDevices m; _tracks := _tracks m;
     _pendingEnumerateDevicesPromise := _pendingEnumerateDevicesPromise m;
     _preferenceAudioInputList := _preferenceAudioInputList m;
     _preferenceVideoInputList := _preferenceVideoInputList m |}.

Definition with_enabledCount (v : Z) (m : Manager) : Manager :=
  {| attributes := attributes m; _enabledCount := v;
     _knownDevices := _knownDevices m; _tracks := _tracks m;
     _pendingEnumerateDevicesPromise := _pendingEnumerateDevicesPromise m;
     _preferenceAudioInputList := _preferenceAudioInputList m;
     _preferenceVideoInputList := _preferenceVideoInputList m |}.

Definition with_knownDevices (v : gmap string DeviceObject) (m : Manager) : Manager :=
  {| attributes := attributes m; _enabledCount := _enabledCount m;
     _knownDevices := v; _tracks := _tracks m;
     _pendingEnumerateDevicesPromise := _pendingEnumerateDevicesPromise m;
     _preferenceAudioInputList := _preferenceAudioInputList m;
     _preferenceVideoInputList := _preferenceVideoInputList m |}.

Definition with_tracks (v : list Track) (m : Manager) : Manager :=
  {| attributes := attributes m; _enabledCount := _enabledCount m;
     _knownDevices := _knownDevices m; _tracks := v;
     _pendingEnumerateDevicesPromise := _pendingEnumerateDevicesPromise m;
     _preferenceAudioInputList := _preferenceAudioInputList m;
     _preferenceVideoInputList := _preferenceVideoInputList m |}.

Definition with_pending (v : option nat) (m : Manager) : Manager :=
  {| attributes := attributes m; _enabledCount := _enabledCount m;
     _knownDevices := _knownDevices m; _tracks := _tracks m;
     _pendingEnumerateDevicesPromise := v;
     _preferenceAudioInputList := _preferenceAudioInputList m;
     _preferenceVideoInputList := _preferenceVideoInputList m |}.

Definition with_preferenceAudioInputList (v : list string) (m : Manager) : Manager :=
  {| attributes := attributes m; _enabledCount := _enabledCount m;
     _knownDevices := _knownDevices m; _tracks := _tracks m;
     _pendingEnumerateDevicesPromise := _pendingEnumerateDevicesPromise m;
     _preferenceAudioInputList := v;
     _preferenceVideoInputList := _preferenceVideoInputList m |}.

Definition with_preferenceVideoInputList (v : list string) (m : Manager) : Manager :=
  {| attributes := attributes m; _enabledCount := _enabledCount m;
     _knownDevices := _knownDevices m; _tracks := _tracks m;
     _pendingEnumerateDevicesPromise := _pendingEnumerateDevicesPromise m;
     _preferenceAudioInputList := _preferenceAudioInputList m;
     _preferenceVideoInputList := v |}.

Definition with_storage (v : gmap string Stored) (o : Outside) : Outside :=
  {| BrowserStorage := v; triggered := triggered o; effects := effects o;
     enumerations := enumerations o; next_promise := next_promise o;
     next_address := next_address o; ended := ended o; listeners := listeners o |}.

Definition with_triggered (v : list (string * Value)) (o : Outside) : Outside :=
  {| BrowserStorage := BrowserStorage o; triggered := v; effects := effects o;
     enumerations := enumerations o; next_promise := next_promise o;
     next_address := next_address o; ended := ended o; listeners := listeners o |}.

Definition with_effects (v : list Effect) (o : Outside) : Outside :=
  {| BrowserStorage := BrowserStorage o; triggered := triggered o; effects := v;
     enumerations := enumerations o; next_promise := next_promise o;
     next_address := next_address o; ended := ended o; listeners := listeners o |}.

Definition with_enumerations (v : list nat) (o : Outside) : Outside :=
  {| BrowserStorage := BrowserStorage o; triggered := triggered o; effects := effects o;
     enumerations := v; next_promise := next_promise o;
     next_address := next_address o; ended := ended o; listeners := listeners o |}.

Definition with_next_promise (v : nat) (o : Outside) : Outside :=
  {| BrowserStorage := BrowserStorage o; triggered := triggered o; effects := effects o;
     enumerations := enumerations o; next_promise := v;
     next_address := next_address o; ended := ended o; listeners := listeners o |}.

Definition with_next_address (v : nat) (o : Outside) : Outside :=
  {| BrowserStorage := BrowserStorage o; triggered := triggered o; effects := effects o;
     enumerations := enumerations o; next_promise := next_promise o;
     next_address := v; ended := ended o; listeners := listeners o |}.

Definition with_ended (v : list nat) (o : Outside) : Outside :=
  {| BrowserStorage := BrowserStorage o; triggered := triggered o; effects := effects o;
     enumerations := enumerations o; next_promise := next_promise o;
     next_address := next_address o; ended := v; listeners := listeners o |}.

Definition with_listeners (v : list nat) (o : Outside) : Outside :=
  {| BrowserStorage := BrowserStorage o; triggered := triggered o; effects := effects o;
     enumerations := enumerations o; next_promise := next_promise o;
     next_address := next_address o; ended := ended o; listeners := v |}.

Definition on_this (f : Manager -> Manager) (w : World) : World :=
  {| this := f (this w); outside := outside w |}.

Definition on_outside (f : Outside -> Outside) (w : World) : World :=
  {| this := this w; outside := f (outside w) |}.

Definition on_attributes (f : Attributes -> Attributes) (w : World) : World :=
  on_this (with_attributes f) w.

(** Reading the state the way the source does. *)
Definition attr (w : World) : Attributes := attributes (this w).

(** [array.forEach(f)] over an array that the loop body does not touch. *)
Definition forEach {A : Type} (l : list A) (f : A -> World -> World) (w : World) : World :=
  fold_left (fun acc x => f x acc) l w.

(** ** The persistent store and the emitter *)

Definition LOCAL_STORAGE_NULL_DEVICE_ID : string := "local-storage-null-device-id".

Definition getItem (key : string) (w : World) : option Stored :=
  BrowserStorage (outside w) !! key.

Definition setItem (key : string) (value : Stored) (w : World) : World :=
  on_outside (fun o => with_storage (<[key := value]> (BrowserStorage o)) o) w.

Definition removeItem (key : string) (w : World) : World :=
  on_outside (fun o => with_storage (delete key (BrowserStorage o)) o) w.

Definition _trigger (event : string) (value : Value) (w : World) : World :=
  on_outside (fun o => with_triggered (triggered o ++ [(event, value)]) o) w.

Definition call (e : Effect) (w : World) : World :=
  on_outside (fun o => with_effects (effects o ++ [e]) o) w.

(** ** [get], [set], [_storeDeviceId] *)

Definition get (key : string) (w : World) : option Value :=
  if String.eqb key "devices" then Some (VDevices (devices (attr w)))
  else if String.eqb key "audioInputId" then Some (VSelection (audioInputId (attr w)))
  else if String.eqb key "videoInputId" then Some (VSelection (videoInputId (attr w)))
  else others (attr w) !! key.

(** [this.attributes[key] = value].  The three attributes of the manager hold
    values of their own type; every other pair is kept under its key. *)
Definition assign (key : string) (value : Value) (a : Attributes) : Attributes :=
  match value with
  | VSelection v =>
      if String.eqb key "audioInputId" then with_audioInputId v a
      else if String.eqb key "videoInputId" then with_videoInputId v a
      else with_others (<[key := value]> (others a)) a
  | VDevices l =>
      if String.eqb key "devices" then with_devices l a
      else with_others (<[key := value]> (others a)) a
  end.

(** The text the store keeps for a truthy value. *)
Definition stored_text (value : Value) : string :=
  match value with
  | VSelection (Id s) => s
  | VSelection undefined => "undefined"
  | VSelection null => "null"
  | VDevices l => String.concat "," (map (fun _ => "[object Object]") l)
  end.

Definition _storeDeviceId (key : string) (value : Value) (w : World) : World :=
  if negb (String.eqb key "audioInputId") && negb (String.eqb key "videoInputId") then w
  else
    let value :=
      match value with
      | VSelection null => VSelection (Id LOCAL_STORAGE_NULL_DEVICE_ID)
      | _ => value
      end in
    if truthy value then setItem key (SText (stored_text value)) w
    else removeItem key w.

Definition set (key : string) (value : Value) (w : World) : World :=
  let w := on_attributes (assign key value) w in
  let w := _trigger ("change:" +:+ key) value w in
  _storeDeviceId key value w.

(** ** [isSupported] *)

Definition isSupported (env : Platform) : bool :=
  match navigator env with
  | Some n =>
      match mediaDevices n with
      | Some api => has_getUserMedia api && has_enumerateDevices api
      | None => false
      end
  | None => false
  end.

(** ** Preference helpers *)

(** Modelled from the spec: [getFirstAvailableMediaDevice] of
    [services/mediaDevicePreferences.ts], which is not among the sources; the
    spec gives it as the first device identifier in the preference list that
    exists in the device list (the result is [undefined] when there is none). *)
Definition getFirstAvailableMediaDevice
    (devices : list Device) (inputList : list string) : option string :=
  snd <$> list_find (fun id => Exists (fun d => deviceId d = id) devices) inputList.

(** One preference list absorbing the devices of its kind: every identifier
    that is not yet in the list is appended, in the order of the devices. *)
Definition append_unknown
    (k : MediaDeviceKind) (devices : list Device) (inputList : list string) : list string :=
  fold_left
    (fun acc d =>
       if decide (kind d = k /\ deviceId d ∉ acc) then acc ++ [deviceId d] else acc)
    devices inputList.

(** Modelled from the spec: [populateMediaDevicesPreferences] of
    [services/mediaDevicePreferences.ts], which is not among the sources; the
    spec gives it as appending, for each kind with a preference list, any
    device identifier present in the fresh devices but absent from the list,
    and as telling which list changed (a list that did not change comes back
    as [null], here [None]). *)
Definition populateMediaDevicesPreferences
    (devices : list Device) (audioInputList videoInputList : list string)
    : option (list string) * option (list string) :=
  let newAudioInputList := append_unknown audioinput devices audioInputList in
  let newVideoInputList := append_unknown videoinput devices videoInputList in
  (if decide (newAudioInputList = audioInputList) then None else Some newAudioInputList,
   if decide (newVideoInputList = videoInputList) then None else Some newVideoInputList).

(** ** The device registry *)

(** [a.deviceId === b.deviceId && a.kind === b.kind] *)
Definition same_device (a b : Device) : Prop :=
  deviceId a = deviceId b /\ kind a = kind b.

#[global] Instance same_device_dec a b : Decision (same_device a b).
Proof. unfold same_device. apply _. Defined.

(** The key of the known-device cache: [kind + '-' + deviceId]. *)
Definition known_key (d : Device) : string :=
  kind_name (kind d) +:+ "-" +:+ deviceId d.

(** The records held by the device list. *)
Definition records (l : list DeviceObject) : list Device := snd <$> l.

(** A write to the object at address [a]: every alias shows the new record. *)
Definition rewrite_at (a : nat) (d : Device) (o : DeviceObject) : DeviceObject :=
  if decide (fst o = a) then (a, d) else o.

Definition write (a : nat) (d : Device) (w : World) : World :=
  on_this (fun m =>
    with_knownDevices (rewrite_at a d <$> _knownDevices m)
      (with_attributes (fun at' => with_devices (rewrite_at a d <$> devices at') at') m)) w.

Definition _removeDevice (removedDevice : Device) (w : World) : World :=
  let w :=
    match list_find (fun oldDevice : DeviceObject => same_device (snd oldDevice) removedDevice)
                    (devices (attr w)) with
    | Some (removedDeviceIndex, _) =>
        on_attributes (fun a => with_devices (delete removedDeviceIndex (devices a)) a) w
    | None => w
    end in
  if decide (kind removedDevice = audioinput
             /\ audioInputId (attr w) = Id (deviceId removedDevice))
  then on_attributes (with_audioInputId undefined) w
  else if decide (kind removedDevice = videoinput
                  /\ videoInputId (attr w) = Id (deviceId removedDevice))
  then on_attributes (with_videoInputId undefined) w
  else w.

(** The record of [oldDevice] after [_updateDevice] has copied the fresh record
    over it. *)
Definition refreshed (updatedDevice oldDevice : Device) : Device :=
  {| deviceId := deviceId oldDevice;
     groupId := groupId updatedDevice;
     kind := kind updatedDevice;
     label := if truthy_string (label updatedDevice) then label updatedDevice
              else label oldDevice;
     fallbackLabel := fallbackLabel oldDevice |}.

(** [find] cannot miss here: the devices handed to [_updateDevice] are those
    found in the list (lemma [_updateDevice_finds] below). *)
Definition _updateDevice (updatedDevice : Device) (w : World) : World :=
  match list_find (fun oldDevice : DeviceObject => same_device (snd oldDevice) updatedDevice)
                  (devices (attr w)) with
  | Some (_, (a, oldDevice)) => write a (refreshed updatedDevice oldDevice) w
  | None => w
  end.

(** [t('spreed', '<name> {number}', { number })], untranslated. *)
Definition t_number (name : string) (number : nat) : string :=
  name +:+ " " +:+ pretty number.

(** [Object.values(this._knownDevices).filter(device => device.kind === k
    && device.deviceId !== '').length] *)
Definition known_count (k : MediaDeviceKind) (known : gmap string DeviceObject) : nat :=
  length (filter (fun d : Device => kind d = k /\ deviceId d <> "")
                 (map snd (map snd (map_to_list known)))).

Definition new_fallbackLabel (d : Device) (known : gmap string DeviceObject) : string :=
  if decide (deviceId d = "default" \/ deviceId d = "") then "Default"
  else match kind d with
       | audioinput => t_number "Microphone" (known_count audioinput known + 1)
       | videoinput => t_number "Camera" (known_count videoinput known + 1)
       | audiooutput => t_number "Speaker" (known_count audiooutput known + 1)
       end.

(** The object that [_addDevice] builds from the fresh record. *)
Definition added_record (addedDevice : Device) (known : gmap string DeviceObject) : Device :=
  match known !! known_key addedDevice with
  | Some (_, knownDevice) =>
      {| deviceId := deviceId addedDevice;
         groupId := groupId addedDevice;
         kind := kind addedDevice;
         label := if truthy_string (label addedDevice) then label addedDevice
                  else label knownDevice;
         fallbackLabel := fallbackLabel knownDevice |}
  | None =>
      {| deviceId := deviceId addedDevice;
         groupId := groupId addedDevice;
         kind := kind addedDevice;
         label := label addedDevice;
         fallbackLabel := Some (new_fallbackLabel addedDevice known) |}
  end.

Definition _addDevice (addedDevice : Device) (w : World) : World :=
  let a := next_address (outside w) in
  let addedDevice := added_record addedDevice (_knownDevices (this w)) in
  let w := on_outside (with_next_address (S a)) w in
  let w := on_this (fun m =>
             with_knownDevices (<[known_key addedDevice := (a, addedDevice)]> (_knownDevices m)) m) w in
  on_attributes (fun at' => with_devices (devices at' ++ [(a, addedDevice)]) at') w.

Definition _populatePreferences (devices : list Device) (w : World) : World :=
  let '(newAudioInputList, newVideoInputList) :=
    populateMediaDevicesPreferences devices
      (_preferenceAudioInputList (this w)) (_preferenceVideoInputList (this w)) in
  let w :=
    match newAudioInputList with
    | Some l => setItem "audioInputPreferences" (SJson l)
                  (on_this (with_preferenceAudioInputList l) w)
    | None => w
    end in
  match newVideoInputList with
  | Some l => setItem "videoInputPreferences" (SJson l)
                (on_this (with_preferenceVideoInputList l) w)
  | None => w
  end.

(** [devices.find(device => device.kind === k)?.deviceId] *)
Definition first_of_kind (k : MediaDeviceKind) (devices : list Device) : option string :=
  (fun r => deviceId (snd r)) <$> list_find (fun d => kind d = k) devices.

(** The value a selection is recomputed to. *)
Definition automatic_default
    (k : MediaDeviceKind) (devices : list Device) (inputList : list string) : Selection :=
  to_selection (or_else (getFirstAvailableMediaDevice devices inputList)
                        (first_of_kind k devices)).

Definition removedDevices (old : list DeviceObject) (devices : list Device) : list DeviceObject :=
  filter (fun oldDevice : DeviceObject =>
            ~ Exists (fun device => same_device (snd oldDevice) device) devices) old.

Definition updatedDevices (old : list DeviceObject) (devices : list Device) : list Device :=
  filter (fun device =>
            Exists (fun oldDevice : DeviceObject => same_device device (snd oldDevice)) old) devices.

Definition addedDevices (old : list DeviceObject) (devices : list Device) : list Device :=
  filter (fun device =>
            ~ Exists (fun oldDevice : DeviceObject => same_device device (snd oldDevice)) old) devices.

(** Lines 134-144: the three loops and the preference step. *)
Definition apply_enumeration (devices : list Device) (w : World) : World :=
  let old := MediaDevices.devices (attr w) in
  let w := forEach (removedDevices old devices) (fun d => _removeDevice (snd d)) w in
  let w := forEach (updatedDevices old devices) _updateDevice w in
  let w := forEach (addedDevices old devices) _addDevice w in
  _populatePreferences devices w.

(** Lines 146-154: the two selections are recomputed, or kept. *)
Definition recompute_audio (previousFirstAvailable : option string)
    (devices : list Device) (w : World) : World :=
  if decide (audioInputId (attr w) = undefined
             \/ selection_is (audioInputId (attr w)) previousFirstAvailable)
  then on_attributes
         (with_audioInputId
            (automatic_default audioinput devices (_preferenceAudioInputList (this w)))) w
  else w.

Definition recompute_video (previousFirstAvailable : option string)
    (devices : list Device) (w : World) : World :=
  if decide (videoInputId (attr w) = undefined
             \/ selection_is (videoInputId (attr w)) previousFirstAvailable)
  then on_attributes
         (with_videoInputId
            (automatic_default videoinput devices (_preferenceVideoInputList (this w)))) w
  else w.

(** Lines 160-165: the notifications. *)
Definition notify_changes (previousAudioInputId previousVideoInputId : Selection)
    (w : World) : World :=
  let w :=
    if decide (previousAudioInputId <> audioInputId (attr w))
    then _trigger "change:audioInputId" (VSelection (audioInputId (attr w))) w
    else w in
  if decide (previousVideoInputId <> videoInputId (attr w))
  then _trigger "change:videoInputId" (VSelection (videoInputId (attr w))) w
  else w.

(** The enumeration promise [p] has settled. *)
Definition settled (p : nat) (w : World) : World :=
  on_outside (fun o => with_enumerations (filter (fun q => q <> p) (enumerations o)) o)
    (on_this (with_pending None) w).

(** [_updateDevices]: the call itself.  It asks the platform for the devices
    and keeps the promise of the answer. *)
Definition _updateDevices (w : World) : World :=
  let p := next_promise (outside w) in
  let w := call enumerateDevices_called w in
  let w := on_outside (fun o => with_next_promise (S p) (with_enumerations (enumerations o ++ [p]) o)) w in
  on_this (with_pending (Some p)) w.

(** [_updateDevices]: the [then] callback, run when promise [p] resolves with
    the enumerated [devices]. *)
Definition _updateDevices_then (p : nat) (devices : list Device) (w : World) : World :=
  let previousAudioInputId := audioInputId (attr w) in
  let previousVideoInputId := videoInputId (attr w) in
  let previousFirstAvailableAudioInputId :=
    getFirstAvailableMediaDevice (records (MediaDevices.devices (attr w)))
                                 (_preferenceAudioInputList (this w)) in
  let previousFirstAvailableVideoInputId :=
    getFirstAvailableMediaDevice (records (MediaDevices.devices (attr w)))
                                 (_preferenceVideoInputList (this w)) in
  let w := apply_enumeration devices w in
  let w := recompute_audio previousFirstAvailableAudioInputId devices w in
  let w := recompute_video previousFirstAvailableVideoInputId devices w in
  let w := notify_changes previousAudioInputId previousVideoInputId w in
  settled p w.

(** [_updateDevices]: the [catch] callback, run when promise [p] rejects. *)
Definition _updateDevices_catch (p : nat) (error : DOMException) (w : World) : World :=
  settled p w.

(** ** Device events *)

Definition enableDeviceEvents (env : Platform) (w : World) : World :=
  if negb (isSupported env) then w
  else
    let w := on_this (fun m => with_enabledCount (_enabledCount m + 1)%Z m) w in
    let w := _updateDevices w in
    call devicechange_listener_added w.

Definition disableDeviceEvents (env : Platform) (w : World) : World :=
  if negb (isSupported env) then w
  else
    let w := on_this (fun m => with_enabledCount (_enabledCount m - 1)%Z m) w in
    if decide (_enabledCount (this w) = 0%Z)
    then call devicechange_listener_removed w
    else w.

(** ** The track registry *)

(** [this._tracks.indexOf(track)] followed by [splice(index, 1)]. *)
Definition remove_track (t : Track) (l : list Track) : list Track :=
  match list_find (fun x => track_id x = track_id t) l with
  | Some (index, _) => delete index l
  | None => l
  end.

(** The number of registrations of a track, that is of listeners of each
    sort that the manager has put on it. *)
Definition registrations (t : Track) (w : World) : nat :=
  length (filter (fun x => x = track_id t) (listeners (outside w))).

Definition _registerTrack (track : Track) (w : World) : World :=
  let w := on_this (fun m => with_tracks (_tracks m ++ [track]) m) w in
  on_outside (fun o => with_listeners (listeners o ++ [track_id track]) o) w.

Definition _registerStream (stream : MediaStream) (w : World) : World :=
  forEach stream _registerTrack w.

(** The track delivers ['ended']: every listener put on it by
    [_registerTrack] runs. *)
Definition on_ended (t : Track) (w : World) : World :=
  Nat.iter (registrations t w)
           (on_this (fun m => with_tracks (remove_track t (_tracks m)) m)) w.

(** The track delivers ['cloned'] with the clone as detail. *)
Definition on_cloned (t clone : Track) (w : World) : World :=
  Nat.iter (registrations t w) (_registerTrack clone) w.

(** [track.stop()] *)
Definition stop (env : Platform) (t : Track) (w : World) : World :=
  let w := call (track_stop_called (track_id t)) w in
  if decide (track_id t ∈ ended (outside w)) then w
  else
    let w := on_outside (fun o => with_ended (ended o ++ [track_id t]) o) w in
    if stop_announces_ended env then on_ended t w else w.

(** [this._tracks.forEach(f)]: the indices below the length at the start are
    visited in order, and an index is visited only if the array still has it
    when its turn comes. *)
Fixpoint tracks_forEach_from (n k : nat) (f : Track -> World -> World) (w : World) : World :=
  match n with
  | 0 => w
  | S n =>
      let w := match _tracks (this w) !! k with
               | Some t => f t w
               | None => w
               end in
      tracks_forEach_from n (S k) f w
  end.

Definition tracks_forEach (f : Track -> World -> World) (w : World) : World :=
  tracks_forEach_from (length (_tracks (this w))) 0 f w.

(** ** Acquisition *)

Definition truthy_constraint (c : TrackConstraint) : bool :=
  match c with
  | constraint_missing => false
  | constraint_bool b => b
  | constraint_object _ _ => true
  end.

(** [constraints.audio.deviceId] *)
Definition constraint_deviceId (c : TrackConstraint) : option DeviceIdConstraint :=
  match c with
  | constraint_object d _ => d
  | _ => None
  end.

Definition truthy_deviceId (d : option DeviceIdConstraint) : bool :=
  match d with
  | Some (deviceId_string s) => truthy_string s
  | Some (deviceId_object _ _) => true
  | None => false
  end.

(** Lines 311-320 for one kind. *)
Definition resolve_constraint (selection : Selection) (c : TrackConstraint) : TrackConstraint :=
  if truthy_constraint c && negb (truthy_deviceId (constraint_deviceId c)) then
    match selection with
    | Id id =>
        if truthy_string id then
          constraint_object (Some (deviceId_object (Some id) None))
            match c with
            | constraint_object _ rest => rest
            | _ => []
            end
        else c
    | null => constraint_bool false
    | undefined => c
    end
  else c.

Definition final_constraints (constraints : Constraints) (w : World) : Constraints :=
  {| c_audio := resolve_constraint (audioInputId (attr w)) (c_audio constraints);
     c_video := resolve_constraint (videoInputId (attr w)) (c_video constraints) |}.

(** [deviceId.exact || deviceId.ideal || deviceId]: the string it yields, or
    [None] when it yields the constraint object itself. *)
Definition requested_deviceId (d : DeviceIdConstraint) : option string :=
  match d with
  | deviceId_string s => Some s
  | deviceId_object exact ideal => or_else exact (or_else ideal None)
  end.

(** [settings && settings.deviceId !== requested] *)
Definition differs (settings : option TrackSettings) (requested : option string) : bool :=
  match settings with
  | Some st =>
      match requested with
      | Some s => negb (bool_decide (settings_deviceId st = Some s))
      | None => true
      end
  | None => false
  end.

(** The test of one of the two blocks of the loop body of
    [_stopIncompatibleTracks]: the kind is asked for with a device identifier,
    the track is of the kind, and its device is another one. *)
Definition conflicts (k : TrackKind) (c : TrackConstraint) (track : Track) : bool :=
  match constraint_deviceId c with
  | Some d =>
      truthy_constraint c && truthy_deviceId (Some d)
      && bool_decide (track_kind track = k)
      && differs (track_settings track) (requested_deviceId d)
  | None => false
  end.

Definition stop_if_incompatible (env : Platform) (k : TrackKind) (c : TrackConstraint)
    (track : Track) (w : World) : World :=
  if conflicts k c track then stop env track w else w.

Definition _stopIncompatibleTracks (env : Platform) (constraints : Constraints) (w : World) : World :=
  tracks_forEach
    (fun track w =>
       let w := stop_if_incompatible env audio (c_audio constraints) track w in
       stop_if_incompatible env video (c_video constraints) track w)
    w.

Definition first_settings (k : TrackKind) (stream : MediaStream) : option TrackSettings :=
  match filter (fun t => track_kind t = k) stream with
  | t :: _ => track_settings t
  | [] => None
  end.

Definition _updateSelectedDevicesFromGetUserMediaResult (stream : MediaStream) (w : World) : World :=
  let w :=
    if truthy_selection (audioInputId (attr w)) then
      match first_settings audio stream with
      | Some {| settings_deviceId := Some d |} =>
          if truthy_string d && negb (bool_decide (audioInputId (attr w) = Id d))
          then set "audioInputId" (VSelection (Id d)) w
          else w
      | _ => w
      end
    else w in
  if truthy_selection (videoInputId (attr w)) then
    match first_settings video stream with
    | Some {| settings_deviceId := Some d |} =>
        if truthy_string d && negb (bool_decide (videoInputId (attr w) = Id d))
        then set "videoInputId" (VSelection (Id d)) w
        else w
    | _ => w
    end
  else w.

(** How a promise settles. *)
Inductive Settlement (A : Type) := resolved (a : A) | rejected (e : DOMException).
Arguments resolved {A} a.
Arguments rejected {A} e.

(** [_getUserMediaInternal] up to the request: the constraints object is
    completed in place, the incompatible tracks are stopped, the platform is
    asked for the stream. *)
Definition _getUserMediaInternal_request (env : Platform) (constraints : Constraints)
    (w : World) : Constraints * World :=
  let constraints := final_constraints constraints w in
  let w := _stopIncompatibleTracks env constraints w in
  (constraints, call (getUserMedia_called constraints) w).

Definition _getUserMediaInternal_then (stream : MediaStream) (w : World) : World :=
  let w := _registerStream stream w in
  let w := _updateSelectedDevicesFromGetUserMediaResult stream w in
  _updateDevices w.

Definition _getUserMediaInternal_catch (error : DOMException) (w : World) : World :=
  _updateDevices w.

(** [_getUserMediaInternal] run until its promise settles, [answer] being the
    platform's answer to the request.  The constraints come back as the
    call has left them. *)
Definition _getUserMediaInternal (env : Platform) (answer : Settlement MediaStream)
    (constraints : Constraints) (w : World)
    : Constraints * World * Settlement MediaStream :=
  let '(constraints, w) := _getUserMediaInternal_request env constraints w in
  match answer with
  | resolved stream => (constraints, _getUserMediaInternal_then stream w, resolved stream)
  | rejected error => (constraints, _getUserMediaInternal_catch error w, rejected error)
  end.

Definition NotSupportedError : DOMException :=
  {| error_name := "NotSupportedError";
     error_message := "MediaDevicesManager is not supported" |}.

(** [getUserMedia] run until the promise it returns settles.  When an
    enumeration is pending, [enumerated] is how that enumeration settles
    ([None]: it rejects); [first] and [second] are the platform's answers to
    the first and, if one is made, the second stream request. *)
Definition getUserMedia (env : Platform) (constraints : Constraints)
    (enumerated : option (list Device)) (first second : Settlement MediaStream)
    (w : World) : World * Settlement MediaStream :=
  if negb (isSupported env) then (w, rejected NotSupportedError)
  else
    match _pendingEnumerateDevicesPromise (this w) with
    | None =>
        let '(_, w, outcome) := _getUserMediaInternal env first constraints w in
        (w, outcome)
    | Some p =>
        let w :=
          match enumerated with
          | Some devices => _updateDevices_then p devices w
          | None => _updateDevices_catch p NotSupportedError w
          end in
        (* .then(() => this._getUserMediaInternal(constraints)) *)
        match _getUserMediaInternal env first constraints w with
        | (_, w, resolved stream) => (w, resolved stream)
        | (constraints, w, rejected _) =>
            (* .catch(() => this._getUserMediaInternal(constraints)) *)
            let '(_, w, outcome) := _getUserMediaInternal env second constraints w in
            (w, outcome)
        end
    end.

(** ** Construction *)

Definition JSON_parse (v : Stored) : option (list string) :=
  match v with
  | SJson l => Some l
  | SText _ => None
  end.

(** [value !== null ? JSON.parse(value) : []]; [None] when [JSON.parse] does
    not yield an identifier list. *)
Definition stored_preferences (key : string) (o : Outside) : option (list string) :=
  match BrowserStorage o !! key with
  | Some v => JSON_parse v
  | None => Some []
  end.

Definition stored_selection (key : string) (o : Outside) : Selection :=
  if decide (BrowserStorage o !! key = Some (SText LOCAL_STORAGE_NULL_DEVICE_ID))
  then null else undefined.

Definition requestInitialPermissions (w : World) : World :=
  call (getUserMedia_called {| c_audio := constraint_bool true;
                               c_video := constraint_bool true |}) w.

Definition requestInitialPermissions_then (env : Platform) (stream : MediaStream)
    (w : World) : World :=
  _updateDevices (forEach stream (stop env) w).

Definition requestInitialPermissions_catch (err : DOMException) (w : World) : World :=
  _updateDevices w.

(** [new MediaDevicesManager()] over what is outside; [None] when a stored
    preference list cannot be read back. *)
Definition MediaDevicesManager (env : Platform) (o : Outside) : option World :=
  match stored_preferences "audioInputPreferences" o,
        stored_preferences "videoInputPreferences" o with
  | Some audioInputPreferences, Some videoInputPreferences =>
      let w :=
        {| this :=
             {| attributes :=
                  {| devices := [];
                     audioInputId := stored_selection "audioInputId" o;
                     videoInputId := stored_selection "videoInputId" o;
                     others := ∅ |};
                _enabledCount := 0;
                _knownDevices := ∅;
                _tracks := [];
                _pendingEnumerateDevicesPromise := None;
                _preferenceAudioInputList := audioInputPreferences;
                _preferenceVideoInputList := videoInputPreferences |};
           outside := o |} in
      Some (if isSupported env then requestInitialPermissions w else w)
  | _, _ => None
  end.

(** ** [updatePreferences] and [listDevices] *)

(** [!BrowserStorage.getItem(key)] *)
Definition nothing_stored (key : string) (w : World) : bool :=
  match getItem key w with
  | Some (SText s) => negb (truthy_string s)
  | Some (SJson _) => false
  | None => true
  end.

(** [updatePreferences(kind)].  [promoteMediaDevice] belongs to
    [services/mediaDevicePreferences.ts], which is not among the sources; it
    is a parameter here: it gets the kind, the devices, the preference list
    and the selection, and yields the new list or [null]. *)
Definition updatePreferences
    (promoteMediaDevice :
       MediaDeviceKind -> list Device -> list string -> Selection -> option (list string))
    (k : MediaDeviceKind) (w : World) : World :=
  match k with
  | audioinput =>
      let newAudioInputList :=
        promoteMediaDevice k (records (devices (attr w)))
          (_preferenceAudioInputList (this w)) (audioInputId (attr w)) in
      let w :=
        match newAudioInputList with
        | Some l => setItem "audioInputPreferences" (SJson l)
                      (on_this (with_preferenceAudioInputList l) w)
        | None => w
        end in
      if nothing_stored "audioInputDevicePreferred" w
      then setItem "audioInputDevicePreferred" (SText "true") w
      else w
  | videoinput =>
      let newVideoInputList :=
        promoteMediaDevice k (records (devices (attr w)))
          (_preferenceVideoInputList (this w)) (videoInputId (attr w)) in
      let w :=
        match newVideoInputList with
        | Some l => setItem "videoInputPreferences" (SJson l)
                      (on_this (with_preferenceVideoInputList l) w)
        | None => w
        end in
      if nothing_stored "videoInputDevicePreferred" w
      then setItem "videoInputDevicePreferred" (SText "true") w
      else w
  | audiooutput => w
  end.

(** [listDevices()]: what it prints is left out; with an empty device list it
    asks the platform for an enumeration of its own. *)
Definition listDevices (w : World) : World :=
  match devices (attr w) with
  | [] => call enumerateDevices_called w
  | _ :: _ => w
  end.

(** ** Notions used by the properties of the registry and of the tracks *)

(** The preference lists of the manager are the ones the store gives back. *)
Definition preferences_persisted (w : World) : Prop :=
  stored_preferences "audioInputPreferences" (outside w)
    = Some (_preferenceAudioInputList (this w))
  /\ stored_preferences "videoInputPreferences" (outside w)
     = Some (_preferenceVideoInputList (this w)).

(** An entry of the cache sits under the key of its device, its address has
    been given out, and an object of the device list at the same address
    holds the same record. *)
Definition coherent (w : World) : Prop :=
  forall key a d,
    _knownDevices (this w) !! key = Some (a, d) ->
    known_key d = key
    /\ a < next_address (outside w)
    /\ forall d', (a, d') ∈ devices (attr w) -> d' = d.

(** How often a track is in an array of tracks. *)
Definition occurrences (t : Track) (l : list Track) : nat :=
  length (filter (fun x => track_id x = track_id t) l).

(** Every held track carries at least as many listeners of the manager as
    it has places in [_tracks]. *)
Definition registered (w : World) : Prop :=
  forall t, occurrences t (_tracks (this w)) <= registrations t w.

(** The device that the first track of a kind reports, when it reports a
    non-empty one. *)
Definition reported (k : TrackKind) (stream : MediaStream) : option string :=
  match first_settings k stream with
  | Some {| settings_deviceId := Some d |} => if truthy_string d then Some d else None
  | _ => None
  end.

Definition selection_key (k : TrackKind) : string :=
  match k with
  | audio => "audioInputId"
  | video => "videoInputId"
  end.

(** The cache after some steps still has every key it had, under the same
    device and with the same fallback label. *)
Definition cache_extends (w w' : World) : Prop :=
  forall key a d,
    _knownDevices (this w) !! key = Some (a, d) ->
    exists a' d',
      _knownDevices (this w') !! key = Some (a', d')
      /\ fallbackLabel d' = fallbackLabel d
      /\ deviceId d' = deviceId d
      /\ kind d' = kind d.

(** The test of the loop body of [_stopIncompatibleTracks] for one track:
    one of its two blocks stops the track. *)
Definition conflicting (constraints : Constraints) (t : Track) : bool :=
  conflicts audio (c_audio constraints) t || conflicts video (c_video constraints) t.

(** The calls of [stop] on the tracks of a list, in its order. *)
Definition stops (l : list Track) : list Effect :=
  (fun t => track_stop_called (track_id t)) <$> l.

(** The state once a pending enumeration has settled: [Some devices] when
    it resolves, [None] when it rejects. *)
Definition enumeration_settled (p : nat) (enumerated : option (list Device)) (w : World)
    : World :=
  match enumerated with
  | Some devices => _updateDevices_then p devices w
  | None => _updateDevices_catch p NotSupportedError w
  end.

(** One of the two blocks of [_updateSelectedDevicesFromGetUserMediaResult],
    for the kind [k]. *)
Definition reconcile (k : TrackKind) (stream : MediaStream) (w : World) : World :=
  if truthy_selection (match k with
                       | audio => audioInputId (attr w)
                       | video => videoInputId (attr w)
                       end) then
    match reported k stream with
    | Some d => if bool_decide (match k with
                                | audio => audioInputId (attr w)
                                | video => videoInputId (attr w)
                                end = Id d) then w
                else set (selection_key k) (VSelection (Id d)) w
    | None => w
    end
  else w.

(** ** Platforms, devices and states of the examples *)

Definition browser (announce : bool) : Platform :=
  {| navigator :=
       Some {| mediaDevices :=
                 Some {| has_getUserMedia := true; has_enumerateDevices := true |} |};
     stop_announces_ended := announce |}.

Definition no_media_devices : Platform :=
  {| navigator := Some {| mediaDevices := None |}; stop_announces_ended := false |}.

Definition nothing_outside : Outside :=
  {| BrowserStorage := ∅; triggered := []; effects := []; enumerations := [];
     next_promise := 0; next_address := 0; ended := []; listeners := [] |}.

(** The manager as its constructor leaves it over an empty store, where the
    platform has no media devices. *)
Definition fresh : World :=
  {| this :=
       {| attributes :=
            {| devices := []; audioInputId := undefined; videoInputId := undefined;
               others := ∅ |};
          _enabledCount := 0;
          _knownDevices := ∅;
          _tracks := [];
          _pendingEnumerateDevicesPromise := None;
          _preferenceAudioInputList := [];
          _preferenceVideoInputList := [] |};
     outside := nothing_outside |}.

(** A store in which an earlier session has left the empty identifier as
    the only audio preference, and the manager constructed over it. *)
Definition remembered : Outside :=
  with_storage (<["audioInputPreferences" := SJson [""]]> ∅) nothing_outside.

Definition returning : World :=
  {| this :=
       {| attributes :=
            {| devices := []; audioInputId := undefined; videoInputId := undefined;
               others := ∅ |};
          _enabledCount := 0;
          _knownDevices := ∅;
          _tracks := [];
          _pendingEnumerateDevicesPromise := None;
          _preferenceAudioInputList := [""];
          _preferenceVideoInputList := [] |};
     outside := remembered |}.

Definition microphone (id name : string) : Device :=
  {| deviceId := id; groupId := "group-a"; kind := audioinput; label := name;
     fallbackLabel := None |}.

Definition camera (id name : string) : Device :=
  {| deviceId := id; groupId := "group-v"; kind := videoinput; label := name;
     fallbackLabel := None |}.

Definition video_track (n : nat) (device : string) : Track :=
  {| track_id := n; track_kind := video;
     track_settings := Some {| settings_deviceId := Some device |} |}.

Definition audio_track (n : nat) (device : string) : Track :=
  {| track_id := n; track_kind := audio;
     track_settings := Some {| settings_deviceId := Some device |} |}.

Definition exactly (id : string) : TrackConstraint :=
  constraint_object (Some (deviceId_object (Some id) None)) [].

(** The media kind of a constraint member and the selection that goes with it. *)
Definition requested (k : TrackKind) (c : Constraints) : TrackConstraint :=
  match k with
  | audio => c_audio c
  | video => c_video c
  end.

Definition selection (k : TrackKind) (w : World) : Selection :=
  match k with
  | audio => audioInputId (attr w)
  | video => videoInputId (attr w)
  end.

(** The members of a constraint object other than [deviceId]. *)
Definition rest_of (c : TrackConstraint) : list (string * string) :=
  match c with
  | constraint_object _ rest => rest
  | _ => []
  end.

(** The number of the spec for a fallback label: the known devices of the
    kind whose identifier is neither ['default'] nor empty, plus one. *)
Definition spec_number (k : MediaDeviceKind) (known : gmap string DeviceObject) : nat :=
  length (filter (fun d : Device => kind d = k /\ deviceId d <> "default" /\ deviceId d <> "")
                 (map snd (map snd (map_to_list known)))) + 1.


(** A selection after the removal loop: it is [undefined] when one of the
    removed devices is of the kind and carries the selected identifier. *)
Definition after_removal (k : MediaDeviceKind) (sel : Selection)
    (removed : list DeviceObject) : Selection :=
  if decide (Exists (fun d : DeviceObject => kind (snd d) = k /\ sel = Id (deviceId (snd d)))
                    removed)
  then undefined else sel.


(** The parts of the state other than the device list and the cache. *)
Definition beside_devices (w : World)
    : Selection * Selection * list string * list string * gmap string Stored
      * list (string * Value) :=
  (audioInputId (attr w), videoInputId (attr w),
   _preferenceAudioInputList (this w), _preferenceVideoInputList (this w),
   BrowserStorage (outside w), triggered (outside w)).

(** The first object of the list that stands for the device of a fresh
    record: what [find] yields in [_updateDevice]. *)
Definition first_match (r : Device) (l : list DeviceObject) : option DeviceObject :=
  snd <$> list_find (fun o : DeviceObject => same_device (snd o) r) l.

(** The device list after [_updateDevice], and after [_removeDevice]. *)
Definition update_list (r : Device) (l : list DeviceObject) : list DeviceObject :=
  match first_match r l with
  | Some (a, old) => rewrite_at a (refreshed r old) <$> l
  | None => l
  end.

Definition remove_list (d : Device) (l : list DeviceObject) : list DeviceObject :=
  match list_find (fun o : DeviceObject => same_device (snd o) d) l with
  | Some (i, _) => delete i l
  | None => l
  end.

(** [update_list] when no two objects of the list share an address. *)
Fixpoint refresh_first (r : Device) (l : list DeviceObject) : list DeviceObject :=
  match l with
  | [] => []
  | o :: l =>
      if decide (same_device (snd o) r) then (fst o, refreshed r (snd o)) :: l
      else o :: refresh_first r l
  end.

(** The first object standing for [r] already shows what [r] brings. *)
Definition stable_first (r : Device) (l : list DeviceObject) : Prop :=
  match first_match r l with
  | Some o => refreshed r (snd o) = snd o
  | None => False
  end.

(** Every object of the device list has an address of its own, below the
    next address to be given out. *)
Definition well_formed (w : World) : Prop :=
  NoDup (fst <$> devices (attr w))
  /\ Forall (fun o : DeviceObject => fst o < next_address (outside w)) (devices (attr w)).

(** No two records of an enumeration stand for the same device. *)
Definition distinct_devices (l : list Device) : Prop :=
  NoDup ((fun d => (deviceId d, kind d)) <$> l).

(** A fresh record is found among the enumerated devices. *)
Definition enumerated (devices : list Device) (o : DeviceObject) : Prop :=
  Exists (fun device => same_device (snd o) device) devices.

(** The object built from a fresh record shows what the record brings. *)
Definition built_from (r : Device) (o : DeviceObject) : Prop :=
  same_device (snd o) r /\ refreshed r (snd o) = snd o.

(** The device list right after an enumeration of [devices] has been
    processed: an address per object, every object enumerated, and for every
    enumerated device a first object that shows what its record brings. *)
Definition settled_list (devices : list Device) (l : list DeviceObject) : Prop :=
  NoDup (fst <$> l)
  /\ Forall (enumerated devices) l
  /\ Forall (fun r => stable_first r l) devices.


(** * Properties *)

(** ** The persistent store *)

Lemma fresh_is_constructed :
  MediaDevicesManager no_media_devices nothing_outside = Some fresh.
Proof. reflexivity. Qed.

Lemma storage_on_attributes f w :
  BrowserStorage (outside (on_attributes f w)) = BrowserStorage (outside w).
Proof. reflexivity. Qed.

Lemma storage_trigger e v w :
  BrowserStorage (outside (_trigger e v w)) = BrowserStorage (outside w).
Proof. reflexivity. Qed.

Lemma triggered_storeDeviceId key value w :
  triggered (outside (_storeDeviceId key value w)) = triggered (outside w).
Proof.
  unfold _storeDeviceId.
  destruct (negb (key =? "audioInputId")%string && negb (key =? "videoInputId")%string);
    [reflexivity|].
  match goal with |- context [truthy ?v] => destruct (truthy v) end; reflexivity.
Qed.

Lemma selection_key_test key :
  key = "audioInputId" \/ key = "videoInputId" ->
  negb (key =? "audioInputId")%string && negb (key =? "videoInputId")%string = false.
Proof. intros [-> | ->]; reflexivity. Qed.

Lemma other_key_test key :
  key <> "audioInputId" -> key <> "videoInputId" ->
  negb (key =? "audioInputId")%string && negb (key =? "videoInputId")%string = true.
Proof.
  intros Ha Hv.
  apply String.eqb_neq in Ha. apply String.eqb_neq in Hv.
  rewrite Ha, Hv. reflexivity.
Qed.

(** What [set] leaves in the store under a selection key. *)
Lemma set_selection_storage key v w :
  key = "audioInputId" \/ key = "videoInputId" ->
  BrowserStorage (outside (set key (VSelection v) w)) =
    match v with
    | null => <[key := SText LOCAL_STORAGE_NULL_DEVICE_ID]> (BrowserStorage (outside w))
    | Id s => if truthy_string s then <[key := SText s]> (BrowserStorage (outside w))
              else delete key (BrowserStorage (outside w))
    | undefined => delete key (BrowserStorage (outside w))
    end.
Proof.
  intros Hkey. unfold set, _storeDeviceId.
  rewrite (selection_key_test key Hkey).
  destruct v as [| |s]; simpl; try reflexivity.
  destruct (truthy_string s); reflexivity.
Qed.

(** C10: for a key other than the two selection keys, [set] leaves the
    persistent store as it is and still sends the [change:key] notification;
    for a selection key, [undefined] and the empty string remove the
    persisted entry. *)
Theorem set_persistence_frame (key : string) (value : Value) (w : World) :
  (key <> "audioInputId" -> key <> "videoInputId" ->
     BrowserStorage (outside (set key value w)) = BrowserStorage (outside w)
     /\ triggered (outside (set key value w)) =
          triggered (outside w) ++ [("change:" +:+ key, value)])
  /\ (key = "audioInputId" \/ key = "videoInputId" ->
      forall v, v = undefined \/ v = Id "" ->
        BrowserStorage (outside (set key (VSelection v) w)) =
          delete key (BrowserStorage (outside w))
        /\ triggered (outside (set key (VSelection v) w)) =
             triggered (outside w) ++ [("change:" +:+ key, VSelection v)]).
Proof.
  split.
  - intros Ha Hv. unfold set.
    split.
    + unfold _storeDeviceId. rewrite (other_key_test key Ha Hv). reflexivity.
    + rewrite triggered_storeDeviceId. reflexivity.
  - intros Hkey v Hfalsy. split.
    + rewrite (set_selection_storage key v w Hkey).
      destruct Hfalsy as [-> | ->]; reflexivity.
    + unfold set. rewrite triggered_storeDeviceId. reflexivity.
Qed.

Lemma set_persistence_frame_witness :
  BrowserStorage (outside (set "devices" (VDevices []) fresh)) = BrowserStorage (outside fresh)
  /\ BrowserStorage (outside (set "audioInputId" (VSelection (Id ""))
                               (set "audioInputId" (VSelection (Id "mic1")) fresh))) =
       delete "audioInputId"
         (BrowserStorage (outside (set "audioInputId" (VSelection (Id "mic1")) fresh))).
Proof.
  split.
  - apply (set_persistence_frame "devices" (VDevices []) fresh); discriminate.
  - apply (set_persistence_frame "audioInputId" (VSelection undefined)
             (set "audioInputId" (VSelection (Id "mic1")) fresh));
      [left; reflexivity | right; reflexivity].
Defined.

(** ** Construction over a store that [set] has written *)

Lemma stored_preferences_insert key k v o :
  key <> k ->
  stored_preferences key (with_storage (<[k := v]> (BrowserStorage o)) o) =
  stored_preferences key o.
Proof.
  intros Hne. unfold stored_preferences. simpl.
  rewrite lookup_insert_ne by congruence. reflexivity.
Qed.

Lemma stored_preferences_delete key k o :
  key <> k ->
  stored_preferences key (with_storage (delete k (BrowserStorage o)) o) =
  stored_preferences key o.
Proof.
  intros Hne. unfold stored_preferences. simpl.
  rewrite lookup_delete_ne by congruence. reflexivity.
Qed.

(** The preference lists that a new manager reads are those that were
    stored before a selection was set. *)
Lemma stored_preferences_set pref key v w :
  pref = "audioInputPreferences" \/ pref = "videoInputPreferences" ->
  key = "audioInputId" \/ key = "videoInputId" ->
  stored_preferences pref (outside (set key (VSelection v) w)) =
  stored_preferences pref (outside w).
Proof.
  intros Hpref Hkey. unfold stored_preferences.
  rewrite (set_selection_storage key v w Hkey).
  assert (Hne : key <> pref) by (destruct Hpref as [-> | ->], Hkey as [-> | ->]; discriminate).
  destruct v as [| |s]; [| |destruct (truthy_string s)];
    rewrite ?lookup_insert_ne, ?lookup_delete_ne by exact Hne; reflexivity.
Qed.

Lemma get_constructed env o w key :
  MediaDevicesManager env o = Some w ->
  key = "audioInputId" \/ key = "videoInputId" ->
  get key w = Some (VSelection (stored_selection key o)).
Proof.
  unfold MediaDevicesManager. intros Hnew Hkey.
  destruct (stored_preferences "audioInputPreferences" o); [|discriminate].
  destruct (stored_preferences "videoInputPreferences" o); [|discriminate].
  injection Hnew as <-.
  destruct Hkey as [-> | ->]; destruct (isSupported env); reflexivity.
Qed.

Lemma constructed_iff_readable env o :
  is_Some (MediaDevicesManager env o) <->
  is_Some (stored_preferences "audioInputPreferences" o)
  /\ is_Some (stored_preferences "videoInputPreferences" o).
Proof.
  unfold MediaDevicesManager.
  split.
  - intros [w Hw].
    destruct (stored_preferences "audioInputPreferences" o) as [a|]; [|discriminate].
    destruct (stored_preferences "videoInputPreferences" o) as [v|]; [|discriminate].
    split; eauto.
  - intros [[a Ha] [v Hv]]. rewrite Ha, Hv. eauto.
Qed.

(** C4, as the code has it: [null] stored through [set] comes back as [null]
    in a manager constructed over the same store; an identifier that is not
    empty is persisted as that same string, and the new manager starts with
    [undefined] for the key ([null] when the string is the one that stands
    for [null]). *)
Theorem selection_round_trip (env : Platform) (key : string) (w : World) :
  key = "audioInputId" \/ key = "videoInputId" ->
  is_Some (MediaDevicesManager env (outside w)) ->
  (exists w', MediaDevicesManager env (outside (set key (VSelection null) w)) = Some w'
              /\ get key w' = Some (VSelection null))
  /\ (forall id, id <> "" ->
       BrowserStorage (outside (set key (VSelection (Id id)) w)) !! key = Some (SText id)
       /\ exists w', MediaDevicesManager env (outside (set key (VSelection (Id id)) w)) = Some w'
                     /\ get key w' =
                          Some (VSelection (if decide (id = LOCAL_STORAGE_NULL_DEVICE_ID)
                                            then null else undefined))).
Proof.
  intros Hkey Hreadable.
  apply constructed_iff_readable in Hreadable as [Ha Hv].
  assert (Hnew : forall v, is_Some (MediaDevicesManager env (outside (set key (VSelection v) w)))).
  { intros v. apply constructed_iff_readable.
    rewrite !stored_preferences_set by auto. auto. }
  split.
  - destruct (Hnew null) as [w' Hw']. exists w'. split; [exact Hw'|].
    rewrite (get_constructed _ _ _ _ Hw' Hkey). unfold stored_selection.
    rewrite (set_selection_storage key null w Hkey), lookup_insert_eq.
    rewrite decide_True by reflexivity. reflexivity.
  - intros id Hid.
    assert (Htruthy : truthy_string id = true).
    { unfold truthy_string. apply String.eqb_neq in Hid. rewrite Hid. reflexivity. }
    assert (Hstored : BrowserStorage (outside (set key (VSelection (Id id)) w)) !! key
                      = Some (SText id)).
    { rewrite (set_selection_storage key (Id id) w Hkey), Htruthy.
      apply lookup_insert_eq. }
    split; [exact Hstored|].
    destruct (Hnew (Id id)) as [w' Hw']. exists w'. split; [exact Hw'|].
    rewrite (get_constructed _ _ _ _ Hw' Hkey). unfold stored_selection.
    rewrite Hstored.
    destruct (decide (id = LOCAL_STORAGE_NULL_DEVICE_ID)) as [-> | Hne].
    + rewrite decide_True by reflexivity. reflexivity.
    + rewrite decide_False by congruence. reflexivity.
Qed.

Lemma selection_round_trip_witness :
  exists w', MediaDevicesManager (browser false)
               (outside (set "videoInputId" (VSelection null) fresh)) = Some w'
             /\ get "videoInputId" w' = Some (VSelection null).
Proof.
  apply (selection_round_trip (browser false) "videoInputId" fresh).
  - right; reflexivity.
  - eexists; reflexivity.
Defined.

(** C4, as stated, fails for an identifier: ["mic1"] set as the audio input
    is in the store, and the manager constructed over that store has
    [undefined] as its audio input. *)
Lemma identifier_is_not_restored :
  exists w',
    MediaDevicesManager (browser false)
      (outside (set "audioInputId" (VSelection (Id "mic1")) fresh)) = Some w'
    /\ get "audioInputId" w' = Some (VSelection undefined)
    /\ get "audioInputId" w' <> Some (VSelection (Id "mic1")).
Proof.
  eexists. split; [reflexivity|]. split; [reflexivity|]. discriminate.
Qed.

(** ** Enumeration calls *)

(** C2, as the code has it: every call of [_updateDevices] asks the platform
    for an enumeration, whether or not one is pending; the marker then holds
    the promise of the new enumeration and the earlier ones stay in flight. *)
Theorem _updateDevices_always_enumerates (w : World) :
  effects (outside (_updateDevices w)) = effects (outside w) ++ [enumerateDevices_called]
  /\ enumerations (outside (_updateDevices w)) =
       enumerations (outside w) ++ [next_promise (outside w)]
  /\ _pendingEnumerateDevicesPromise (this (_updateDevices w)) =
       Some (next_promise (outside w)).
Proof. repeat split. Qed.

(** C2, as stated, fails: with an enumeration pending, [_updateDevices] asks
    the platform again, and two enumerations are in flight. *)
Lemma second_enumeration_in_flight :
  let w := _updateDevices fresh in
  _pendingEnumerateDevicesPromise (this w) = Some 0
  /\ effects (outside w) = [enumerateDevices_called]
  /\ effects (outside (_updateDevices w)) = [enumerateDevices_called; enumerateDevices_called]
  /\ enumerations (outside (_updateDevices w)) = [0; 1].
Proof. repeat split. Qed.

(** [enableDeviceEvents] goes through [_updateDevices] each time it is called
    on a platform with media devices. *)
Lemma enableDeviceEvents_enumerates announce w :
  effects (outside (enableDeviceEvents (browser announce) w)) =
  effects (outside w) ++ [enumerateDevices_called; devicechange_listener_added].
Proof. simpl. rewrite <- app_assoc. reflexivity. Qed.

(** ** Acquisition without media devices *)

(** C8: when the platform lacks the media-device capability, [getUserMedia]
    rejects with [NotSupportedError] and the state, the record of platform
    calls included, is what it was. *)
Theorem getUserMedia_not_supported (env : Platform) (constraints : Constraints)
    (enumerated : option (list Device)) (first second : Settlement MediaStream) (w : World) :
  isSupported env = false ->
  getUserMedia env constraints enumerated first second w = (w, rejected NotSupportedError)
  /\ error_name NotSupportedError = "NotSupportedError".
Proof. intros Hno. unfold getUserMedia. rewrite Hno. split; reflexivity. Qed.

Lemma getUserMedia_not_supported_witness :
  getUserMedia no_media_devices
    {| c_audio := constraint_bool true; c_video := constraint_missing |}
    None (resolved []) (resolved []) (_updateDevices fresh)
  = (_updateDevices fresh, rejected NotSupportedError)
  /\ error_name NotSupportedError = "NotSupportedError".
Proof. apply getUserMedia_not_supported. reflexivity. Defined.

(** ** Fallback labels *)

Lemma _addDevice_devices d w :
  devices (attr (_addDevice d w)) =
  devices (attr w) ++ [(next_address (outside w), added_record d (_knownDevices (this w)))].
Proof. reflexivity. Qed.

Lemma _addDevice_known d w :
  _knownDevices (this (_addDevice d w)) =
  <[known_key d := (next_address (outside w), added_record d (_knownDevices (this w)))]>
    (_knownDevices (this w)).
Proof.
  unfold _addDevice. simpl.
  replace (known_key (added_record d (_knownDevices (this w)))) with (known_key d);
    [reflexivity|].
  unfold added_record, known_key.
  destruct (_knownDevices (this w) !! _) as [[? ?]|]; reflexivity.
Qed.

(** A device with a cache entry: the fallback label of the entry, and the
    label of the entry exactly when the fresh label is empty. *)
Lemma added_record_known d (known : gmap string DeviceObject) a knownDevice :
  known !! known_key d = Some (a, knownDevice) ->
  fallbackLabel (added_record d known) = fallbackLabel knownDevice
  /\ label (added_record d known) =
       (if decide (label d = "") then label knownDevice else label d).
Proof.
  intros Hk. unfold added_record. rewrite Hk. simpl. split; [reflexivity|].
  unfold truthy_string. destruct (String.eqb_spec (label d) "") as [He|Hne].
  - rewrite decide_True by exact He. reflexivity.
  - rewrite decide_False by exact Hne. reflexivity.
Qed.

(** A device without a cache entry: ["Default"] for the two default
    identifiers, otherwise the name of the kind and a number, which counts
    the known devices of the kind whose identifier is not empty. *)
Lemma added_record_unknown d (known : gmap string DeviceObject) :
  known !! known_key d = None ->
  label (added_record d known) = label d
  /\ fallbackLabel (added_record d known) =
       Some (if decide (deviceId d = "default" \/ deviceId d = "") then "Default"
             else t_number match kind d with
                           | audioinput => "Microphone"
                           | videoinput => "Camera"
                           | audiooutput => "Speaker"
                           end (known_count (kind d) known + 1)).
Proof.
  intros Hk. unfold added_record. rewrite Hk. simpl. split; [reflexivity|].
  unfold new_fallbackLabel. destruct (decide _); [reflexivity|].
  destruct (kind d); reflexivity.
Qed.

(** C3 at the input where the code leaves it: after the device ['default'],
    the first microphone with an identifier of its own has no cache entry and
    no known device of its kind is other than a default device, so the number
    of the claim is 1; [_addDevice] labels it ["Microphone 2"]. *)
Theorem first_microphone_is_numbered_2 :
  let w := _addDevice (microphone "default" "") fresh in
  _knownDevices (this w) !! known_key (microphone "mic1" "") = None
  /\ spec_number audioinput (_knownDevices (this w)) = 1
  /\ map (fun o => fallbackLabel (snd o)) (devices (attr (_addDevice (microphone "mic1" "") w)))
     = [Some "Default"; Some "Microphone 2"].
Proof. vm_compute. repeat split. Qed.

(** ** Constraints of an acquisition *)

Lemma _getUserMediaInternal_request_constraints env constraints w :
  fst (_getUserMediaInternal_request env constraints w) = final_constraints constraints w.
Proof. reflexivity. Qed.

Lemma requested_final k constraints w :
  requested k (final_constraints constraints w) =
  resolve_constraint (selection k w) (requested k constraints).
Proof. destruct k; reflexivity. Qed.

Lemma truthy_string_true s : truthy_string s = true <-> s <> "".
Proof.
  unfold truthy_string. destruct (String.eqb_spec s ""); simpl; split; intros; congruence.
Qed.


(** C5, as the code has it.  The constraints handed to the platform are the
    caller's, except that for a kind requested without a truthy device
    identifier a selection that is a non-empty identifier is put in as the
    exact [deviceId], and a selection that is [null] turns the member into
    [false].  A member with a truthy device identifier is left alone
    whatever the selection is. *)
Theorem acquisition_constraints (env : Platform) (constraints : Constraints)
    (w : World) (k : TrackKind) :
  let final := fst (_getUserMediaInternal_request env constraints w) in
  let asked := requested k constraints in
  last (effects (outside (snd (_getUserMediaInternal_request env constraints w))))
    = Some (getUserMedia_called final)
  /\ (truthy_deviceId (constraint_deviceId asked) = true -> requested k final = asked)
  /\ (truthy_constraint asked = true ->
      truthy_deviceId (constraint_deviceId asked) = false ->
      (forall id, selection k w = Id id -> id <> "" ->
         requested k final =
           constraint_object (Some (deviceId_object (Some id) None)) (rest_of asked))
      /\ (selection k w = null -> requested k final = constraint_bool false))
  /\ (truthy_constraint asked = false \/ selection k w = undefined \/ selection k w = Id "" ->
      requested k final = asked).
Proof.
  cbv zeta. rewrite _getUserMediaInternal_request_constraints, requested_final.
  split; [|split; [|split]].
  - unfold _getUserMediaInternal_request. simpl. apply last_snoc.
  - intros Hd. unfold resolve_constraint. rewrite Hd, andb_false_r. reflexivity.
  - intros Ht Hd. unfold resolve_constraint. rewrite Ht, Hd. simpl. split.
    + intros id -> Hid. apply truthy_string_true in Hid. rewrite Hid.
      destruct (requested k constraints); reflexivity.
    + intros ->. reflexivity.
  - intros H. unfold resolve_constraint.
    destruct (truthy_constraint (requested k constraints)) eqn:Ht; [|reflexivity].
    destruct (truthy_deviceId _); [reflexivity|]. simpl.
    destruct H as [H | [-> | ->]]; [discriminate | reflexivity | reflexivity].
Qed.

Lemma acquisition_constraints_witness :
  requested audio
    (fst (_getUserMediaInternal_request (browser true)
            {| c_audio := constraint_bool true; c_video := exactly "cam2" |}
            (on_attributes (with_audioInputId (Id "mic1")) fresh)))
  = exactly "mic1".
Proof.
  apply (acquisition_constraints (browser true)
           {| c_audio := constraint_bool true; c_video := exactly "cam2" |}
           (on_attributes (with_audioInputId (Id "mic1")) fresh) audio);
    [reflexivity | reflexivity | reflexivity | discriminate].
Defined.

(** C5, as stated, fails at three inputs.  After an enumeration that lists a
    single microphone with the empty identifier the audio selection is the
    empty identifier, and a request for audio goes to the platform as it came.
    With audio disabled, a request that names a device keeps naming it.  And
    a request whose device identifier is the empty string gets the selected
    device. *)
Lemma acquisition_constraints_as_stated_fail :
  let unnamed := _updateDevices_then 0 [microphone "" ""] (_updateDevices fresh) in
  let disabled := on_attributes (with_audioInputId null) fresh in
  let pinned := on_attributes (with_audioInputId (Id "mic1")) fresh in
  audioInputId (attr unnamed) = Id ""
  /\ c_audio (fst (_getUserMediaInternal_request (browser true)
                     {| c_audio := constraint_bool true; c_video := constraint_missing |}
                     unnamed)) = constraint_bool true
  /\ c_audio (fst (_getUserMediaInternal_request (browser true)
                     {| c_audio := exactly "mic2"; c_video := constraint_missing |}
                     disabled)) = exactly "mic2"
  /\ c_audio (fst (_getUserMediaInternal_request (browser true)
                     {| c_audio := constraint_object (Some (deviceId_string "")) [];
                        c_video := constraint_missing |}
                     pinned)) = exactly "mic1".
Proof. vm_compute. repeat split. Qed.

(** ** Tracks of another device *)

(** The conflict scenario of the spec, on a platform whose tracks announce
    their end when stopped: the only track, of camera ["cam1"], is stopped
    before the request for ["cam2"] goes out, and once the request has
    succeeded the new track is the only one held. *)
Lemma conflict_scenario :
  let held := _registerStream [video_track 1 "cam1"] fresh in
  let asked := {| c_audio := constraint_missing; c_video := exactly "cam2" |} in
  let '(_, w, _) :=
    _getUserMediaInternal (browser true) (resolved [video_track 2 "cam2"]) asked held in
  effects (outside w) =
    [track_stop_called 1; getUserMedia_called asked; enumerateDevices_called]
  /\ _tracks (this w) = [video_track 2 "cam2"].
Proof. vm_compute. repeat split. Qed.

(** C6 at the input where the code leaves it: a track of camera ["cam1"] and
    its clone are held, and camera ["cam2"] is asked for.  Where a stopped
    track announces its end, the first track leaves the array inside the
    loop, the clone takes its index and is never visited: it is not stopped
    and is still held after the new track has arrived.  Where a stopped
    track does not announce its end, both tracks are stopped and both are
    still held. *)
Theorem clone_survives_device_switch :
  let held := on_cloned (video_track 1 "cam1") (video_track 2 "cam1")
                (_registerStream [video_track 1 "cam1"] fresh) in
  let asked := {| c_audio := constraint_missing; c_video := exactly "cam2" |} in
  let answer := resolved [video_track 3 "cam2"] in
  _tracks (this held) = [video_track 1 "cam1"; video_track 2 "cam1"]
  /\ (let '(_, w, _) := _getUserMediaInternal (browser true) answer asked held in
      effects (outside w) =
        [track_stop_called 1; getUserMedia_called asked; enumerateDevices_called]
      /\ _tracks (this w) = [video_track 2 "cam1"; video_track 3 "cam2"])
  /\ (let '(_, w, _) := _getUserMediaInternal (browser false) answer asked held in
      effects (outside w) =
        [track_stop_called 1; track_stop_called 2; getUserMedia_called asked;
         enumerateDevices_called]
      /\ _tracks (this w) =
           [video_track 1 "cam1"; video_track 2 "cam1"; video_track 3 "cam2"]).
Proof. vm_compute. repeat split. Qed.

(** ** Rejected acquisitions *)

(** With no enumeration pending, the error of the platform is the error of
    the caller, one request has been made and an enumeration follows it. *)
Lemma direct_failure_is_propagated env constraints enumerated error second w :
  isSupported env = true ->
  _pendingEnumerateDevicesPromise (this w) = None ->
  exists w1,
    snd (_getUserMediaInternal_request env constraints w) = w1
    /\ getUserMedia env constraints enumerated (rejected error) second w =
         (_updateDevices w1, rejected error)
    /\ effects (outside (_updateDevices w1)) =
         effects (outside (_stopIncompatibleTracks env (final_constraints constraints w) w))
         ++ [getUserMedia_called (final_constraints constraints w); enumerateDevices_called].
Proof.
  intros Hs Hp. eexists. split; [reflexivity|].
  unfold getUserMedia. rewrite Hs, Hp. simpl. split; [reflexivity|].
  rewrite <- app_assoc. reflexivity.
Qed.

(** C7 at the input where the code leaves it: [getUserMedia] is called while
    an enumeration is pending, the enumeration resolves, and the platform
    rejects the stream request.  The manager asks the platform a second
    time; the caller gets the stream of the second request, or the error of
    the second request, and never the error of the first. *)
Theorem failed_acquisition_is_retried :
  let pending := _updateDevices fresh in
  let asked := {| c_audio := constraint_bool true; c_video := constraint_missing |} in
  let busy := {| error_name := "NotReadableError"; error_message := "device in use" |} in
  let denied := {| error_name := "NotAllowedError"; error_message := "permission denied" |} in
  let stream := [audio_track 1 "mic1"] in
  _pendingEnumerateDevicesPromise (this pending) = Some 0
  /\ (let '(w, outcome) :=
        getUserMedia (browser true) asked (Some []) (rejected busy) (resolved stream) pending in
      outcome = resolved stream
      /\ effects (outside w) =
           [enumerateDevices_called;
            getUserMedia_called asked; enumerateDevices_called;
            getUserMedia_called asked; enumerateDevices_called])
  /\ (let '(w, outcome) :=
        getUserMedia (browser true) asked (Some []) (rejected busy) (rejected denied) pending in
      outcome = rejected denied /\ outcome <> rejected busy).
Proof. vm_compute. repeat split. discriminate. Qed.

(** ** The enumeration pass: what each step leaves alone *)

Lemma forEach_nil {A} (f : A -> World -> World) w : forEach [] f w = w.
Proof. reflexivity. Qed.

Lemma forEach_cons {A} (f : A -> World -> World) x l w :
  forEach (x :: l) f w = forEach l f (f x w).
Proof. reflexivity. Qed.

Lemma forEach_app {A} (f : A -> World -> World) l1 l2 w :
  forEach (l1 ++ l2) f w = forEach l2 f (forEach l1 f w).
Proof. unfold forEach. apply fold_left_app. Qed.

Lemma forEach_preserves {A B} (g : World -> B) (f : A -> World -> World) l w :
  (forall x w, g (f x w) = g w) -> g (forEach l f w) = g w.
Proof.
  intros Hf. revert w. induction l as [|x l IH]; intros w; [reflexivity|].
  rewrite forEach_cons, IH. apply Hf.
Qed.

Lemma _updateDevice_beside d w : beside_devices (_updateDevice d w) = beside_devices w.
Proof.
  unfold _updateDevice.
  destruct (list_find _ _) as [[? [? ?]]|]; reflexivity.
Qed.

Lemma _addDevice_beside d w : beside_devices (_addDevice d w) = beside_devices w.
Proof. reflexivity. Qed.

Lemma beside_audio w1 w2 :
  beside_devices w1 = beside_devices w2 -> audioInputId (attr w1) = audioInputId (attr w2).
Proof. unfold beside_devices. congruence. Qed.

Lemma beside_video w1 w2 :
  beside_devices w1 = beside_devices w2 -> videoInputId (attr w1) = videoInputId (attr w2).
Proof. unfold beside_devices. congruence. Qed.

Lemma beside_preferenceAudio w1 w2 :
  beside_devices w1 = beside_devices w2 ->
  _preferenceAudioInputList (this w1) = _preferenceAudioInputList (this w2).
Proof. unfold beside_devices. congruence. Qed.

Lemma beside_preferenceVideo w1 w2 :
  beside_devices w1 = beside_devices w2 ->
  _preferenceVideoInputList (this w1) = _preferenceVideoInputList (this w2).
Proof. unfold beside_devices. congruence. Qed.

Lemma beside_triggered w1 w2 :
  beside_devices w1 = beside_devices w2 -> triggered (outside w1) = triggered (outside w2).
Proof. unfold beside_devices. congruence. Qed.

(** Removal leaves the preference lists alone. *)
Lemma _removeDevice_preferences d w :
  _preferenceAudioInputList (this (_removeDevice d w)) = _preferenceAudioInputList (this w)
  /\ _preferenceVideoInputList (this (_removeDevice d w)) = _preferenceVideoInputList (this w)
  /\ triggered (outside (_removeDevice d w)) = triggered (outside w).
Proof.
  unfold _removeDevice.
  destruct (list_find _ _) as [[? ?]|]; repeat destruct (decide _); repeat split.
Qed.

(** One removal: a selection is reset exactly when the removed device is of
    its kind and carries the selected identifier. *)
Lemma _removeDevice_audio d w :
  audioInputId (attr (_removeDevice d w)) =
  if decide (kind d = audioinput /\ audioInputId (attr w) = Id (deviceId d))
  then undefined else audioInputId (attr w).
Proof.
  unfold _removeDevice.
  destruct (list_find _ _) as [[? ?]|]; simpl;
    destruct (decide (kind d = audioinput /\ _)); try reflexivity;
    destruct (decide (kind d = videoinput /\ _)); reflexivity.
Qed.

Lemma _removeDevice_video d w :
  videoInputId (attr (_removeDevice d w)) =
  if decide (kind d = videoinput /\ videoInputId (attr w) = Id (deviceId d))
  then undefined else videoInputId (attr w).
Proof.
  unfold _removeDevice.
  destruct (list_find _ _) as [[? ?]|]; simpl;
    destruct (decide (kind d = audioinput /\ _)) as [[Hk _]|];
    destruct (decide (kind d = videoinput /\ _)) as [[Hk' ?]|]; simpl;
    try reflexivity; congruence.
Qed.

Lemma after_removal_nil k sel : after_removal k sel [] = sel.
Proof.
  unfold after_removal. rewrite decide_False; [reflexivity|].
  intros H. inversion H.
Qed.

Lemma after_removal_undefined k removed : after_removal k undefined removed = undefined.
Proof. unfold after_removal. destruct (decide _); reflexivity. Qed.

Lemma after_removal_cons k sel (d : DeviceObject) removed :
  after_removal k sel (d :: removed) =
  after_removal k (if decide (kind (snd d) = k /\ sel = Id (deviceId (snd d)))
                   then undefined else sel) removed.
Proof.
  destruct (decide (kind (snd d) = k /\ sel = Id (deviceId (snd d)))) as [Hd|Hd].
  - rewrite after_removal_undefined. unfold after_removal.
    rewrite decide_True; [reflexivity|]. constructor. exact Hd.
  - unfold after_removal.
    destruct (decide (Exists _ removed)) as [He|He].
    + rewrite decide_True; [reflexivity|]. apply Exists_cons_tl. exact He.
    + rewrite decide_False; [reflexivity|].
      intros H. inversion H; subst; contradiction.
Qed.

Lemma removal_loop_audio (removed : list DeviceObject) w :
  audioInputId (attr (forEach removed (fun d => _removeDevice (snd d)) w)) =
  after_removal audioinput (audioInputId (attr w)) removed.
Proof.
  revert w. induction removed as [|d removed IH]; intros w.
  - rewrite after_removal_nil. reflexivity.
  - rewrite forEach_cons, IH, after_removal_cons, _removeDevice_audio. reflexivity.
Qed.

Lemma removal_loop_video (removed : list DeviceObject) w :
  videoInputId (attr (forEach removed (fun d => _removeDevice (snd d)) w)) =
  after_removal videoinput (videoInputId (attr w)) removed.
Proof.
  revert w. induction removed as [|d removed IH]; intros w.
  - rewrite after_removal_nil. reflexivity.
  - rewrite forEach_cons, IH, after_removal_cons, _removeDevice_video. reflexivity.
Qed.

Lemma removal_loop_preferences (removed : list DeviceObject) w :
  let w' := forEach removed (fun d => _removeDevice (snd d)) w in
  _preferenceAudioInputList (this w') = _preferenceAudioInputList (this w)
  /\ _preferenceVideoInputList (this w') = _preferenceVideoInputList (this w)
  /\ triggered (outside w') = triggered (outside w).
Proof.
  cbv zeta. revert w. induction removed as [|d removed IH]; intros w; [repeat split|].
  rewrite forEach_cons.
  destruct (IH (_removeDevice (snd d) w)) as (-> & -> & ->).
  apply _removeDevice_preferences.
Qed.

(** The preference step: each list has absorbed the devices of its kind, and
    nothing else of the manager has moved. *)
Lemma _populatePreferences_lists devices w :
  let w' := _populatePreferences devices w in
  _preferenceAudioInputList (this w') =
    append_unknown audioinput devices (_preferenceAudioInputList (this w))
  /\ _preferenceVideoInputList (this w') =
       append_unknown videoinput devices (_preferenceVideoInputList (this w))
  /\ attr w' = attr w
  /\ triggered (outside w') = triggered (outside w).
Proof.
  cbv zeta. unfold _populatePreferences, populateMediaDevicesPreferences.
  destruct (decide (append_unknown audioinput _ _ = _)) as [Ha|Ha];
    destruct (decide (append_unknown videoinput _ _ = _)) as [Hv|Hv];
    simpl; rewrite ?Ha, ?Hv; repeat split; congruence.
Qed.

(** The three loops and the preference step together. *)
Lemma apply_enumeration_beside devices w :
  let w' := apply_enumeration devices w in
  let removed := removedDevices (MediaDevices.devices (attr w)) devices in
  audioInputId (attr w') = after_removal audioinput (audioInputId (attr w)) removed
  /\ videoInputId (attr w') = after_removal videoinput (videoInputId (attr w)) removed
  /\ _preferenceAudioInputList (this w') =
       append_unknown audioinput devices (_preferenceAudioInputList (this w))
  /\ _preferenceVideoInputList (this w') =
       append_unknown videoinput devices (_preferenceVideoInputList (this w))
  /\ triggered (outside w') = triggered (outside w).
Proof.
  cbv zeta. unfold apply_enumeration.
  set (old := MediaDevices.devices (attr w)).
  set (w1 := forEach (removedDevices old devices) (fun d => _removeDevice (snd d)) w).
  set (w2 := forEach (updatedDevices old devices) _updateDevice w1).
  set (w3 := forEach (addedDevices old devices) _addDevice w2).
  assert (H32 : beside_devices w3 = beside_devices w2)
    by apply (forEach_preserves beside_devices), _addDevice_beside.
  assert (H21 : beside_devices w2 = beside_devices w1)
    by apply (forEach_preserves beside_devices), _updateDevice_beside.
  assert (H31 : beside_devices w3 = beside_devices w1) by congruence.
  destruct (_populatePreferences_lists devices w3) as (-> & -> & -> & ->).
  destruct (removal_loop_preferences (removedDevices old devices) w) as (Ha & Hv & Ht).
  fold w1 in Ha, Hv, Ht.
  rewrite (beside_audio _ _ H31), (beside_video _ _ H31),
    (beside_preferenceAudio _ _ H31), (beside_preferenceVideo _ _ H31),
    (beside_triggered _ _ H31), Ha, Hv, Ht.
  unfold w1. rewrite removal_loop_audio, removal_loop_video. repeat split.
Qed.

Lemma settled_attr p w : attr (settled p w) = attr w.
Proof. reflexivity. Qed.

Lemma notify_changes_attr a v w : attr (notify_changes a v w) = attr w.
Proof. unfold notify_changes. repeat destruct (decide _); reflexivity. Qed.

Lemma recompute_video_audio prev devices w :
  audioInputId (attr (recompute_video prev devices w)) = audioInputId (attr w).
Proof. unfold recompute_video. destruct (decide _); reflexivity. Qed.

Lemma recompute_audio_video prev devices w :
  videoInputId (attr (recompute_audio prev devices w)) = videoInputId (attr w)
  /\ _preferenceVideoInputList (this (recompute_audio prev devices w)) =
       _preferenceVideoInputList (this w).
Proof. unfold recompute_audio. destruct (decide _); split; reflexivity. Qed.

(** The two selections when the [then] callback of [_updateDevices] is done,
    from the state it started in and the devices it was given. *)
Lemma _updateDevices_then_selections p devices w :
  let old := MediaDevices.devices (attr w) in
  let removed := removedDevices old devices in
  let kept_audio := after_removal audioinput (audioInputId (attr w)) removed in
  let kept_video := after_removal videoinput (videoInputId (attr w)) removed in
  audioInputId (attr (_updateDevices_then p devices w)) =
    (if decide (kept_audio = undefined
                \/ kept_audio = to_selection (getFirstAvailableMediaDevice
                                                (records old) (_preferenceAudioInputList (this w))))
     then automatic_default audioinput devices
            (append_unknown audioinput devices (_preferenceAudioInputList (this w)))
     else kept_audio)
  /\ videoInputId (attr (_updateDevices_then p devices w)) =
    (if decide (kept_video = undefined
                \/ kept_video = to_selection (getFirstAvailableMediaDevice
                                                (records old) (_preferenceVideoInputList (this w))))
     then automatic_default videoinput devices
            (append_unknown videoinput devices (_preferenceVideoInputList (this w)))
     else kept_video).
Proof.
  cbv zeta. unfold _updateDevices_then.
  rewrite !settled_attr, !notify_changes_attr.
  destruct (apply_enumeration_beside devices w) as (Ha & Hv & Hpa & Hpv & _).
  cbv zeta in Ha, Hv, Hpa, Hpv.
  set (w4 := apply_enumeration devices w) in *.
  split.
  - rewrite recompute_video_audio. unfold recompute_audio, selection_is.
    rewrite Ha, Hpa. destruct (decide _); [reflexivity | exact Ha].
  - destruct (recompute_audio_video
                (getFirstAvailableMediaDevice (records (MediaDevices.devices (attr w)))
                   (_preferenceAudioInputList (this w))) devices w4) as [Hv' Hpv'].
    unfold recompute_video, selection_is.
    rewrite Hv', Hpv', Hv, Hpv. destruct (decide _); [reflexivity|].
    rewrite Hv'. exact Hv.
Qed.

Lemma automatic_default_unfold k devices inputList :
  automatic_default k devices inputList =
  match getFirstAvailableMediaDevice devices inputList with
  | Some id => if decide (id = "") then to_selection (first_of_kind k devices) else Id id
  | None => to_selection (first_of_kind k devices)
  end.
Proof.
  unfold automatic_default, or_else.
  destruct (getFirstAvailableMediaDevice devices inputList) as [id|]; [|reflexivity].
  unfold truthy_string. destruct (String.eqb_spec id "") as [He|Hne]; simpl.
  - rewrite decide_True by exact He. reflexivity.
  - rewrite decide_False by exact Hne. reflexivity.
Qed.

(** C1, as the code has it.  For each input kind, the selection at the
    recomputation step is the one the pass started with, or [undefined] if
    its device has been removed.  It is recomputed if and only if it is
    [undefined] or equals the first identifier of the preference list present
    in the previous device list; the new value is the first identifier of
    the preference list (after it has absorbed the fresh devices) that is
    present in the fresh enumeration when that identifier is not empty, else
    the identifier of the first fresh device of the kind, else [undefined].
    [null] is never overwritten, and neither is a pin that differs from the
    previous automatic default and whose device has not been removed. *)
Theorem sticky_default (p : nat) (fresh_devices : list Device) (w : World) :
  let old := devices (attr w) in
  let removed := removedDevices old fresh_devices in
  let after := _updateDevices_then p fresh_devices w in
  let rule k before inputList now :=
    let kept := after_removal k before removed in
    let previous := getFirstAvailableMediaDevice (records old) inputList in
    let list := append_unknown k fresh_devices inputList in
    (now = if decide (kept = undefined \/ kept = to_selection previous)
           then match getFirstAvailableMediaDevice fresh_devices list with
                | Some id => if decide (id = "")
                             then to_selection (first_of_kind k fresh_devices)
                             else Id id
                | None => to_selection (first_of_kind k fresh_devices)
                end
           else kept)
    /\ (before = null -> now = null)
    /\ (forall id, before = Id id -> previous <> Some id ->
          ~ Exists (fun d : DeviceObject => kind (snd d) = k /\ deviceId (snd d) = id) removed ->
          now = Id id) in
  rule audioinput (audioInputId (attr w)) (_preferenceAudioInputList (this w))
       (audioInputId (attr after))
  /\ rule videoinput (videoInputId (attr w)) (_preferenceVideoInputList (this w))
          (videoInputId (attr after)).
Proof.
  cbv zeta.
  destruct (_updateDevices_then_selections p fresh_devices w) as [Ha Hv].
  cbv zeta in Ha, Hv. rewrite !automatic_default_unfold in Ha, Hv.
  assert (Hnull : forall k, after_removal k null (removedDevices (devices (attr w)) fresh_devices)
                            = null).
  { intros k. unfold after_removal. rewrite decide_False; [reflexivity|].
    rewrite Exists_exists. intros (d & _ & _ & Hd). discriminate. }
  assert (Hpin : forall k id,
             ~ Exists (fun d : DeviceObject => kind (snd d) = k /\ deviceId (snd d) = id)
                 (removedDevices (devices (attr w)) fresh_devices) ->
             after_removal k (Id id) (removedDevices (devices (attr w)) fresh_devices) = Id id).
  { intros k id Hno. unfold after_removal. rewrite decide_False; [reflexivity|].
    intros He. apply Hno. rewrite Exists_exists in *.
    destruct He as (d & Hin & Hk & Hid). exists d. repeat split; congruence. }
  split; (split; [assumption|split]).
  - intros Hb. rewrite Ha, Hb, Hnull. rewrite decide_False; [reflexivity|].
    intros [H|H]; [discriminate|]. revert H.
    match goal with |- context [to_selection ?o] => destruct o end; simpl; discriminate.
  - intros id Hb Hprev Hno. rewrite Ha, Hb, (Hpin _ _ Hno).
    rewrite decide_False; [reflexivity|].
    intros [H|H]; [discriminate|]. revert H.
    match goal with |- context [to_selection ?o] => destruct o end; simpl; congruence.
  - intros Hb. rewrite Hv, Hb, Hnull. rewrite decide_False; [reflexivity|].
    intros [H|H]; [discriminate|]. revert H.
    match goal with |- context [to_selection ?o] => destruct o end; simpl; discriminate.
  - intros id Hb Hprev Hno. rewrite Hv, Hb, (Hpin _ _ Hno).
    rewrite decide_False; [reflexivity|].
    intros [H|H]; [discriminate|]. revert H.
    match goal with |- context [to_selection ?o] => destruct o end; simpl; congruence.
Qed.

(** ** The device list through the loops *)

Lemma first_match_nil r : first_match r [] = None.
Proof. reflexivity. Qed.

Lemma first_match_cons r (o : DeviceObject) l :
  first_match r (o :: l) =
  if decide (same_device (snd o) r) then Some o else first_match r l.
Proof.
  unfold first_match. cbn. destruct (decide _); [reflexivity|].
  destruct (list_find _ l) as [[? ?]|]; reflexivity.
Qed.

Lemma first_match_app r l1 l2 :
  first_match r (l1 ++ l2) =
  match first_match r l1 with
  | Some o => Some o
  | None => first_match r l2
  end.
Proof.
  induction l1 as [|o l1 IH]; [reflexivity|].
  rewrite <- app_comm_cons, !first_match_cons.
  destruct (decide _); [reflexivity | exact IH].
Qed.

Lemma first_match_Some r l o :
  first_match r l = Some o -> o ∈ l /\ same_device (snd o) r.
Proof.
  induction l as [|x l IH]; [discriminate|].
  rewrite first_match_cons. destruct (decide _) as [Hx|Hx].
  - intros [= <-]. split; [left | exact Hx].
  - intros H. destruct (IH H). split; [right|]; assumption.
Qed.

Lemma first_match_None r l :
  first_match r l = None <-> Forall (fun o : DeviceObject => ~ same_device (snd o) r) l.
Proof.
  induction l as [|x l IH].
  - split; [constructor | reflexivity].
  - rewrite first_match_cons. destruct (decide _) as [Hx|Hx].
    + split; [discriminate|]. intros H. inversion H; subst. contradiction.
    + rewrite IH. split; [intros; constructor; assumption|].
      intros H. inversion H; assumption.
Qed.

Lemma first_match_is_Some r l :
  is_Some (first_match r l) <-> Exists (fun o : DeviceObject => same_device r (snd o)) l.
Proof.
  induction l as [|x l IH].
  - split; [intros [? ?]; discriminate | intros H; inversion H].
  - rewrite first_match_cons. destruct (decide _) as [Hx|Hx].
    + split; [|eauto]. intros _. left. destruct Hx. split; congruence.
    + rewrite IH. split; [intros; right; assumption|].
      intros H. inversion H as [? ? Hh|]; subst; [|assumption].
      exfalso. apply Hx. destruct Hh. split; congruence.
Qed.

Lemma rewrite_at_absent a d (l : list DeviceObject) :
  a ∉ fst <$> l -> rewrite_at a d <$> l = l.
Proof.
  induction l as [|o l IH]; [reflexivity|]. csimpl.
  rewrite not_elem_of_cons. intros [Ho Hl].
  rewrite IH by exact Hl. unfold rewrite_at.
  rewrite decide_False by congruence. reflexivity.
Qed.

(** With an address per object, [_updateDevice] rewrites the first object
    that stands for the device and no other. *)
Lemma update_list_refresh_first r l :
  NoDup (fst <$> l) -> update_list r l = refresh_first r l.
Proof.
  unfold update_list. induction l as [|[a old] l IH]; [reflexivity|].
  csimpl. rewrite NoDup_cons. intros [Ha Hl].
  rewrite first_match_cons. simpl. destruct (decide _) as [Ho|Ho].
  - csimpl. rewrite rewrite_at_absent by exact Ha. unfold rewrite_at. simpl.
    rewrite decide_True by reflexivity. reflexivity.
  - specialize (IH Hl).
    destruct (first_match r l) as [[b old']|] eqn:Hm; [|rewrite <- IH; reflexivity].
    csimpl. rewrite IH. unfold rewrite_at at 1. simpl.
    rewrite decide_False; [reflexivity|].
    intros ->. apply Ha. apply first_match_Some in Hm as [Hin _].
    apply (list_elem_of_fmap_2 fst) in Hin. exact Hin.
Qed.

Lemma same_device_refreshed r old x :
  same_device old r -> same_device (refreshed r old) x <-> same_device old x.
Proof. unfold same_device, refreshed. simpl. intros [_ Hk]. rewrite Hk. reflexivity. Qed.

Lemma refreshed_refreshed r old : refreshed r (refreshed r old) = refreshed r old.
Proof. unfold refreshed. simpl. destruct (truthy_string (label r)); reflexivity. Qed.

Lemma refresh_first_addresses r l : fst <$> refresh_first r l = fst <$> l.
Proof.
  induction l as [|o l IH]; [reflexivity|]. simpl.
  destruct (decide _); csimpl; [reflexivity | rewrite IH; reflexivity].
Qed.

Lemma refresh_first_devices r l :
  (fun o : DeviceObject => (deviceId (snd o), kind (snd o))) <$> refresh_first r l =
  (fun o : DeviceObject => (deviceId (snd o), kind (snd o))) <$> l.
Proof.
  induction l as [|o l IH]; [reflexivity|]. simpl.
  destruct (decide _) as [Ho|Ho]; csimpl; [|rewrite IH; reflexivity].
  destruct Ho as [_ Hk]. rewrite Hk. reflexivity.
Qed.

(** Refreshing for one device leaves the first object of another device
    where it is and as it is. *)
Lemma first_match_refresh_first_other r r' l :
  ~ same_device r r' -> first_match r (refresh_first r' l) = first_match r l.
Proof.
  intros Hne. induction l as [|o l IH]; [reflexivity|]. simpl.
  destruct (decide (same_device (snd o) r')) as [Ho|Ho].
  - rewrite !first_match_cons. simpl.
    assert (Hno : ~ same_device (snd o) r).
    { intros Hr. apply Hne. destruct Ho, Hr. split; congruence. }
    rewrite (decide_False (P := same_device (snd o) r)) by exact Hno.
    rewrite decide_False; [reflexivity|].
    rewrite same_device_refreshed by exact Ho. exact Hno.
  - rewrite !first_match_cons. destruct (decide _); [reflexivity | exact IH].
Qed.

Lemma first_match_refresh_first r l :
  first_match r (refresh_first r l) =
  (fun o : DeviceObject => (fst o, refreshed r (snd o))) <$> first_match r l.
Proof.
  induction l as [|o l IH]; [reflexivity|]. simpl.
  rewrite first_match_cons.
  destruct (decide (same_device (snd o) r)) as [Ho|Ho].
  - rewrite first_match_cons. simpl. rewrite decide_True; [reflexivity|].
    rewrite same_device_refreshed by exact Ho. exact Ho.
  - rewrite first_match_cons, decide_False by exact Ho. exact IH.
Qed.

Lemma stable_first_refresh_first r l :
  is_Some (first_match r l) -> stable_first r (refresh_first r l).
Proof.
  intros [o Ho]. unfold stable_first. rewrite first_match_refresh_first, Ho. simpl.
  apply refreshed_refreshed.
Qed.

Lemma stable_first_refresh_first_other r r' l :
  ~ same_device r r' -> stable_first r (refresh_first r' l) <-> stable_first r l.
Proof.
  intros Hne. unfold stable_first.
  rewrite first_match_refresh_first_other by exact Hne. reflexivity.
Qed.


Lemma remove_list_cons d (o : DeviceObject) l :
  remove_list d (o :: l) =
  if decide (same_device (snd o) d) then l else o :: remove_list d l.
Proof.
  unfold remove_list. cbn. destruct (decide _); [reflexivity|].
  destruct (list_find _ l) as [[? ?]|]; reflexivity.
Qed.

Lemma remove_list_app_absent d l1 l2 :
  Forall (fun o : DeviceObject => ~ same_device (snd o) d) l1 ->
  remove_list d (l1 ++ l2) = l1 ++ remove_list d l2.
Proof.
  induction 1 as [|o l1 Ho _ IH]; [reflexivity|].
  rewrite <- !app_comm_cons, remove_list_cons, decide_False by exact Ho.
  rewrite IH. reflexivity.
Qed.

Lemma _removeDevice_devices d w :
  devices (attr (_removeDevice d w)) = remove_list d (devices (attr w))
  /\ next_address (outside (_removeDevice d w)) = next_address (outside w)
  /\ _knownDevices (this (_removeDevice d w)) = _knownDevices (this w).
Proof.
  unfold _removeDevice, remove_list.
  destruct (list_find _ _) as [[? ?]|]; simpl; repeat destruct (decide _); repeat split.
Qed.

Lemma removal_loop_devices (removed : list DeviceObject) w :
  let w' := forEach removed (fun d => _removeDevice (snd d)) w in
  devices (attr w') = fold_left (fun l d => remove_list (snd d) l) removed (devices (attr w))
  /\ next_address (outside w') = next_address (outside w).
Proof.
  cbv zeta. revert w. induction removed as [|d removed IH]; intros w; [split; reflexivity|].
  rewrite forEach_cons. simpl.
  destruct (IH (_removeDevice (snd d) w)) as [-> ->].
  destruct (_removeDevice_devices (snd d) w) as (-> & -> & _). split; reflexivity.
Qed.

Lemma enumerated_same devices (o o' : DeviceObject) :
  same_device (snd o) (snd o') -> enumerated devices o -> enumerated devices o'.
Proof.
  unfold enumerated. intros [Hi Hk]. rewrite !Exists_exists.
  intros (x & Hin & Hx). exists x. split; [exact Hin|].
  destruct Hx. split; congruence.
Qed.

(** The removal loop leaves the objects that the enumeration lists, in
    their order. *)
Lemma removal_loop_filter devices pre l :
  Forall (enumerated devices) pre ->
  fold_left (fun l d => remove_list (snd d) l) (removedDevices l devices) (pre ++ l) =
  pre ++ filter (enumerated devices) l.
Proof.
  unfold removedDevices. revert pre. induction l as [|o l IH]; intros pre Hpre.
  - reflexivity.
  - destruct (decide (enumerated devices o)) as [Ho|Ho].
    + rewrite filter_cons_False by (unfold enumerated in Ho; tauto).
      rewrite filter_cons_True by exact Ho.
      replace (pre ++ o :: l) with ((pre ++ [o]) ++ l) by (rewrite <- app_assoc; reflexivity).
      rewrite IH; [rewrite <- app_assoc; reflexivity|].
      apply Forall_app. split; [exact Hpre | repeat constructor; exact Ho].
    + rewrite filter_cons_True by exact Ho.
      rewrite filter_cons_False by exact Ho. simpl.
      rewrite remove_list_app_absent.
      * rewrite remove_list_cons, decide_True by (split; reflexivity).
        apply IH. exact Hpre.
      * eapply Forall_impl; [exact Hpre|]. intros x Hx Hsame. apply Ho.
        eapply enumerated_same; eassumption.
Qed.

Lemma _updateDevice_devices r w :
  devices (attr (_updateDevice r w)) = update_list r (devices (attr w))
  /\ outside (_updateDevice r w) = outside w.
Proof.
  unfold _updateDevice, update_list, first_match.
  destruct (list_find _ _) as [[? [? ?]]|]; split; reflexivity.
Qed.

Lemma refresh_loop_addresses rs l :
  fst <$> fold_left (fun l r => refresh_first r l) rs l = fst <$> l.
Proof.
  revert l. induction rs as [|r rs IH]; intros l; [reflexivity|].
  simpl. rewrite IH. apply refresh_first_addresses.
Qed.

Lemma update_loop_devices rs w :
  NoDup (fst <$> devices (attr w)) ->
  devices (attr (forEach rs _updateDevice w)) =
    fold_left (fun l r => refresh_first r l) rs (devices (attr w))
  /\ outside (forEach rs _updateDevice w) = outside w.
Proof.
  revert w. induction rs as [|r rs IH]; intros w Hnd; [split; reflexivity|].
  rewrite forEach_cons. simpl.
  destruct (_updateDevice_devices r w) as [Hd Ho].
  rewrite update_list_refresh_first in Hd by exact Hnd.
  destruct (IH (_updateDevice r w)) as [-> ->].
  - rewrite Hd, refresh_first_addresses. exact Hnd.
  - rewrite Hd, Ho. split; reflexivity.
Qed.

Lemma built_from_added_record r known : built_from r (0, added_record r known).
Proof.
  unfold built_from, added_record, refreshed, same_device. simpl.
  destruct (known !! known_key r) as [[? knownDevice]|]; simpl.
  - split; [split; reflexivity|].
    destruct (truthy_string (label r)) eqn:Hl; rewrite ?Hl; reflexivity.
  - split; [split; reflexivity|].
    destruct (truthy_string (label r)); reflexivity.
Qed.

Lemma built_from_address r a b d : built_from r (a, d) -> built_from r (b, d).
Proof. unfold built_from. simpl. tauto. Qed.

(** The add loop appends one object per record, built from it, at the next
    addresses. *)
Lemma add_loop_devices rs w :
  exists objs,
    devices (attr (forEach rs _addDevice w)) = devices (attr w) ++ objs
    /\ Forall2 built_from rs objs
    /\ fst <$> objs = seq (next_address (outside w)) (length rs).
Proof.
  revert w. induction rs as [|r rs IH]; intros w.
  - exists []. rewrite app_nil_r. repeat split. constructor.
  - rewrite forEach_cons. destruct (IH (_addDevice r w)) as (objs & Hd & Hb & Ha).
    exists ((next_address (outside w), added_record r (_knownDevices (this w))) :: objs).
    rewrite Hd, _addDevice_devices, <- app_assoc. split; [reflexivity|]. split.
    + constructor; [|exact Hb].
      eapply built_from_address, built_from_added_record.
    + csimpl. rewrite Ha. reflexivity.
Qed.

(** ** The device list after an enumeration has been processed *)

Lemma NoDup_fmap_filter {A B} (f : A -> B) (P : A -> Prop) `{!forall x, Decision (P x)}
    (l : list A) :
  NoDup (f <$> l) -> NoDup (f <$> filter P l).
Proof.
  induction l as [|x l IH]; [intros; constructor|].
  csimpl. rewrite NoDup_cons. intros [Hx Hl].
  rewrite filter_cons. destruct (decide (P x)); [|apply IH, Hl].
  csimpl. apply NoDup_cons. split; [|apply IH, Hl].
  intros Hin. apply Hx. apply list_elem_of_fmap in Hin as (y & -> & Hy).
  apply list_elem_of_filter in Hy as [_ Hy]. apply list_elem_of_fmap_2. exact Hy.
Qed.



Lemma enumerated_refresh_first devices r l :
  Forall (enumerated devices) l -> Forall (enumerated devices) (refresh_first r l).
Proof.
  induction 1 as [|o l Ho Hl IH]; [constructor|]. simpl.
  destruct (decide _) as [Hs|Hs]; constructor; try assumption.
  unfold enumerated in *. simpl. rewrite Exists_exists in *.
  destruct Ho as (x & Hin & Hx). exists x. split; [exact Hin|].
  apply same_device_refreshed; assumption.
Qed.

Lemma enumerated_refresh_loop devices rs l :
  Forall (enumerated devices) l ->
  Forall (enumerated devices) (fold_left (fun l r => refresh_first r l) rs l).
Proof.
  revert l. induction rs as [|r rs IH]; intros l Hl; [exact Hl|].
  simpl. apply IH, enumerated_refresh_first, Hl.
Qed.

Lemma found_refresh_first r r' l :
  Exists (fun o : DeviceObject => same_device r (snd o)) (refresh_first r' l) <->
  Exists (fun o : DeviceObject => same_device r (snd o)) l.
Proof.
  induction l as [|o l IH]; [reflexivity|]. simpl.
  destruct (decide _) as [Hs|Hs].
  - rewrite !Exists_cons. simpl.
    assert (same_device r (refreshed r' (snd o)) <-> same_device r (snd o)) as ->;
      [|reflexivity].
    unfold same_device, refreshed. simpl. destruct Hs as [_ ->]. reflexivity.
  - rewrite !Exists_cons, IH. reflexivity.
Qed.

Lemma found_refresh_loop r rs l :
  Exists (fun o : DeviceObject => same_device r (snd o))
         (fold_left (fun l r => refresh_first r l) rs l) <->
  Exists (fun o : DeviceObject => same_device r (snd o)) l.
Proof.
  revert l. induction rs as [|r' rs IH]; intros l; [reflexivity|].
  simpl. rewrite IH. apply found_refresh_first.
Qed.

Lemma stable_first_refresh_loop_other r rs l :
  Forall (fun r' => ~ same_device r r') rs ->
  stable_first r l ->
  stable_first r (fold_left (fun l r => refresh_first r l) rs l).
Proof.
  intros Hrs. revert l. induction Hrs as [|r' rs Hr' _ IH]; intros l Hl; [exact Hl|].
  simpl. apply IH. apply stable_first_refresh_first_other; assumption.
Qed.

Lemma distinct_devices_cons r rs :
  distinct_devices (r :: rs) ->
  Forall (fun r' => ~ same_device r r') rs /\ distinct_devices rs.
Proof.
  unfold distinct_devices. csimpl. rewrite NoDup_cons. intros [Hr Hrs].
  split; [|exact Hrs]. apply Forall_forall. intros r' Hin [Hi Hk]. apply Hr.
  apply list_elem_of_fmap. exists r'. split; [congruence | exact Hin].
Qed.

(** After the update loop every record of the loop has a first object that
    shows what it brings. *)
Lemma stable_first_refresh_loop r rs l :
  distinct_devices rs -> r ∈ rs -> is_Some (first_match r l) ->
  stable_first r (fold_left (fun l r => refresh_first r l) rs l).
Proof.
  revert l. induction rs as [|r' rs IH]; intros l Hd Hin Hm.
  - inversion Hin.
  - apply distinct_devices_cons in Hd as [Hother Hd]. simpl.
    apply elem_of_cons in Hin as [-> | Hin].
    + apply stable_first_refresh_loop_other; [exact Hother|].
      apply stable_first_refresh_first, Hm.
    + apply IH; [exact Hd | exact Hin |].
      rewrite first_match_refresh_first_other; [exact Hm|].
      intros [Hi Hk]. rewrite Forall_forall in Hother.
      apply (Hother r Hin). split; congruence.
Qed.

Lemma stable_first_built rs objs r :
  Forall2 built_from rs objs -> distinct_devices rs -> r ∈ rs -> stable_first r objs.
Proof.
  induction 1 as [|r' o rs objs [Hs Hb] _ IH]; intros Hd Hin.
  - inversion Hin.
  - apply distinct_devices_cons in Hd as [Hother Hd].
    unfold stable_first. rewrite first_match_cons.
    apply elem_of_cons in Hin as [-> | Hin].
    + rewrite decide_True by exact Hs. exact Hb.
    + rewrite decide_False; [apply IH; assumption|].
      intros [Hi Hk]. rewrite Forall_forall in Hother.
      apply (Hother r Hin). destruct Hs. split; congruence.
Qed.

Lemma distinct_devices_filter (P : Device -> Prop) `{!forall x, Decision (P x)} l :
  distinct_devices l -> distinct_devices (filter P l).
Proof. unfold distinct_devices. apply NoDup_fmap_filter. Qed.

Lemma stable_first_app_l r l1 l2 : stable_first r l1 -> stable_first r (l1 ++ l2).
Proof.
  unfold stable_first. rewrite first_match_app.
  destruct (first_match r l1); [tauto | contradiction].
Qed.

Lemma stable_first_app_r r l1 l2 :
  first_match r l1 = None -> stable_first r l2 -> stable_first r (l1 ++ l2).
Proof. unfold stable_first. rewrite first_match_app. intros ->. tauto. Qed.

Lemma first_match_not_found r l :
  ~ Exists (fun o : DeviceObject => same_device r (snd o)) l -> first_match r l = None.
Proof.
  intros Hno. destruct (first_match r l) eqn:Hm; [|reflexivity].
  exfalso. apply Hno. apply first_match_is_Some. eauto.
Qed.

(** The devices and the next address after the three loops and the
    preference step. *)
Lemma apply_enumeration_devices devices w :
  well_formed w ->
  let old := MediaDevices.devices (attr w) in
  exists objs,
    MediaDevices.devices (attr (apply_enumeration devices w)) =
      fold_left (fun l r => refresh_first r l) (updatedDevices old devices)
                (filter (enumerated devices) old) ++ objs
    /\ Forall2 built_from (addedDevices old devices) objs
    /\ fst <$> objs = seq (next_address (outside w)) (length (addedDevices old devices)).
Proof.
  intros [Hnd Hlt]. cbv zeta. unfold apply_enumeration.
  set (old := MediaDevices.devices (attr w)) in *.
  set (w1 := forEach (removedDevices old devices) (fun d => _removeDevice (snd d)) w).
  destruct (removal_loop_devices (removedDevices old devices) w) as [Hd1 Ha1].
  fold w1 in Hd1, Ha1. fold old in Hd1.
  pose proof (removal_loop_filter devices [] old (Forall_nil_2 _)) as Hf.
  simpl in Hf. rewrite Hf in Hd1. clear Hf.
  set (w2 := forEach (updatedDevices old devices) _updateDevice w1).
  destruct (update_loop_devices (updatedDevices old devices) w1) as [Hd2 Ho2].
  { rewrite Hd1. apply NoDup_fmap_filter, Hnd. }
  fold w2 in Hd2, Ho2. rewrite Hd1 in Hd2.
  destruct (add_loop_devices (addedDevices old devices) w2) as (objs & Hd3 & Hb & Ha).
  exists objs.
  destruct (_populatePreferences_lists devices
              (forEach (addedDevices old devices) _addDevice w2)) as (_ & _ & -> & _).
  rewrite Hd3, Hd2, Ha, Ho2, Ha1. repeat split. exact Hb.
Qed.

(** The list that an enumeration pass leaves is settled for the enumerated
    devices. *)
Lemma apply_enumeration_settled devices w :
  well_formed w -> distinct_devices devices ->
  settled_list devices (MediaDevices.devices (attr (apply_enumeration devices w))).
Proof.
  intros Hwf Hdist.
  destruct (apply_enumeration_devices devices w Hwf) as (objs & -> & Hb & Ha).
  destruct Hwf as [Hnd Hlt].
  set (old := MediaDevices.devices (attr w)) in *.
  set (kept := filter (enumerated devices) old).
  set (U := fold_left (fun l r => refresh_first r l) (updatedDevices old devices) kept).
  assert (Hkept : forall o, o ∈ kept -> o ∈ old /\ enumerated devices o).
  { intros o Ho. apply list_elem_of_filter in Ho. tauto. }
  split; [|split].
  - rewrite fmap_app. apply NoDup_app. split; [|split].
    + unfold U. rewrite refresh_loop_addresses. apply NoDup_fmap_filter, Hnd.
    + intros a HaU. unfold U in HaU. rewrite refresh_loop_addresses in HaU.
      apply list_elem_of_fmap in HaU as (o & -> & Ho).
      apply Hkept in Ho as [Ho _]. rewrite Forall_forall in Hlt.
      specialize (Hlt o Ho). rewrite Ha, elem_of_seq. lia.
    + rewrite Ha. apply NoDup_seq.
  - apply Forall_app. split.
    + apply enumerated_refresh_loop. apply Forall_forall. intros o Ho.
      apply Hkept in Ho. tauto.
    + apply Forall_forall. intros o Ho.
      apply list_elem_of_lookup in Ho as [i Hi].
      destruct (Forall2_lookup_r _ _ _ _ _ Hb Hi) as (r & Hr & [Hs _]).
      apply list_elem_of_lookup_2 in Hr.
      apply list_elem_of_filter in Hr as [_ Hr].
      unfold enumerated. apply Exists_exists. exists r. split; assumption.
  - apply Forall_forall. intros r Hr.
    destruct (decide (Exists (fun o : DeviceObject => same_device r (snd o)) old))
      as [Hfound|Hfound].
    + apply stable_first_app_l. unfold U. apply stable_first_refresh_loop.
      * apply distinct_devices_filter, Hdist.
      * apply list_elem_of_filter. split; assumption.
      * apply first_match_is_Some. apply Exists_exists in Hfound as (o & Ho & Hs).
        apply Exists_exists. exists o. split; [|exact Hs].
        apply list_elem_of_filter. split; [|exact Ho].
        unfold enumerated. apply Exists_exists. exists r. split; [exact Hr|].
        destruct Hs. split; congruence.
    + apply stable_first_app_r.
      * apply first_match_not_found. unfold U. rewrite found_refresh_loop.
        intros He. apply Hfound. apply Exists_exists in He as (o & Ho & Hs).
        apply Exists_exists. exists o. split; [|exact Hs]. apply Hkept in Ho. tauto.
      * apply (stable_first_built (addedDevices old devices)); [exact Hb | |].
        -- apply distinct_devices_filter, Hdist.
        -- apply list_elem_of_filter. split; assumption.
Qed.

(** ** A second pass over the same enumeration *)










Lemma notify_changes_triggered a v w :
  triggered (outside (notify_changes a v w)) =
  triggered (outside w)
  ++ (if decide (a <> audioInputId (attr w))
      then [("change:audioInputId", VSelection (audioInputId (attr w)))] else [])
  ++ (if decide (v <> videoInputId (attr w))
      then [("change:videoInputId", VSelection (videoInputId (attr w)))] else []).
Proof.
  unfold notify_changes.
  destruct (decide (a <> _)); simpl; destruct (decide (v <> _)); simpl;
    rewrite ?app_nil_r, <- ?app_assoc; reflexivity.
Qed.

(** What the [then] callback leaves, step by step. *)
Lemma _updateDevices_then_state p devices w :
  let after := _updateDevices_then p devices w in
  MediaDevices.devices (attr after) = MediaDevices.devices (attr (apply_enumeration devices w))
  /\ _preferenceAudioInputList (this after) =
       append_unknown audioinput devices (_preferenceAudioInputList (this w))
  /\ _preferenceVideoInputList (this after) =
       append_unknown videoinput devices (_preferenceVideoInputList (this w))
  /\ triggered (outside after) =
       triggered (outside w)
       ++ (if decide (audioInputId (attr w) <> audioInputId (attr after))
           then [("change:audioInputId", VSelection (audioInputId (attr after)))] else [])
       ++ (if decide (videoInputId (attr w) <> videoInputId (attr after))
           then [("change:videoInputId", VSelection (videoInputId (attr after)))] else []).
Proof.
  cbv zeta. unfold _updateDevices_then.
  destruct (apply_enumeration_beside devices w) as (_ & _ & Hpa & Hpv & Ht).
  cbv zeta in Hpa, Hpv, Ht.
  set (w4 := apply_enumeration devices w) in *.
  set (prevA := getFirstAvailableMediaDevice _ (_preferenceAudioInputList (this w))).
  set (prevV := getFirstAvailableMediaDevice _ (_preferenceVideoInputList (this w))).
  set (w5 := recompute_audio prevA devices w4).
  set (w6 := recompute_video prevV devices w5).
  assert (H5 : MediaDevices.devices (attr w5) = MediaDevices.devices (attr w4)
               /\ _preferenceAudioInputList (this w5) = _preferenceAudioInputList (this w4)
               /\ _preferenceVideoInputList (this w5) = _preferenceVideoInputList (this w4)
               /\ triggered (outside w5) = triggered (outside w4)).
  { unfold w5, recompute_audio. destruct (decide _); repeat split. }
  assert (H6 : MediaDevices.devices (attr w6) = MediaDevices.devices (attr w5)
               /\ _preferenceAudioInputList (this w6) = _preferenceAudioInputList (this w5)
               /\ _preferenceVideoInputList (this w6) = _preferenceVideoInputList (this w5)
               /\ triggered (outside w6) = triggered (outside w5)).
  { unfold w6, recompute_video. destruct (decide _); repeat split. }
  destruct H5 as (Hd5 & Ha5 & Hv5 & Ht5), H6 as (Hd6 & Ha6 & Hv6 & Ht6).
  rewrite settled_attr, notify_changes_attr.
  set (w7 := notify_changes (audioInputId (attr w)) (videoInputId (attr w)) w6).
  assert (H7 : _preferenceAudioInputList (this w7) = _preferenceAudioInputList (this w6)
               /\ _preferenceVideoInputList (this w7) = _preferenceVideoInputList (this w6)).
  { unfold w7, notify_changes. repeat destruct (decide _); split; reflexivity. }
  destruct H7 as [Ha7 Hv7].
  split; [congruence|]. split; [simpl; congruence|]. split; [simpl; congruence|].
  change (triggered (outside (settled p w7))) with (triggered (outside w7)).
  unfold w7. rewrite notify_changes_triggered. congruence.
Qed.




Lemma returning_is_constructed :
  MediaDevicesManager no_media_devices remembered = Some returning.
Proof. reflexivity. Qed.


(** ** The sticky default at work *)

Lemma sticky_default_witness :
  let w := set "audioInputId" (VSelection (Id "micB"))
             (_updateDevices_then 0 [microphone "micA" ""; microphone "micB" ""] fresh) in
  audioInputId (attr (_updateDevices_then 1 [microphone "micB" ""; microphone "micA" ""] w))
  = Id "micB".
Proof.
  cbv zeta.
  destruct (sticky_default 1 [microphone "micB" ""; microphone "micA" ""]
              (set "audioInputId" (VSelection (Id "micB"))
                 (_updateDevices_then 0 [microphone "micA" ""; microphone "micB" ""] fresh)))
    as [(_ & _ & Hpin) _].
  apply (Hpin "micB").
  - reflexivity.
  - vm_compute. discriminate.
  - vm_compute. intros H. inversion H.
Defined.

(** C1, as stated, fails where the first identifier of the preference list
    that the fresh enumeration has is the empty one.  In a manager whose
    audio preference list, read from the store, starts with the empty
    identifier, an enumeration lists a named microphone and then one without
    identifier: the selection, [undefined], is recomputed; the first
    identifier of the list present in the enumeration is the empty one, and
    the selection becomes the named microphone.  The same happens within one
    session, when a first enumeration has listed the microphone without
    identifier alone, which made it the selection and the previous automatic
    default. *)
Lemma empty_preference_is_passed_over :
  (let devices := [microphone "mic1" ""; microphone "" ""] in
   let after := _updateDevices_then 0 devices returning in
   audioInputId (attr returning) = undefined
   /\ _preferenceAudioInputList (this after) = [""; "mic1"]
   /\ getFirstAvailableMediaDevice devices (_preferenceAudioInputList (this after)) = Some ""
   /\ audioInputId (attr after) = Id "mic1"
   /\ audioInputId (attr after) <> Id "")
  /\ (let w := _updateDevices_then 0 [microphone "" ""] fresh in
      let devices := [microphone "mic1" ""; microphone "" ""] in
      let after := _updateDevices_then 1 devices w in
      audioInputId (attr w) = Id ""
      /\ getFirstAvailableMediaDevice (records (MediaDevices.devices (attr w)))
           (_preferenceAudioInputList (this w)) = Some ""
      /\ _preferenceAudioInputList (this after) = [""; "mic1"]
      /\ getFirstAvailableMediaDevice devices (_preferenceAudioInputList (this after))
         = Some ""
      /\ audioInputId (attr after) = Id "mic1"
      /\ audioInputId (attr after) <> Id "").
Proof. vm_compute. repeat split; discriminate. Qed.

(** ** Well-formed states *)

Lemma add_loop_next_address rs w :
  next_address (outside (forEach rs _addDevice w)) = next_address (outside w) + length rs.
Proof.
  revert w. induction rs as [|r rs IH]; intros w; [simpl; lia|].
  rewrite forEach_cons, IH. simpl. lia.
Qed.

Lemma _populatePreferences_next_address devices w :
  next_address (outside (_populatePreferences devices w)) = next_address (outside w).
Proof.
  unfold _populatePreferences.
  destruct (populateMediaDevicesPreferences _ _ _) as [[a|] [v|]]; reflexivity.
Qed.

Lemma apply_enumeration_next_address devices w :
  next_address (outside (apply_enumeration devices w)) =
  next_address (outside w)
  + length (addedDevices (MediaDevices.devices (attr w)) devices).
Proof.
  unfold apply_enumeration.
  rewrite _populatePreferences_next_address, add_loop_next_address.
  f_equal.
  rewrite (forEach_preserves (fun w => next_address (outside w)) _updateDevice).
  - apply removal_loop_devices.
  - intros r w'. destruct (_updateDevice_devices r w') as [_ ->]. reflexivity.
Qed.

Lemma fresh_well_formed : well_formed fresh.
Proof. split; [apply NoDup_nil_2 | apply Forall_nil_2]. Qed.

(** An enumeration pass keeps the state well formed. *)
Lemma _updateDevices_then_well_formed p devices w :
  well_formed w -> well_formed (_updateDevices_then p devices w).
Proof.
  intros Hwf. unfold well_formed.
  destruct (_updateDevices_then_state p devices w) as (-> & _).
  assert (Hn : next_address (outside (_updateDevices_then p devices w)) =
               next_address (outside (apply_enumeration devices w))).
  { unfold _updateDevices_then, settled, notify_changes, recompute_video, recompute_audio.
    repeat destruct (decide _); reflexivity. }
  rewrite Hn, apply_enumeration_next_address.
  destruct (apply_enumeration_devices devices w Hwf) as (objs & -> & Hb & Ha).
  destruct Hwf as [Hnd Hlt].
  set (old := MediaDevices.devices (attr w)) in *.
  assert (Hkept : forall a,
            a ∈ fst <$> fold_left (fun l r => refresh_first r l) (updatedDevices old devices)
                          (filter (enumerated devices) old) ->
            a < next_address (outside w)).
  { intros a Hin. rewrite refresh_loop_addresses in Hin.
    apply list_elem_of_fmap in Hin as (o & -> & Ho).
    apply list_elem_of_filter in Ho as [_ Ho].
    rewrite Forall_forall in Hlt. apply Hlt, Ho. }
  split.
  - rewrite fmap_app. apply NoDup_app. split; [|split].
    + rewrite refresh_loop_addresses. apply NoDup_fmap_filter, Hnd.
    + intros a HaU. apply Hkept in HaU. rewrite Ha, elem_of_seq. lia.
    + rewrite Ha. apply NoDup_seq.
  - apply Forall_forall. intros o Ho. apply (list_elem_of_fmap_2 fst) in Ho.
    rewrite fmap_app in Ho. apply elem_of_app in Ho as [Ho|Ho].
    + apply Hkept in Ho. lia.
    + rewrite Ha in Ho. apply elem_of_seq in Ho. lia.
Qed.


(** [_updateDevice] finds its object: a record of the update loop has an
    object in the list when its turn comes. *)
Lemma _updateDevice_finds devices w done r rest :
  well_formed w ->
  updatedDevices (MediaDevices.devices (attr w)) devices = done ++ r :: rest ->
  is_Some (first_match r
             (MediaDevices.devices
                (attr (forEach done _updateDevice
                         (forEach (removedDevices (MediaDevices.devices (attr w)) devices)
                                  (fun d => _removeDevice (snd d)) w))))).
Proof.
  intros [Hnd _] Hsplit.
  set (old := MediaDevices.devices (attr w)) in *.
  destruct (removal_loop_devices (removedDevices old devices) w) as [Hd1 _].
  fold old in Hd1.
  pose proof (removal_loop_filter devices [] old (Forall_nil_2 _)) as Hf.
  simpl in Hf. rewrite Hf in Hd1. clear Hf.
  destruct (update_loop_devices done
              (forEach (removedDevices old devices) (fun d => _removeDevice (snd d)) w))
    as [-> _].
  { rewrite Hd1. apply NoDup_fmap_filter, Hnd. }
  rewrite Hd1. apply first_match_is_Some. rewrite found_refresh_loop.
  assert (Hr : r ∈ updatedDevices old devices)
    by (rewrite Hsplit; apply elem_of_app; right; left).
  apply list_elem_of_filter in Hr as [Hfound Hr].
  apply Exists_exists in Hfound as (o & Ho & Hs).
  apply Exists_exists. exists o. split; [|exact Hs].
  apply list_elem_of_filter. split; [|exact Ho].
  unfold enumerated. apply Exists_exists. exists r. split; [exact Hr|].
  destruct Hs. split; congruence.
Qed.

(** ** Stopping tracks where a stopped track does not announce its end *)

Lemma stop_quiet env t w :
  stop_announces_ended env = false ->
  _tracks (this (stop env t w)) = _tracks (this w)
  /\ effects (outside (stop env t w)) = effects (outside w) ++ [track_stop_called (track_id t)].
Proof.
  intros Hq. unfold stop. rewrite Hq.
  destruct (decide _); split; reflexivity.
Qed.

Lemma conflicts_one_kind ca cv t :
  conflicts audio ca t && conflicts video cv t = false.
Proof.
  unfold conflicts.
  destruct (constraint_deviceId ca), (constraint_deviceId cv); try reflexivity;
    rewrite ?andb_false_r; try reflexivity.
  destruct (track_kind t); simpl; rewrite ?andb_false_r; simpl;
    rewrite ?andb_false_r; reflexivity.
Qed.

Lemma loop_body_quiet env constraints t w :
  stop_announces_ended env = false ->
  let w' := stop_if_incompatible env video (c_video constraints) t
              (stop_if_incompatible env audio (c_audio constraints) t w) in
  _tracks (this w') = _tracks (this w)
  /\ effects (outside w') =
       effects (outside w)
       ++ (if conflicts audio (c_audio constraints) t || conflicts video (c_video constraints) t
           then [track_stop_called (track_id t)] else []).
Proof.
  intros Hq. cbv zeta. unfold stop_if_incompatible.
  pose proof (conflicts_one_kind (c_audio constraints) (c_video constraints) t) as Hone.
  destruct (conflicts audio _ t), (conflicts video _ t); try discriminate; simpl.
  - apply stop_quiet, Hq.
  - apply stop_quiet, Hq.
  - rewrite app_nil_r. split; reflexivity.
Qed.

Lemma tracks_forEach_quiet env constraints n k w :
  stop_announces_ended env = false ->
  let body := fun track w =>
    let w := stop_if_incompatible env audio (c_audio constraints) track w in
    stop_if_incompatible env video (c_video constraints) track w in
  let w' := tracks_forEach_from n k body w in
  _tracks (this w') = _tracks (this w)
  /\ effects (outside w') =
       effects (outside w)
       ++ ((fun t => track_stop_called (track_id t)) <$>
             filter (fun t => conflicts audio (c_audio constraints) t
                              || conflicts video (c_video constraints) t = true)
                    (take n (drop k (_tracks (this w))))).
Proof.
  intros Hq. cbv zeta. revert k w. induction n as [|n IH]; intros k w.
  - simpl. rewrite app_nil_r. split; reflexivity.
  - simpl. destruct (_tracks (this w) !! k) as [t|] eqn:Hk.
    + destruct (loop_body_quiet env constraints t w Hq) as [Ht He].
      cbv zeta in Ht, He.
      destruct (IH (S k) (stop_if_incompatible env video (c_video constraints) t
                            (stop_if_incompatible env audio (c_audio constraints) t w)))
        as [-> ->].
      rewrite Ht, He. split; [reflexivity|].
      rewrite (drop_S _ _ _ Hk). simpl. rewrite filter_cons.
      destruct (conflicts audio _ t || conflicts video _ t) eqn:Hc.
      * rewrite decide_True by reflexivity. rewrite <- app_assoc. reflexivity.
      * rewrite decide_False by discriminate. rewrite app_nil_r. reflexivity.
    + destruct (IH (S k) w) as [-> ->]. split; [reflexivity|].
      apply lookup_ge_None in Hk.
      rewrite !drop_ge by lia. rewrite !take_nil. reflexivity.
Qed.

(** Where a stopped track does not announce its end, every held track of a
    kind asked for with a device identifier and bound to another device is
    stopped before the request, in the order of the array, and the array is
    as it was. *)
Lemma _stopIncompatibleTracks_quiet env constraints w :
  stop_announces_ended env = false ->
  _tracks (this (_stopIncompatibleTracks env constraints w)) = _tracks (this w)
  /\ effects (outside (_stopIncompatibleTracks env constraints w)) =
       effects (outside w)
       ++ ((fun t => track_stop_called (track_id t)) <$>
             filter (fun t => conflicts audio (c_audio constraints) t
                              || conflicts video (c_video constraints) t = true)
                    (_tracks (this w))).
Proof.
  intros Hq. unfold _stopIncompatibleTracks, tracks_forEach.
  destruct (tracks_forEach_quiet env constraints (length (_tracks (this w))) 0 w Hq)
    as [Ht He].
  cbv zeta in Ht, He. rewrite drop_0, take_ge in He by lia. split; assumption.
Qed.

(** * Further properties of the manager *)

(** ** Device events: the count of enablers *)

Lemma enableDeviceEvents_step env w :
  isSupported env = true ->
  _enabledCount (this (enableDeviceEvents env w)) = (_enabledCount (this w) + 1)%Z
  /\ effects (outside (enableDeviceEvents env w)) =
       effects (outside w) ++ [enumerateDevices_called; devicechange_listener_added].
Proof.
  intros Hs. unfold enableDeviceEvents. rewrite Hs. simpl.
  rewrite <- app_assoc. split; reflexivity.
Qed.

Lemma enableDeviceEvents_iter env n w :
  isSupported env = true ->
  let w' := Nat.iter n (enableDeviceEvents env) w in
  _enabledCount (this w') = (_enabledCount (this w) + Z.of_nat n)%Z
  /\ effects (outside w') =
       effects (outside w)
       ++ concat (replicate n [enumerateDevices_called; devicechange_listener_added]).
Proof.
  intros Hs. cbv zeta. induction n as [|n [IHc IHe]].
  - simpl. rewrite app_nil_r. split; [lia | reflexivity].
  - rewrite Nat.iter_succ.
    destruct (enableDeviceEvents_step env (Nat.iter n (enableDeviceEvents env) w) Hs)
      as [-> ->].
    rewrite IHc, IHe. split; [lia|]. rewrite <- app_assoc. f_equal.
    assert (Hcomm : forall (x : list Effect) m,
               concat (replicate m x) ++ x = x ++ concat (replicate m x)).
    { intros x m. induction m as [|m IHm]; simpl.
      - rewrite app_nil_r. reflexivity.
      - rewrite <- app_assoc, IHm. reflexivity. }
    rewrite Hcomm. reflexivity.
Qed.

Lemma disableDeviceEvents_step env w :
  isSupported env = true ->
  _enabledCount (this (disableDeviceEvents env w)) = (_enabledCount (this w) - 1)%Z
  /\ effects (outside (disableDeviceEvents env w)) =
       effects (outside w)
       ++ (if decide (_enabledCount (this w) = 1%Z)
           then [devicechange_listener_removed] else []).
Proof.
  intros Hs. unfold disableDeviceEvents. rewrite Hs. simpl.
  destruct (decide (_ - 1 = 0)%Z) as [H0|H0].
  - rewrite decide_True by lia. split; reflexivity.
  - rewrite decide_False by lia. rewrite app_nil_r. split; reflexivity.
Qed.

Lemma disableDeviceEvents_iter env m w :
  isSupported env = true ->
  let w' := Nat.iter m (disableDeviceEvents env) w in
  _enabledCount (this w') = (_enabledCount (this w) - Z.of_nat m)%Z
  /\ effects (outside w') =
       effects (outside w)
       ++ (if decide (0 < _enabledCount (this w) <= Z.of_nat m)%Z
           then [devicechange_listener_removed] else []).
Proof.
  intros Hs. cbv zeta. induction m as [|m [IHc IHe]].
  - simpl. rewrite decide_False by lia. rewrite app_nil_r. split; [lia | reflexivity].
  - rewrite Nat.iter_succ.
    destruct (disableDeviceEvents_step env (Nat.iter m (disableDeviceEvents env) w) Hs)
      as [-> ->].
    rewrite IHc, IHe. split; [lia|]. rewrite <- app_assoc. f_equal.
    repeat destruct (decide _); try reflexivity; lia.
Qed.

(** Device events are counted.  On a platform with media devices, [m] calls
    of [disableDeviceEvents] lower the count by [m], and the listener of
    device changes is taken off exactly once, by the call that brings the
    count to zero; if the count was not positive, or [m] is smaller than the
    count, it is not taken off.  Without media devices neither method does
    anything. *)
Theorem device_events_are_counted (env : Platform) (m : nat) (w : World) :
  let w' := Nat.iter m (disableDeviceEvents env) w in
  (isSupported env = true ->
     _enabledCount (this w') = (_enabledCount (this w) - Z.of_nat m)%Z
     /\ effects (outside w') =
          effects (outside w)
          ++ (if decide (0 < _enabledCount (this w) <= Z.of_nat m)%Z
              then [devicechange_listener_removed] else []))
  /\ (isSupported env = false -> w' = w /\ enableDeviceEvents env w = w).
Proof.
  cbv zeta. split.
  - apply disableDeviceEvents_iter.
  - intros Hs. split.
    + induction m as [|m IH]; [reflexivity|].
      rewrite Nat.iter_succ, IH. unfold disableDeviceEvents. rewrite Hs. reflexivity.
    + unfold enableDeviceEvents. rewrite Hs. reflexivity.
Qed.

Lemma device_events_are_counted_witness :
  effects (outside (Nat.iter 3 (disableDeviceEvents (browser false))
                      (Nat.iter 2 (enableDeviceEvents (browser false)) fresh))) =
  effects (outside (Nat.iter 2 (enableDeviceEvents (browser false)) fresh))
  ++ [devicechange_listener_removed].
Proof.
  apply (device_events_are_counted (browser false) 3
           (Nat.iter 2 (enableDeviceEvents (browser false)) fresh)).
  reflexivity.
Defined.

(** Enabling [n] times and then disabling, from a count of zero, on a
    platform with media devices: every enabling asks for an enumeration and
    puts the listener on; after [m] of the [n] disablings the count is
    [n - m], and the listener has been taken off if and only if all [n]
    disablings have been made, so it is the last one that takes it off and
    none before it. *)
Theorem device_events_balance (env : Platform) (n m : nat) (w : World) :
  isSupported env = true ->
  _enabledCount (this w) = 0%Z ->
  1 <= n ->
  m <= n ->
  let w' := Nat.iter m (disableDeviceEvents env) (Nat.iter n (enableDeviceEvents env) w) in
  _enabledCount (this w') = (Z.of_nat n - Z.of_nat m)%Z
  /\ effects (outside w') =
       effects (outside w)
       ++ concat (replicate n [enumerateDevices_called; devicechange_listener_added])
       ++ (if decide (m = n) then [devicechange_listener_removed] else []).
Proof.
  intros Hs H0 Hn Hm. cbv zeta.
  destruct (enableDeviceEvents_iter env n w Hs) as [Hc He]. cbv zeta in Hc, He.
  destruct (disableDeviceEvents_iter env m (Nat.iter n (enableDeviceEvents env) w) Hs)
    as [-> ->].
  rewrite Hc, He, H0. split; [lia|].
  rewrite <- app_assoc. f_equal. f_equal.
  destruct (decide (m = n)) as [->|Hne].
  - rewrite decide_True by lia. reflexivity.
  - rewrite decide_False by lia. reflexivity.
Qed.

Lemma device_events_balance_witness :
  let enabled := Nat.iter 2 (enableDeviceEvents (browser false)) fresh in
  (_enabledCount (this (Nat.iter 1 (disableDeviceEvents (browser false)) enabled)) = 1%Z
   /\ effects (outside (Nat.iter 1 (disableDeviceEvents (browser false)) enabled)) =
        [enumerateDevices_called; devicechange_listener_added;
         enumerateDevices_called; devicechange_listener_added])
  /\ (_enabledCount (this (Nat.iter 2 (disableDeviceEvents (browser false)) enabled)) = 0%Z
      /\ effects (outside (Nat.iter 2 (disableDeviceEvents (browser false)) enabled)) =
           [enumerateDevices_called; devicechange_listener_added;
            enumerateDevices_called; devicechange_listener_added;
            devicechange_listener_removed]).
Proof.
  cbv zeta. split.
  - apply (device_events_balance (browser false) 2 1 fresh); [reflexivity | reflexivity | lia | lia].
  - apply (device_events_balance (browser false) 2 2 fresh); [reflexivity | reflexivity | lia | lia].
Defined.

(** ** The store through an enumeration pass *)

Lemma _removeDevice_outside d w : outside (_removeDevice d w) = outside w.
Proof.
  unfold _removeDevice.
  destruct (list_find _ _) as [[? ?]|]; repeat destruct (decide _); reflexivity.
Qed.

Lemma preferences_persisted_ext w1 w2 :
  BrowserStorage (outside w1) = BrowserStorage (outside w2) ->
  _preferenceAudioInputList (this w1) = _preferenceAudioInputList (this w2) ->
  _preferenceVideoInputList (this w1) = _preferenceVideoInputList (this w2) ->
  preferences_persisted w1 -> preferences_persisted w2.
Proof.
  unfold preferences_persisted, stored_preferences. intros -> -> ->. tauto.
Qed.

(** The three loops leave the store and the preference lists alone. *)
Lemma loops_keep_store devices w :
  let old := MediaDevices.devices (attr w) in
  let w3 := forEach (addedDevices old devices) _addDevice
              (forEach (updatedDevices old devices) _updateDevice
                 (forEach (removedDevices old devices) (fun d => _removeDevice (snd d)) w)) in
  BrowserStorage (outside w3) = BrowserStorage (outside w)
  /\ _preferenceAudioInputList (this w3) = _preferenceAudioInputList (this w)
  /\ _preferenceVideoInputList (this w3) = _preferenceVideoInputList (this w).
Proof.
  cbv zeta.
  set (old := MediaDevices.devices (attr w)).
  set (w1 := forEach (removedDevices old devices) (fun d => _removeDevice (snd d)) w).
  set (w2 := forEach (updatedDevices old devices) _updateDevice w1).
  set (w3 := forEach (addedDevices old devices) _addDevice w2).
  assert (H32 : beside_devices w3 = beside_devices w2)
    by apply (forEach_preserves beside_devices), _addDevice_beside.
  assert (H21 : beside_devices w2 = beside_devices w1)
    by apply (forEach_preserves beside_devices), _updateDevice_beside.
  assert (H10 : outside w1 = outside w).
  { apply (forEach_preserves outside). intros d w'. apply _removeDevice_outside. }
  destruct (removal_loop_preferences (removedDevices old devices) w) as (Ha & Hv & _).
  fold w1 in Ha, Hv.
  assert (H31 : beside_devices w3 = beside_devices w1) by congruence.
  unfold beside_devices in H31. injection H31 as _ _ Hpa Hpv Hst _.
  rewrite Hst, Hpa, Hpv, H10, Ha, Hv. repeat split.
Qed.

Lemma _populatePreferences_store devices w :
  let w' := _populatePreferences devices w in
  (preferences_persisted w -> preferences_persisted w')
  /\ forall key, key <> "audioInputPreferences" -> key <> "videoInputPreferences" ->
       BrowserStorage (outside w') !! key = BrowserStorage (outside w) !! key.
Proof.
  cbv zeta.
  unfold _populatePreferences, populateMediaDevicesPreferences, preferences_persisted,
    stored_preferences.
  destruct (decide (append_unknown audioinput _ _ = _)) as [Ha|Ha];
    destruct (decide (append_unknown videoinput _ _ = _)) as [Hv|Hv]; simpl;
    (split; [intros [H1 H2] | intros key Hka Hkv]);
    rewrite ?lookup_insert_eq, ?lookup_insert_ne, ?lookup_insert_eq by congruence;
    try tauto; try reflexivity; split; (reflexivity || assumption).
Qed.

Lemma _updateDevices_then_store p devices w :
  BrowserStorage (outside (_updateDevices_then p devices w)) =
  BrowserStorage (outside (apply_enumeration devices w)).
Proof.
  unfold _updateDevices_then, settled, notify_changes, recompute_video, recompute_audio.
  repeat destruct (decide _); reflexivity.
Qed.

(** The preference lists stay persisted through a pass, and a manager
    constructed over the store that the pass leaves reads back the lists the
    manager has after the pass. *)
Theorem preferences_survive_reload (env : Platform) (p : nat) (fresh_devices : list Device)
    (w : World) :
  preferences_persisted w ->
  let after := _updateDevices_then p fresh_devices w in
  preferences_persisted after
  /\ exists again,
       MediaDevicesManager env (outside after) = Some again
       /\ _preferenceAudioInputList (this again) = _preferenceAudioInputList (this after)
       /\ _preferenceVideoInputList (this again) = _preferenceVideoInputList (this after).
Proof.
  intros Hp. cbv zeta.
  assert (Hafter : preferences_persisted (_updateDevices_then p fresh_devices w)).
  { destruct (loops_keep_store fresh_devices w) as (Hst & Hpa & Hpv). cbv zeta in Hst, Hpa, Hpv.
    destruct (_updateDevices_then_state p fresh_devices w) as (_ & Ha & Hv & _).
    destruct (apply_enumeration_beside fresh_devices w) as (_ & _ & Ha4 & Hv4 & _).
    cbv zeta in Ha, Hv, Ha4, Hv4.
    apply (preferences_persisted_ext (apply_enumeration fresh_devices w)).
    - symmetry. apply _updateDevices_then_store.
    - congruence.
    - congruence.
    - unfold apply_enumeration. apply _populatePreferences_store.
      eapply preferences_persisted_ext; [| | |exact Hp]; congruence. }
  split; [exact Hafter|].
  destruct Hafter as [Ha Hv]. unfold MediaDevicesManager. rewrite Ha, Hv.
  eexists. split; [reflexivity|]. destruct (isSupported env); split; reflexivity.
Qed.

Lemma preferences_survive_reload_witness :
  exists again,
    MediaDevicesManager (browser false)
      (outside (_updateDevices_then 0 [microphone "mic1" ""; camera "cam1" ""] fresh))
      = Some again
    /\ _preferenceAudioInputList (this again) = ["mic1"]
    /\ _preferenceVideoInputList (this again) = ["cam1"].
Proof.
  apply (preferences_survive_reload (browser false) 0
           [microphone "mic1" ""; camera "cam1" ""] fresh).
  split; reflexivity.
Defined.

(** A pass writes nothing to the store but the two preference lists: the
    selection it computes is not persisted, and a persisted selection is not
    touched. *)
Theorem pass_store_frame (p : nat) (fresh_devices : list Device) (w : World) (key : string) :
  key <> "audioInputPreferences" ->
  key <> "videoInputPreferences" ->
  BrowserStorage (outside (_updateDevices_then p fresh_devices w)) !! key =
  BrowserStorage (outside w) !! key.
Proof.
  intros Ha Hv. rewrite _updateDevices_then_store. unfold apply_enumeration.
  destruct (_populatePreferences_store fresh_devices
              (forEach (addedDevices (devices (attr w)) fresh_devices) _addDevice
                 (forEach (updatedDevices (devices (attr w)) fresh_devices) _updateDevice
                    (forEach (removedDevices (devices (attr w)) fresh_devices)
                       (fun d => _removeDevice (snd d)) w)))) as [_ Hframe].
  rewrite (Hframe key Ha Hv).
  destruct (loops_keep_store fresh_devices w) as (-> & _). reflexivity.
Qed.

Lemma pass_store_frame_witness :
  BrowserStorage (outside (_updateDevices_then 0 [microphone "mic1" ""]
                             (set "audioInputId" (VSelection null) fresh))) !! "audioInputId"
  = Some (SText LOCAL_STORAGE_NULL_DEVICE_ID).
Proof.
  rewrite (pass_store_frame 0 [microphone "mic1" ""]
             (set "audioInputId" (VSelection null) fresh) "audioInputId");
    [reflexivity | discriminate | discriminate].
Defined.

(** The notifications of a pass: [change:audioInputId] is sent exactly when
    the audio selection at the end of the pass differs from the one at its
    start, with the value at the end, then [change:videoInputId] likewise;
    nothing else is sent. *)
Theorem pass_notifications (p : nat) (fresh_devices : list Device) (w : World) :
  let after := _updateDevices_then p fresh_devices w in
  triggered (outside after) =
    triggered (outside w)
    ++ (if decide (audioInputId (attr w) = audioInputId (attr after)) then []
        else [("change:audioInputId", VSelection (audioInputId (attr after)))])
    ++ (if decide (videoInputId (attr w) = videoInputId (attr after)) then []
        else [("change:videoInputId", VSelection (videoInputId (attr after)))]).
Proof.
  cbv zeta. destruct (_updateDevices_then_state p fresh_devices w) as (_ & _ & _ & ->).
  repeat destruct (decide _); try reflexivity; contradiction.
Qed.

(** ** The device list and the enumeration *)

Lemma refreshed_fixed r d :
  refreshed r d = d ->
  groupId d = groupId r /\ (label r <> "" -> label d = label r).
Proof.
  intros H. split.
  - apply (f_equal groupId) in H. simpl in H. congruence.
  - intros Hl. apply (f_equal label) in H. simpl in H.
    apply truthy_string_true in Hl. rewrite Hl in H. congruence.
Qed.

(** After a pass over an enumeration that lists no device twice, the device
    list holds exactly the enumerated devices: every object stands for an
    enumerated device, every enumerated device has an object, with the group
    of its fresh record and with its label when that is not empty, and no
    two objects share an address. *)
Theorem device_list_mirrors_enumeration (p : nat) (fresh_devices : list Device) (w : World) :
  well_formed w ->
  distinct_devices fresh_devices ->
  let l := devices (attr (_updateDevices_then p fresh_devices w)) in
  (forall o, o ∈ l -> exists r, r ∈ fresh_devices /\ same_device (snd o) r)
  /\ (forall r, r ∈ fresh_devices ->
        exists o, o ∈ l /\ same_device (snd o) r
                  /\ groupId (snd o) = groupId r
                  /\ (label r <> "" -> label (snd o) = label r))
  /\ NoDup (fst <$> l).
Proof.
  intros Hwf Hdist. cbv zeta.
  destruct (_updateDevices_then_state p fresh_devices w) as (-> & _).
  destruct (apply_enumeration_settled fresh_devices w Hwf Hdist) as (Hnd & Hen & Hst).
  split; [|split; [|exact Hnd]].
  - intros o Ho. rewrite Forall_forall in Hen. specialize (Hen o Ho).
    unfold enumerated in Hen. apply Exists_exists in Hen. exact Hen.
  - intros r Hr. rewrite Forall_forall in Hst. specialize (Hst r Hr).
    unfold stable_first in Hst.
    destruct (first_match r _) as [o|] eqn:Hm; [|contradiction].
    apply first_match_Some in Hm as [Ho Hs].
    destruct (refreshed_fixed _ _ Hst) as [Hg Hl].
    exists o. repeat split; try assumption; apply Hs.
Qed.

Lemma device_list_mirrors_enumeration_witness :
  NoDup (fst <$> devices (attr (_updateDevices_then 0
                                  [microphone "mic1" "Mic"; camera "cam1" ""] fresh))).
Proof.
  apply (device_list_mirrors_enumeration 0 [microphone "mic1" "Mic"; camera "cam1" ""] fresh).
  - exact fresh_well_formed.
  - unfold distinct_devices. apply (bool_decide_unpack _). vm_compute. exact I.
Defined.

Lemma refresh_first_keeps r l a d :
  (a, d) ∈ l ->
  exists d', (a, d') ∈ refresh_first r l
             /\ deviceId d' = deviceId d /\ kind d' = kind d
             /\ fallbackLabel d' = fallbackLabel d.
Proof.
  induction l as [|o l IH]; [intros H; inversion H|].
  intros Hin. simpl. destruct (decide (same_device (snd o) r)) as [Hs|Hs].
  - apply elem_of_cons in Hin as [Heq | Hin].
    + subst o. exists (refreshed r d). split; [left|].
      simpl. destruct Hs as [_ Hk]. simpl in Hk. repeat split. congruence.
    + exists d. split; [right; exact Hin | repeat split].
  - apply elem_of_cons in Hin as [Heq | Hin].
    + subst o. exists d. split; [left | repeat split].
    + destruct (IH Hin) as (d' & Hd' & Hrest). exists d'. split; [right; exact Hd' | exact Hrest].
Qed.

Lemma refresh_loop_keeps rs l a d :
  (a, d) ∈ l ->
  exists d', (a, d') ∈ fold_left (fun l r => refresh_first r l) rs l
             /\ deviceId d' = deviceId d /\ kind d' = kind d
             /\ fallbackLabel d' = fallbackLabel d.
Proof.
  revert l d. induction rs as [|r rs IH]; intros l d Hin.
  - exists d. split; [exact Hin | repeat split].
  - simpl. destruct (refresh_first_keeps r l a d Hin) as (d1 & H1 & Hi1 & Hk1 & Hf1).
    destruct (IH _ _ H1) as (d2 & H2 & Hi2 & Hk2 & Hf2).
    exists d2. split; [exact H2|]. repeat split; congruence.
Qed.

(** The object of a device that is still enumerated stays in the list, at
    its address, for the same device and with the fallback label it had; the
    object of a device that is no longer enumerated leaves the list. *)
Theorem kept_objects_keep_fallback_label (p : nat) (fresh_devices : list Device)
    (w : World) (a : nat) (d : Device) :
  well_formed w ->
  (a, d) ∈ devices (attr w) ->
  let l := devices (attr (_updateDevices_then p fresh_devices w)) in
  (Exists (same_device d) fresh_devices ->
     exists d', (a, d') ∈ l /\ deviceId d' = deviceId d /\ kind d' = kind d
                /\ fallbackLabel d' = fallbackLabel d)
  /\ (~ Exists (same_device d) fresh_devices -> a ∉ fst <$> l).
Proof.
  intros Hwf Hin. cbv zeta.
  destruct (_updateDevices_then_state p fresh_devices w) as (-> & _).
  destruct (apply_enumeration_devices fresh_devices w Hwf) as (objs & -> & _ & Ha).
  destruct Hwf as [Hnd Hlt]. split.
  - intros He.
    destruct (refresh_loop_keeps (updatedDevices (devices (attr w)) fresh_devices)
                (filter (enumerated fresh_devices) (devices (attr w))) a d)
      as (d' & Hd' & Hrest).
    { apply list_elem_of_filter. split; [exact He | exact Hin]. }
    exists d'. split; [apply elem_of_app; left; exact Hd' | exact Hrest].
  - intros Hno Hmem. rewrite fmap_app in Hmem. apply elem_of_app in Hmem as [Hmem|Hmem].
    + rewrite refresh_loop_addresses in Hmem.
      apply list_elem_of_fmap in Hmem as ([a' d'] & Ha' & Hd'). simpl in Ha'. subst a'.
      apply list_elem_of_filter in Hd' as [Hen Hd'].
      assert (d' = d); [|subst d'; exact (Hno Hen)].
      apply list_elem_of_lookup in Hin as [i Hi]. apply list_elem_of_lookup in Hd' as [j Hj].
      assert (i = j).
      { eapply NoDup_lookup; [exact Hnd | |];
          rewrite list_lookup_fmap; [rewrite Hi | rewrite Hj]; reflexivity. }
      subst j. congruence.
    + rewrite Ha in Hmem. apply elem_of_seq in Hmem.
      rewrite Forall_forall in Hlt. specialize (Hlt _ Hin). simpl in Hlt. lia.
Qed.

Lemma kept_objects_keep_fallback_label_witness :
  let w := _updateDevices_then 0 [microphone "mic1" ""] fresh in
  exists d', (0, d') ∈ devices (attr (_updateDevices_then 1 [microphone "mic1" "Mic"] w))
             /\ deviceId d' = "mic1" /\ kind d' = audioinput
             /\ fallbackLabel d' = Some "Microphone 1".
Proof.
  cbv zeta.
  apply (kept_objects_keep_fallback_label 1 [microphone "mic1" "Mic"]
           (_updateDevices_then 0 [microphone "mic1" ""] fresh) 0
           {| deviceId := "mic1"; groupId := "group-a"; kind := audioinput; label := "";
              fallbackLabel := Some "Microphone 1" |}).
  - apply _updateDevices_then_well_formed, fresh_well_formed.
  - vm_compute. left.
  - vm_compute. left. split; reflexivity.
Defined.

(** ** The cache of known devices *)

Lemma remove_list_sublist d l : remove_list d l `sublist_of` l.
Proof.
  unfold remove_list. destruct (list_find _ l) as [[i ?]|]; [apply sublist_delete | reflexivity].
Qed.

Lemma cache_extends_refl w : cache_extends w w.
Proof. intros key a d H. exists a, d. repeat split. exact H. Qed.

Lemma cache_extends_trans w1 w2 w3 :
  cache_extends w1 w2 -> cache_extends w2 w3 -> cache_extends w1 w3.
Proof.
  intros H12 H23 key a d H.
  destruct (H12 _ _ _ H) as (a2 & d2 & H2 & Hf2 & Hi2 & Hk2).
  destruct (H23 _ _ _ H2) as (a3 & d3 & H3 & Hf3 & Hi3 & Hk3).
  exists a3, d3. repeat split; congruence.
Qed.

Lemma cache_extends_same w w' :
  _knownDevices (this w') = _knownDevices (this w) -> cache_extends w w'.
Proof. intros Heq key a d H. exists a, d. rewrite Heq. repeat split. exact H. Qed.

Lemma known_key_inj d1 d2 :
  known_key d1 = known_key d2 -> deviceId d1 = deviceId d2 /\ kind d1 = kind d2.
Proof.
  unfold known_key.
  destruct (kind d1), (kind d2); simpl; intros H;
    try discriminate; injection H as H; split; (reflexivity || assumption).
Qed.

Lemma _removeDevice_cache d w :
  well_formed w -> coherent w ->
  well_formed (_removeDevice d w) /\ coherent (_removeDevice d w)
  /\ cache_extends w (_removeDevice d w).
Proof.
  intros [Hnd Hlt] Hco.
  destruct (_removeDevice_devices d w) as (Hd & Hn & Hk).
  pose proof (remove_list_sublist d (devices (attr w))) as Hsub.
  split; [|split].
  - unfold well_formed. rewrite Hd, Hn. split.
    + eapply sublist_NoDup; [exact Hnd|]. apply fmap_sublist, Hsub.
    + rewrite Forall_forall in *. intros o Ho. apply Hlt.
      eapply sublist_subseteq; eassumption.
  - intros key a x Hx. rewrite Hk in Hx. destruct (Hco _ _ _ Hx) as (Hkey & Ha & Hsame).
    rewrite Hn, Hd. split; [exact Hkey|]. split; [exact Ha|]. intros d' Hd'. apply Hsame.
    eapply sublist_subseteq; eassumption.
  - apply cache_extends_same, Hk.
Qed.

Lemma write_state a d w :
  devices (attr (write a d w)) = rewrite_at a d <$> devices (attr w)
  /\ _knownDevices (this (write a d w)) = rewrite_at a d <$> _knownDevices (this w)
  /\ outside (write a d w) = outside w.
Proof. repeat split. Qed.

Lemma _updateDevice_cache r w :
  well_formed w -> coherent w ->
  well_formed (_updateDevice r w) /\ coherent (_updateDevice r w)
  /\ cache_extends w (_updateDevice r w).
Proof.
  intros [Hnd Hlt] Hco. unfold _updateDevice.
  destruct (list_find _ _) as [[i [a old]]|] eqn:Hfind;
    [|split; [split; assumption | split; [exact Hco | apply cache_extends_refl]]].
  apply list_find_Some in Hfind as (Hi & [_ Hkind] & _). simpl in Hkind.
  apply list_elem_of_lookup_2 in Hi.
  set (new := refreshed r old).
  destruct (write_state a new w) as (Hwd & Hwk & Hwo).
  assert (Hnew : known_key new = known_key old).
  { unfold known_key, new. simpl. rewrite Hkind. reflexivity. }
  assert (Hlist : forall b x, (b, x) ∈ rewrite_at a new <$> devices (attr w) ->
                   (b = a /\ x = new) \/ (b <> a /\ (b, x) ∈ devices (attr w))).
  { intros b x Hbx. apply list_elem_of_fmap in Hbx as (o & Ho & Hin).
    unfold rewrite_at in Ho. destruct (decide (fst o = a)) as [He|He].
    - left. injection Ho as -> ->. split; reflexivity.
    - right. subst o. split; [exact He | exact Hin]. }
  split; [|split].
  - unfold well_formed. rewrite Hwd, Hwo. split.
    + assert (Haddr : fst <$> (rewrite_at a new <$> devices (attr w)) = fst <$> devices (attr w)).
      { rewrite <- list_fmap_compose. apply list_fmap_ext. intros j o _. simpl.
        unfold rewrite_at. destruct (decide _) as [He|]; simpl; congruence. }
      rewrite Haddr. exact Hnd.
    + apply Forall_forall. intros [b x] Hbx. simpl.
      rewrite Forall_forall in Hlt.
      destruct (Hlist b x Hbx) as [[-> _] | [_ Hin]].
      * apply (Hlt _ Hi).
      * apply (Hlt _ Hin).
  - intros key b x Hx. rewrite Hwk in Hx. rewrite Hwd, Hwo. rewrite lookup_fmap in Hx.
    destruct (_knownDevices (this w) !! key) as [[b0 x0]|] eqn:Hk; [|discriminate].
    destruct (Hco _ _ _ Hk) as (Hkey & Hb0 & Hsame).
    simpl in Hx. unfold rewrite_at in Hx. simpl in Hx.
    destruct (decide (b0 = a)) as [He|He]; injection Hx as <- <-.
    + subst b0. specialize (Hsame old Hi). subst x0.
      split; [congruence|]. split; [exact Hb0|]. intros d' Hd'.
      destruct (Hlist a d' Hd') as [[_ ->] | [Hne _]]; [reflexivity | contradiction].
    + split; [exact Hkey|]. split; [exact Hb0|]. intros d' Hd'.
      destruct (Hlist b0 d' Hd') as [[Hb _] | [_ Hin]]; [contradiction | apply Hsame, Hin].
  - intros key b x Hx. rewrite Hwk, lookup_fmap, Hx. simpl.
    unfold rewrite_at. simpl. destruct (decide (b = a)) as [He|He].
    + subst b. destruct (Hco _ _ _ Hx) as (_ & _ & Hsame).
      specialize (Hsame old Hi). subst x.
      exists a, new. repeat split. simpl. congruence.
    + exists b, x. repeat split.
Qed.

Lemma _addDevice_cache r w :
  well_formed w -> coherent w ->
  well_formed (_addDevice r w) /\ coherent (_addDevice r w)
  /\ cache_extends w (_addDevice r w).
Proof.
  intros [Hnd Hlt] Hco.
  set (n := next_address (outside w)).
  set (rec := added_record r (_knownDevices (this w))).
  assert (Hrec : known_key rec = known_key r).
  { unfold rec, added_record, known_key.
    destruct (_knownDevices (this w) !! _) as [[? ?]|]; reflexivity. }
  assert (Hfresh : n ∉ fst <$> devices (attr w)).
  { intros Hin. apply list_elem_of_fmap in Hin as (o & Ho & Hin).
    rewrite Forall_forall in Hlt. specialize (Hlt o Hin). unfold n in Ho. lia. }
  split; [|split].
  - split.
    + rewrite _addDevice_devices, fmap_app. apply NoDup_app. split; [exact Hnd|].
      split; [|apply NoDup_singleton].
      intros a Ha Hin. apply list_elem_of_singleton in Hin. simpl in Hin. subst a.
      exact (Hfresh Ha).
    + change (next_address (outside (_addDevice r w))) with (S n).
      rewrite _addDevice_devices. apply Forall_app. split.
      * eapply Forall_impl; [exact Hlt|]. intros o Ho. simpl in *. fold n in Ho. lia.
      * constructor; [simpl; lia | constructor].
  - intros key a x Hx. rewrite _addDevice_known in Hx. rewrite _addDevice_devices.
    change (next_address (outside (_addDevice r w))) with (S n).
    fold n rec in Hx |- *.
    destruct (decide (known_key r = key)) as [He|He].
    + subst key. rewrite lookup_insert_eq in Hx. injection Hx as <- <-.
      split; [exact Hrec|]. split; [lia|].
      intros d' Hd'. apply elem_of_app in Hd' as [Hd'|Hd'].
      * exfalso. apply Hfresh. apply (list_elem_of_fmap_2 fst) in Hd'. exact Hd'.
      * apply list_elem_of_singleton in Hd'. congruence.
    + rewrite lookup_insert_ne in Hx by exact He.
      destruct (Hco _ _ _ Hx) as (Hkey & Ha & Hsame). fold n in Ha.
      split; [exact Hkey|]. split; [lia|].
      intros d' Hd'. apply elem_of_app in Hd' as [Hd'|Hd']; [apply Hsame, Hd'|].
      apply list_elem_of_singleton in Hd'. injection Hd' as Hd' _. lia.
  - intros key a x Hx. rewrite _addDevice_known. fold n rec.
    destruct (decide (known_key r = key)) as [He|He].
    + subst key. rewrite lookup_insert_eq. exists n, rec. split; [reflexivity|].
      destruct (Hco _ _ _ Hx) as (Hkey & _).
      apply known_key_inj in Hkey as [Hid Hkind].
      unfold rec, added_record. rewrite Hx. simpl. repeat split; congruence.
    + rewrite lookup_insert_ne by exact He. exists a, x. repeat split. exact Hx.
Qed.

Lemma loop_cache {A} (f : A -> World -> World) (l : list A) w :
  (forall x w, well_formed w -> coherent w ->
     well_formed (f x w) /\ coherent (f x w) /\ cache_extends w (f x w)) ->
  well_formed w -> coherent w ->
  well_formed (forEach l f w) /\ coherent (forEach l f w)
  /\ cache_extends w (forEach l f w).
Proof.
  intros Hstep. revert w. induction l as [|x l IH]; intros w Hwf Hco.
  - split; [exact Hwf|]. split; [exact Hco | apply cache_extends_refl].
  - rewrite forEach_cons. destruct (Hstep x w Hwf Hco) as (Hwf1 & Hco1 & He1).
    destruct (IH _ Hwf1 Hco1) as (Hwf2 & Hco2 & He2).
    split; [exact Hwf2|]. split; [exact Hco2|]. eapply cache_extends_trans; eassumption.
Qed.

Lemma same_registry w w' :
  devices (attr w') = devices (attr w) ->
  _knownDevices (this w') = _knownDevices (this w) ->
  next_address (outside w') = next_address (outside w) ->
  well_formed w -> coherent w ->
  well_formed w' /\ coherent w' /\ cache_extends w w'.
Proof.
  intros Hd Hk Hn Hwf Hco. unfold well_formed, coherent. rewrite Hd, Hk, Hn.
  split; [exact Hwf|]. split; [exact Hco | apply cache_extends_same, Hk].
Qed.

Lemma fresh_coherent : coherent fresh.
Proof. intros key a d H. simpl in H. rewrite lookup_empty in H. discriminate. Qed.

Lemma _populatePreferences_known devices w :
  _knownDevices (this (_populatePreferences devices w)) = _knownDevices (this w).
Proof.
  unfold _populatePreferences.
  destruct (populateMediaDevicesPreferences _ _ _) as [[a|] [v|]]; reflexivity.
Qed.

(** The invariants of the registry and the cache through a pass. *)
Lemma pass_cache p devices w :
  well_formed w -> coherent w ->
  coherent (_updateDevices_then p devices w)
  /\ cache_extends w (_updateDevices_then p devices w).
Proof.
  intros Hwf Hco.
  set (old := MediaDevices.devices (attr w)).
  destruct (loop_cache (fun d : DeviceObject => _removeDevice (snd d))
              (removedDevices old devices) w) as (Hwf1 & Hco1 & He1);
    [intros x w'; apply _removeDevice_cache | exact Hwf | exact Hco |].
  destruct (loop_cache _updateDevice (updatedDevices old devices)
              (forEach (removedDevices old devices)
                 (fun d : DeviceObject => _removeDevice (snd d)) w))
    as (Hwf2 & Hco2 & He2);
    [intros x w'; apply _updateDevice_cache | exact Hwf1 | exact Hco1 |].
  destruct (loop_cache _addDevice (addedDevices old devices)
              (forEach (updatedDevices old devices) _updateDevice
                 (forEach (removedDevices old devices)
                    (fun d : DeviceObject => _removeDevice (snd d)) w)))
    as (Hwf3 & Hco3 & He3);
    [intros x w'; apply _addDevice_cache | exact Hwf2 | exact Hco2 |].
  set (w3 := forEach (addedDevices old devices) _addDevice _) in *.
  destruct (same_registry w3 (_updateDevices_then p devices w)) as (_ & Hco4 & He4);
    [| | | exact Hwf3 | exact Hco3 |].
  - destruct (_updateDevices_then_state p devices w) as (-> & _).
    unfold apply_enumeration. fold old. fold w3.
    destruct (_populatePreferences_lists devices w3) as (_ & _ & -> & _). reflexivity.
  - transitivity (_knownDevices (this (apply_enumeration devices w))).
    + unfold _updateDevices_then, settled, notify_changes, recompute_video, recompute_audio.
      repeat destruct (decide _); reflexivity.
    + unfold apply_enumeration. fold old. fold w3. apply _populatePreferences_known.
  - transitivity (next_address (outside (apply_enumeration devices w))).
    + unfold _updateDevices_then, settled, notify_changes, recompute_video, recompute_audio.
      repeat destruct (decide _); reflexivity.
    + unfold apply_enumeration. fold old. fold w3. apply _populatePreferences_next_address.
  - split; [exact Hco4|].
    eapply cache_extends_trans; [exact He1|].
    eapply cache_extends_trans; [exact He2|].
    eapply cache_extends_trans; [exact He3 | exact He4].
Qed.

(** The cache of known devices is never pruned and a fallback label, once
    given, stays: after a pass every key of the cache is still there, for
    the same device and with the same fallback label, whether the device is
    still enumerated or not, and the cache still agrees with the device
    list. *)
Theorem known_devices_keep_fallback_label (p : nat) (fresh_devices : list Device)
    (w : World) :
  well_formed w ->
  coherent w ->
  let after := _updateDevices_then p fresh_devices w in
  coherent after
  /\ forall key a d,
       _knownDevices (this w) !! key = Some (a, d) ->
       exists a' d',
         _knownDevices (this after) !! key = Some (a', d')
         /\ fallbackLabel d' = fallbackLabel d
         /\ deviceId d' = deviceId d
         /\ kind d' = kind d.
Proof. intros Hwf Hco. exact (pass_cache p fresh_devices w Hwf Hco). Qed.

Lemma known_devices_keep_fallback_label_witness :
  let w := _updateDevices_then 0 [microphone "mic1" ""] fresh in
  exists a' d',
    _knownDevices (this (_updateDevices_then 1 [] w)) !! "audioinput-mic1" = Some (a', d')
    /\ fallbackLabel d' = Some "Microphone 1"
    /\ deviceId d' = "mic1"
    /\ kind d' = audioinput.
Proof.
  cbv zeta.
  destruct (known_devices_keep_fallback_label 1 []
              (_updateDevices_then 0 [microphone "mic1" ""] fresh)) as [_ Hkeep].
  - apply _updateDevices_then_well_formed, fresh_well_formed.
  - apply pass_cache; [exact fresh_well_formed | exact fresh_coherent].
  - apply (Hkeep "audioinput-mic1" 0
             {| deviceId := "mic1"; groupId := "group-a"; kind := audioinput; label := "";
                fallbackLabel := Some "Microphone 1" |}).
    vm_compute. reflexivity.
Defined.

(** An enumeration pass keeps the device objects apart: no two objects of
    the list share an address, and every address is below the next one to be
    given out. *)
Theorem pass_keeps_objects_apart (p : nat) (fresh_devices : list Device) (w : World) :
  well_formed w -> well_formed (_updateDevices_then p fresh_devices w).
Proof. apply _updateDevices_then_well_formed. Qed.

Lemma pass_keeps_objects_apart_witness :
  well_formed (_updateDevices_then 0 [microphone "mic1" ""; microphone "mic1" ""] fresh).
Proof. apply pass_keeps_objects_apart. exact fresh_well_formed. Defined.

(** ** The track registry *)

Lemma remove_track_cons t x l :
  remove_track t (x :: l) =
    if decide (track_id x = track_id t) then l else x :: remove_track t l.
Proof.
  unfold remove_track. simpl. destruct (decide (track_id x = track_id t)) as [He|Hne].
  - reflexivity.
  - destruct (list_find _ l) as [[i y]|]; reflexivity.
Qed.

Lemma remove_track_sublist t l : sublist (remove_track t l) l.
Proof.
  unfold remove_track. destruct (list_find _ l) as [[i y]|]; [apply sublist_delete | reflexivity].
Qed.

Lemma remove_tracks_sublist t n l : sublist (Nat.iter n (remove_track t) l) l.
Proof.
  induction n as [|n IH]; simpl; [reflexivity|].
  etransitivity; [apply remove_track_sublist | exact IH].
Qed.

Lemma remove_tracks_other t x n l :
  track_id x <> track_id t ->
  Nat.iter n (remove_track t) (x :: l) = x :: Nat.iter n (remove_track t) l.
Proof.
  intros Hne. induction n as [|n IH]; simpl; [reflexivity|].
  rewrite IH, remove_track_cons. rewrite decide_False by exact Hne. reflexivity.
Qed.

Lemma remove_tracks_all t l n :
  occurrences t l <= n ->
  Nat.iter n (remove_track t) l = filter (fun x => track_id x <> track_id t) l.
Proof.
  revert n. induction l as [|x l IH]; intros n Hn.
  - induction n as [|n IHn]; simpl; [reflexivity|]. rewrite IHn by (unfold occurrences; simpl; lia). reflexivity.
  - unfold occurrences in Hn. rewrite filter_cons in Hn. rewrite filter_cons.
    destruct (decide (track_id x = track_id t)) as [He|Hne].
    + simpl in Hn. destruct n as [|n]; [lia|].
      rewrite Nat.iter_succ_r, remove_track_cons, decide_True by exact He.
      rewrite decide_False by (intros H; apply H, He).
      apply IH. unfold occurrences. lia.
    + rewrite remove_tracks_other by exact Hne.
      rewrite decide_True by exact Hne. f_equal. apply IH. exact Hn.
Qed.

Lemma on_ended_state t w :
  _tracks (this (on_ended t w)) = Nat.iter (registrations t w) (remove_track t) (_tracks (this w))
  /\ outside (on_ended t w) = outside w
  /\ attr (on_ended t w) = attr w.
Proof.
  unfold on_ended. generalize (registrations t w) as n.
  induction n as [|n (IH1 & IH2 & IH3)]; simpl; [repeat split|].
  rewrite IH1, IH2. repeat split. exact IH3.
Qed.

Lemma _registerTrack_state t w :
  _tracks (this (_registerTrack t w)) = _tracks (this w) ++ [t]
  /\ listeners (outside (_registerTrack t w)) = listeners (outside w) ++ [track_id t]
  /\ attr (_registerTrack t w) = attr w
  /\ effects (outside (_registerTrack t w)) = effects (outside w)
  /\ ended (outside (_registerTrack t w)) = ended (outside w).
Proof. repeat split. Qed.

Lemma _registerTracks_state l w :
  _tracks (this (forEach l _registerTrack w)) = _tracks (this w) ++ l
  /\ listeners (outside (forEach l _registerTrack w)) = listeners (outside w) ++ (track_id <$> l)
  /\ attr (forEach l _registerTrack w) = attr w
  /\ effects (outside (forEach l _registerTrack w)) = effects (outside w)
  /\ ended (outside (forEach l _registerTrack w)) = ended (outside w).
Proof.
  revert w. induction l as [|t l IH]; intros w.
  - rewrite forEach_nil, !app_nil_r. repeat split.
  - rewrite forEach_cons. destruct (IH (_registerTrack t w)) as (-> & -> & -> & -> & ->).
    destruct (_registerTrack_state t w) as (-> & -> & -> & -> & ->).
    rewrite <- !app_assoc. repeat split.
Qed.

Lemma occurrences_app t l1 l2 :
  occurrences t (l1 ++ l2) = occurrences t l1 + occurrences t l2.
Proof. unfold occurrences. rewrite filter_app, length_app. reflexivity. Qed.

Lemma registrations_app t l w w' :
  listeners (outside w') = listeners (outside w) ++ l ->
  registrations t w' = registrations t w + length (filter (fun x => x = track_id t) l).
Proof. intros H. unfold registrations. rewrite H, filter_app, length_app. reflexivity. Qed.

Lemma occurrences_listeners t (l : list Track) :
  occurrences t l = length (filter (fun x => x = track_id t) (track_id <$> l)).
Proof.
  unfold occurrences. induction l as [|x l IH]; [reflexivity|].
  rewrite fmap_cons, !filter_cons.
  destruct (decide (track_id x = track_id t)); simpl; rewrite IH; reflexivity.
Qed.

Lemma occurrences_sublist t l1 l2 :
  sublist l1 l2 -> occurrences t l1 <= occurrences t l2.
Proof.
  intros H. unfold occurrences. induction H as [|x l1 l2 H IH|x l1 l2 H IH].
  - reflexivity.
  - rewrite !filter_cons. destruct (decide _); simpl; lia.
  - rewrite filter_cons. destruct (decide _); simpl; lia.
Qed.

Lemma _registerStream_registered stream w :
  registered w -> registered (_registerStream stream w).
Proof.
  intros Hr t. unfold _registerStream.
  destruct (_registerTracks_state stream w) as (Ht & Hl & _).
  rewrite Ht, occurrences_app, (registrations_app t _ _ _ Hl), <- occurrences_listeners.
  specialize (Hr t). lia.
Qed.

Lemma on_ended_registered t w :
  registered w -> registered (on_ended t w).
Proof.
  intros Hr u. destruct (on_ended_state t w) as (Ht & Ho & _).
  unfold registrations. rewrite Ho, Ht.
  etransitivity; [apply occurrences_sublist, remove_tracks_sublist | apply Hr].
Qed.

Lemma stop_registered env t w : registered w -> registered (stop env t w).
Proof.
  intros Hr. unfold stop. destruct (decide _); [exact Hr|].
  destruct (stop_announces_ended env); [apply on_ended_registered|]; exact Hr.
Qed.

Lemma on_cloned_state t clone w :
  _tracks (this (on_cloned t clone w)) = _tracks (this w) ++ replicate (registrations t w) clone
  /\ listeners (outside (on_cloned t clone w)) =
       listeners (outside w) ++ replicate (registrations t w) (track_id clone).
Proof.
  unfold on_cloned. generalize (registrations t w) as n.
  induction n as [|n [IH1 IH2]]; simpl; [rewrite !app_nil_r; split; reflexivity|].
  rewrite IH1, IH2, <- !app_assoc.
  assert (Hc : forall A (x : A) k, replicate k x ++ [x] = x :: replicate k x).
  { intros A x k. induction k as [|k IHk]; simpl; [reflexivity | rewrite IHk; reflexivity]. }
  rewrite !Hc. split; reflexivity.
Qed.

Lemma on_cloned_registered t clone w : registered w -> registered (on_cloned t clone w).
Proof.
  intros Hr u. destruct (on_cloned_state t clone w) as [Ht Hl].
  rewrite Ht, occurrences_app, (registrations_app u _ _ _ Hl).
  specialize (Hr u). apply Nat.add_le_mono; [exact Hr|].
  rewrite occurrences_listeners, fmap_replicate. reflexivity.
Qed.

(** A manager that has just been built holds no track, and every way a
    track enters or leaves the array keeps the array covered by listeners:
    a track has at least as many listeners of the manager as it has places
    in [_tracks]. *)
Theorem tracks_are_covered_by_listeners (env : Platform) (w : World) :
  registered w ->
  (forall stream, registered (_registerStream stream w))
  /\ (forall t, registered (on_ended t w))
  /\ (forall t clone, registered (on_cloned t clone w))
  /\ (forall t, registered (stop env t w)).
Proof.
  intros Hr. split; [intros; apply _registerStream_registered, Hr|].
  split; [intros; apply on_ended_registered, Hr|].
  split; [intros; apply on_cloned_registered, Hr | intros; apply stop_registered, Hr].
Qed.

Lemma fresh_registered : registered fresh.
Proof. intros t. unfold occurrences. simpl. lia. Qed.

Lemma tracks_are_covered_by_listeners_witness :
  registered (on_cloned (video_track 1 "cam1") (video_track 2 "cam1")
                (_registerStream [video_track 1 "cam1"] fresh)).
Proof.
  apply (tracks_are_covered_by_listeners (browser true)
           (_registerStream [video_track 1 "cam1"] fresh)).
  apply (tracks_are_covered_by_listeners (browser true) fresh), fresh_registered.
Defined.

Lemma on_ended_world t w :
  on_ended t w =
    on_this (fun m => with_tracks (Nat.iter (registrations t w) (remove_track t) (_tracks m)) m) w.
Proof.
  unfold on_ended. generalize (registrations t w) as n.
  induction n as [|n IH]; simpl.
  - destruct w as [[] ?]. reflexivity.
  - rewrite IH. reflexivity.
Qed.

(** When a track ends, every place it has in [_tracks] is given up, however
    often it was registered, and the other tracks stay, in their order; the
    state afterwards is the state before with that one change to [_tracks]:
    the attributes, the count of enablers, the cache of known devices, the
    pending enumeration, the preference lists and everything outside the
    manager are as they were. *)
Theorem ended_track_is_forgotten (t : Track) (w : World) :
  registered w ->
  on_ended t w =
    {| this :=
         {| attributes := attributes (this w);
            _enabledCount := _enabledCount (this w);
            _knownDevices := _knownDevices (this w);
            _tracks := filter (fun x => track_id x <> track_id t) (_tracks (this w));
            _pendingEnumerateDevicesPromise := _pendingEnumerateDevicesPromise (this w);
            _preferenceAudioInputList := _preferenceAudioInputList (this w);
            _preferenceVideoInputList := _preferenceVideoInputList (this w) |};
       outside := outside w |}.
Proof.
  intros Hr. rewrite on_ended_world. unfold on_this, with_tracks.
  rewrite (remove_tracks_all t (_tracks (this w)) (registrations t w) (Hr t)).
  reflexivity.
Qed.

Lemma ended_track_is_forgotten_witness :
  let w := _registerStream [video_track 1 "cam1"; audio_track 2 "mic1"; video_track 1 "cam1"]
             fresh in
  _tracks (this (on_ended (video_track 1 "cam1") w)) = [audio_track 2 "mic1"]
  /\ outside (on_ended (video_track 1 "cam1") w) = outside w.
Proof.
  cbv zeta.
  rewrite (ended_track_is_forgotten (video_track 1 "cam1")
             (_registerStream [video_track 1 "cam1"; audio_track 2 "mic1"; video_track 1 "cam1"]
                fresh)).
  - split; [vm_compute; reflexivity | reflexivity].
  - apply _registerStream_registered, fresh_registered.
Defined.

Lemma _registerStream_state (stream : MediaStream) (w : World) :
  _tracks (this (_registerStream stream w)) = _tracks (this w) ++ stream
  /\ (forall t, registrations t (_registerStream stream w)
                = registrations t w + occurrences t stream)
  /\ attr (_registerStream stream w) = attr w
  /\ effects (outside (_registerStream stream w)) = effects (outside w).
Proof.
  unfold _registerStream.
  destruct (_registerTracks_state stream w) as (Ht & Hl & Ha & He & _).
  split; [exact Ht|]. split; [|split; assumption].
  intros t. rewrite (registrations_app t _ _ _ Hl), <- occurrences_listeners. reflexivity.
Qed.

(** A stream is registered track by track: its tracks are appended to
    [_tracks] in their order, each gets one more pair of listeners, and
    neither the attributes nor the platform calls change. *)
Theorem _registerStream_appends (stream : MediaStream) (w : World) :
  _tracks (this (_registerStream stream w)) = _tracks (this w) ++ stream
  /\ (forall t, registrations t (_registerStream stream w)
                = registrations t w + occurrences t stream)
  /\ attr (_registerStream stream w) = attr w
  /\ effects (outside (_registerStream stream w)) = effects (outside w).
Proof. apply _registerStream_state. Qed.

(** A clone is registered once for each registration of the track it was
    cloned from. *)
Theorem clone_is_registered (t clone : Track) (w : World) :
  _tracks (this (on_cloned t clone w))
    = _tracks (this w) ++ replicate (registrations t w) clone.
Proof. apply on_cloned_state. Qed.

(** ** Stopping tracks, on any platform *)

Lemma stop_state env t w :
  sublist (_tracks (this (stop env t w))) (_tracks (this w))
  /\ attr (stop env t w) = attr w
  /\ effects (outside (stop env t w)) = effects (outside w) ++ [track_stop_called (track_id t)].
Proof.
  unfold stop. destruct (decide _); [repeat split; reflexivity|].
  destruct (stop_announces_ended env); [|repeat split; reflexivity].
  match goal with |- context [on_ended t ?w0] =>
    destruct (on_ended_state t w0) as (Ht & Ho & Ha) end.
  rewrite Ht, Ho, Ha. split; [apply remove_tracks_sublist | split; reflexivity].
Qed.

Lemma stop_if_incompatible_state env k c t w :
  sublist (_tracks (this (stop_if_incompatible env k c t w))) (_tracks (this w))
  /\ attr (stop_if_incompatible env k c t w) = attr w
  /\ effects (outside (stop_if_incompatible env k c t w)) =
       effects (outside w) ++ (if conflicts k c t then [track_stop_called (track_id t)] else []).
Proof.
  unfold stop_if_incompatible. destruct (conflicts k c t); [apply stop_state|].
  rewrite app_nil_r. repeat split; reflexivity.
Qed.

Lemma loop_body_state env constraints t w :
  let w' := stop_if_incompatible env video (c_video constraints) t
              (stop_if_incompatible env audio (c_audio constraints) t w) in
  sublist (_tracks (this w')) (_tracks (this w))
  /\ attr w' = attr w
  /\ effects (outside w') =
       effects (outside w) ++ stops (if conflicting constraints t then [t] else []).
Proof.
  cbv zeta.
  destruct (stop_if_incompatible_state env audio (c_audio constraints) t w) as (S1 & A1 & E1).
  destruct (stop_if_incompatible_state env video (c_video constraints) t
              (stop_if_incompatible env audio (c_audio constraints) t w)) as (S2 & A2 & E2).
  split; [etransitivity; eassumption|]. split; [congruence|].
  rewrite E2, E1, <- app_assoc. f_equal. unfold conflicting.
  pose proof (conflicts_one_kind (c_audio constraints) (c_video constraints) t) as Hone.
  destruct (conflicts audio _ t), (conflicts video _ t); try discriminate; reflexivity.
Qed.

Lemma tracks_forEach_state env constraints n k w :
  let body := fun track w =>
    let w := stop_if_incompatible env audio (c_audio constraints) track w in
    stop_if_incompatible env video (c_video constraints) track w in
  let w' := tracks_forEach_from n k body w in
  sublist (_tracks (this w')) (_tracks (this w))
  /\ attr w' = attr w
  /\ exists stopped,
       effects (outside w') = effects (outside w) ++ stops stopped
       /\ Forall (fun t => t ∈ _tracks (this w) /\ conflicting constraints t = true) stopped.
Proof.
  cbv zeta. revert k w. induction n as [|n IH]; intros k w.
  - simpl. split; [reflexivity|]. split; [reflexivity|].
    exists []. rewrite app_nil_r. split; [reflexivity | constructor].
  - simpl. destruct (_tracks (this w) !! k) as [t|] eqn:Hk; [|apply IH].
    destruct (loop_body_state env constraints t w) as (S1 & A1 & E1). cbv zeta in S1, A1, E1.
    destruct (IH (S k) (stop_if_incompatible env video (c_video constraints) t
                          (stop_if_incompatible env audio (c_audio constraints) t w)))
      as (S2 & A2 & stopped & E2 & F2).
    split; [etransitivity; eassumption|]. split; [congruence|].
    exists ((if conflicting constraints t then [t] else []) ++ stopped).
    split.
    + rewrite E2, E1. unfold stops. rewrite fmap_app, app_assoc. reflexivity.
    + apply Forall_app. split.
      * destruct (conflicting constraints t) eqn:Hc; constructor; [|constructor].
        split; [eapply list_elem_of_lookup_2, Hk | exact Hc].
      * eapply Forall_impl; [exact F2|]. intros x [Hin Hc]. split; [|exact Hc].
        eapply elem_of_sublist; eassumption.
Qed.

Lemma _stopIncompatibleTracks_state env constraints w :
  let w' := _stopIncompatibleTracks env constraints w in
  sublist (_tracks (this w')) (_tracks (this w))
  /\ attr w' = attr w
  /\ exists stopped,
       effects (outside w') = effects (outside w) ++ stops stopped
       /\ Forall (fun t => t ∈ _tracks (this w) /\ conflicting constraints t = true) stopped.
Proof. apply tracks_forEach_state. Qed.

(** Whatever the platform does when a track is stopped,
    [_stopIncompatibleTracks] only ever takes tracks out of [_tracks], never
    reorders them or puts one in; it leaves the attributes alone; and the
    only calls it makes are [stop] on tracks that were held at the start and
    whose kind is asked for with another device. *)
Theorem only_conflicting_tracks_are_stopped (env : Platform) (constraints : Constraints)
    (w : World) :
  let w' := _stopIncompatibleTracks env constraints w in
  sublist (_tracks (this w')) (_tracks (this w))
  /\ attr w' = attr w
  /\ exists stopped,
       effects (outside w') = effects (outside w) ++ stops stopped
       /\ Forall (fun t => t ∈ _tracks (this w) /\ conflicting constraints t = true) stopped.
Proof. apply _stopIncompatibleTracks_state. Qed.

(** Where a stopped track does not announce its end, every held track of a
    kind asked for with a device identifier and bound to another device is
    stopped before the request, in the order of the array, and the array is
    as it was. *)
Theorem all_conflicting_tracks_are_stopped (env : Platform) (constraints : Constraints)
    (w : World) :
  stop_announces_ended env = false ->
  let w' := _stopIncompatibleTracks env constraints w in
  _tracks (this w') = _tracks (this w)
  /\ effects (outside w') =
       effects (outside w)
       ++ stops (filter (fun t => conflicting constraints t = true) (_tracks (this w))).
Proof. intros Hq. exact (_stopIncompatibleTracks_quiet env constraints w Hq). Qed.

Lemma all_conflicting_tracks_are_stopped_witness :
  let held := _registerStream [video_track 1 "cam1"; audio_track 2 "mic1"; video_track 3 "cam2"]
                fresh in
  let asked := {| c_audio := constraint_bool true; c_video := exactly "cam2" |} in
  effects (outside (_stopIncompatibleTracks (browser false) asked held)) = [track_stop_called 1].
Proof.
  cbv zeta.
  destruct (all_conflicting_tracks_are_stopped (browser false)
              {| c_audio := constraint_bool true; c_video := exactly "cam2" |}
              (_registerStream [video_track 1 "cam1"; audio_track 2 "mic1"; video_track 3 "cam2"]
                 fresh)) as [_ He].
  - reflexivity.
  - rewrite He. vm_compute. reflexivity.
Defined.

(** Where a stopped track announces its end, a held track that has not
    ended leaves [_tracks] when it is stopped, and the other tracks stay. *)
Theorem stopped_track_is_released (env : Platform) (t : Track) (w : World) :
  stop_announces_ended env = true ->
  registered w ->
  track_id t ∉ ended (outside w) ->
  _tracks (this (stop env t w))
    = filter (fun x => track_id x <> track_id t) (_tracks (this w))
  /\ track_id t ∈ ended (outside (stop env t w)).
Proof.
  intros Ha Hr Hne. unfold stop. simpl. rewrite decide_False by exact Hne. rewrite Ha.
  match goal with |- context [on_ended t ?w0] =>
    destruct (on_ended_state t w0) as (Ht & Ho & _);
    assert (Hr0 : registered w0) by exact Hr;
    pose proof (remove_tracks_all t (_tracks (this w0)) (registrations t w0) (Hr0 t)) as Hall
  end.
  rewrite Ht, Ho, Hall. split; [reflexivity|].
  simpl. apply elem_of_app. right. left.
Qed.

Lemma stopped_track_is_released_witness :
  let held := _registerStream [video_track 1 "cam1"; audio_track 2 "mic1"] fresh in
  _tracks (this (stop (browser true) (video_track 1 "cam1") held)) = [audio_track 2 "mic1"].
Proof.
  cbv zeta.
  destruct (stopped_track_is_released (browser true) (video_track 1 "cam1")
              (_registerStream [video_track 1 "cam1"; audio_track 2 "mic1"] fresh)) as [Ht _].
  - reflexivity.
  - apply _registerStream_registered, fresh_registered.
  - vm_compute. intros H. apply elem_of_nil in H. exact H.
  - rewrite Ht. vm_compute. reflexivity.
Defined.

(** ** Acquisition: the constraints, the retry and the enumeration that follows *)

Lemma resolve_constraint_idempotent sel c :
  resolve_constraint sel (resolve_constraint sel c) = resolve_constraint sel c.
Proof.
  unfold resolve_constraint.
  destruct (truthy_constraint c && negb (truthy_deviceId (constraint_deviceId c))) eqn:Hc;
    [|rewrite Hc; reflexivity].
  destruct sel as [| |id]; [rewrite Hc; reflexivity | reflexivity |].
  destruct (truthy_string id) eqn:Hid; [reflexivity|]. rewrite Hc. reflexivity.
Qed.

Lemma final_constraints_idempotent (constraints : Constraints) (w w' : World) :
  audioInputId (attr w') = audioInputId (attr w) ->
  videoInputId (attr w') = videoInputId (attr w) ->
  final_constraints (final_constraints constraints w) w' = final_constraints constraints w.
Proof.
  intros Ha Hv. unfold final_constraints. rewrite Ha, Hv. simpl.
  rewrite !resolve_constraint_idempotent. reflexivity.
Qed.

(** The constraints that [_getUserMediaInternal] has completed are complete:
    handed to it again in any state whose two selections are the same, they
    come out as they went in, whatever else differs between the two states
    (the device list included). *)
Theorem completed_constraints_are_stable (constraints : Constraints) (w w' : World) :
  audioInputId (attr w') = audioInputId (attr w) ->
  videoInputId (attr w') = videoInputId (attr w) ->
  final_constraints (final_constraints constraints w) w' = final_constraints constraints w.
Proof. apply final_constraints_idempotent. Qed.

Lemma completed_constraints_are_stable_witness :
  let w := on_attributes (with_videoInputId null)
             (on_attributes (with_audioInputId (Id "mic1")) fresh) in
  let w' := _updateDevices_then 0 [microphone "mic1" "Mic"; camera "cam1" ""] w in
  let asked := {| c_audio := constraint_bool true; c_video := constraint_bool true |} in
  devices (attr w') <> devices (attr w)
  /\ final_constraints (final_constraints asked w) w'
     = {| c_audio := exactly "mic1"; c_video := constraint_bool false |}.
Proof.
  cbv zeta. split; [vm_compute; discriminate|].
  rewrite completed_constraints_are_stable; reflexivity.
Defined.

Lemma reconcile_outside stream w :
  effects (outside (_updateSelectedDevicesFromGetUserMediaResult stream w)) = effects (outside w)
  /\ _tracks (this (_updateSelectedDevicesFromGetUserMediaResult stream w)) = _tracks (this w)
  /\ listeners (outside (_updateSelectedDevicesFromGetUserMediaResult stream w))
     = listeners (outside w).
Proof.
  unfold _updateSelectedDevicesFromGetUserMediaResult.
  assert (Hset : forall key d w0,
            effects (outside (set key (VSelection (Id d)) w0)) = effects (outside w0)
            /\ _tracks (this (set key (VSelection (Id d)) w0)) = _tracks (this w0)
            /\ listeners (outside (set key (VSelection (Id d)) w0)) = listeners (outside w0)).
  { intros key d w0. unfold set, _storeDeviceId.
    destruct (negb (String.eqb key "audioInputId") && negb (String.eqb key "videoInputId"));
      [repeat split|].
    destruct (truthy (VSelection (Id d))); repeat split. }
  set (w1 := if truthy_selection (audioInputId (attr w)) then _ else w).
  assert (H1 : effects (outside w1) = effects (outside w)
                /\ _tracks (this w1) = _tracks (this w)
                /\ listeners (outside w1) = listeners (outside w)).
  { subst w1. destruct (truthy_selection (audioInputId (attr w))); [|repeat split].
    destruct (first_settings audio stream) as [[[d|]]|]; [|repeat split..].
    destruct (truthy_string d && _); [apply Hset | repeat split]. }
  destruct H1 as (<- & <- & <-).
  destruct (truthy_selection (videoInputId (attr w1))); [|repeat split].
  destruct (first_settings video stream) as [[[d|]]|]; [|repeat split..].
  destruct (truthy_string d && _); [apply Hset | repeat split].
Qed.

Lemma _getUserMediaInternal_shape env answer constraints w :
  let asked := final_constraints constraints w in
  exists stopped w',
    _getUserMediaInternal env answer constraints w = (asked, _updateDevices w', answer)
    /\ effects (outside w') =
         effects (outside w) ++ stops stopped ++ [getUserMedia_called asked]
    /\ Forall (fun t => t ∈ _tracks (this w) /\ conflicting asked t = true) stopped
    /\ (forall e, answer = rejected e -> attr w' = attr w).
Proof.
  cbv zeta.
  destruct (_stopIncompatibleTracks_state env (final_constraints constraints w) w)
    as (_ & Ha & stopped & He & Hf). cbv zeta in Ha, He, Hf.
  exists stopped. unfold _getUserMediaInternal, _getUserMediaInternal_request.
  destruct answer as [stream|e].
  - eexists. split; [reflexivity|]. split; [|split; [exact Hf | intros e; discriminate]].
    destruct (reconcile_outside stream
                (_registerStream stream
                   (call (getUserMedia_called (final_constraints constraints w))
                      (_stopIncompatibleTracks env (final_constraints constraints w) w))))
      as (-> & _).
    destruct (_registerStream_state stream
                (call (getUserMedia_called (final_constraints constraints w))
                   (_stopIncompatibleTracks env (final_constraints constraints w) w)))
      as (_ & _ & _ & ->).
    simpl. rewrite He, <- app_assoc. reflexivity.
  - eexists. split; [reflexivity|]. split; [|split; [exact Hf | intros _ _; exact Ha]].
    simpl. rewrite He, <- app_assoc. reflexivity.
Qed.

(** [getUserMedia] called while an enumeration is pending, when the platform
    rejects the stream request: whatever the error, the same constraints are
    sent to the platform a second time, each request is followed by an
    enumeration, and what the caller gets is the outcome of the second
    request. *)
Theorem rejected_request_is_repeated (env : Platform) (constraints : Constraints)
    (enumerated : option (list Device)) (e : DOMException)
    (second : Settlement MediaStream) (p : nat) (w : World) :
  isSupported env = true ->
  _pendingEnumerateDevicesPromise (this w) = Some p ->
  let w1 := enumeration_settled p enumerated w in
  let asked := final_constraints constraints w1 in
  let result := getUserMedia env constraints enumerated (rejected e) second w in
  snd result = second
  /\ exists stopped1 stopped2,
       effects (outside (fst result)) =
         effects (outside w1)
         ++ stops stopped1 ++ [getUserMedia_called asked; enumerateDevices_called]
         ++ stops stopped2 ++ [getUserMedia_called asked; enumerateDevices_called].
Proof.
  intros Hs Hp. cbv zeta. unfold getUserMedia. rewrite Hs, Hp. cbn [negb].
  fold (enumeration_settled p enumerated w).
  set (w1 := enumeration_settled p enumerated w).
  destruct (_getUserMediaInternal_shape env (rejected e) constraints w1)
    as (stopped1 & w2 & -> & He1 & _ & Ha1). cbv zeta in He1.
  destruct (_getUserMediaInternal_shape env second (final_constraints constraints w1)
              (_updateDevices w2)) as (stopped2 & w3 & -> & He2 & _ & _). cbv zeta in He2.
  rewrite (final_constraints_idempotent constraints w1 (_updateDevices w2)) in He2
    by (change (attr (_updateDevices w2)) with (attr w2); rewrite (Ha1 e eq_refl); reflexivity).
  split; [reflexivity|]. exists stopped1, stopped2.
  simpl. rewrite He2. simpl. rewrite He1. rewrite <- !app_assoc. reflexivity.
Qed.

Lemma rejected_request_is_repeated_witness :
  let asked := {| c_audio := constraint_bool true; c_video := constraint_missing |} in
  let busy := {| error_name := "NotReadableError"; error_message := "device in use" |} in
  snd (getUserMedia (browser true) asked (Some []) (rejected busy)
         (resolved [audio_track 1 "mic1"]) (_updateDevices fresh))
  = resolved [audio_track 1 "mic1"].
Proof.
  cbv zeta.
  apply (rejected_request_is_repeated (browser true)
           {| c_audio := constraint_bool true; c_video := constraint_missing |}
           (Some [])
           {| error_name := "NotReadableError"; error_message := "device in use" |}
           (resolved [audio_track 1 "mic1"]) 0 (_updateDevices fresh));
    reflexivity.
Defined.

Lemma _updateDevices_pending w :
  exists q,
    _pendingEnumerateDevicesPromise (this (_updateDevices w)) = Some q
    /\ q ∈ enumerations (outside (_updateDevices w))
    /\ last (effects (outside (_updateDevices w))) = Some enumerateDevices_called.
Proof.
  exists (next_promise (outside w)). split; [reflexivity|]. split.
  - simpl. apply elem_of_app. right. left.
  - simpl. apply last_snoc.
Qed.

(** On a platform with media devices every call of [getUserMedia], with or
    without an enumeration pending and whether the platform delivers a
    stream or not, ends by asking for a new enumeration, which is the
    pending one when the promise settles. *)
Theorem acquisition_is_followed_by_enumeration (env : Platform) (constraints : Constraints)
    (enumerated : option (list Device)) (first second : Settlement MediaStream) (w : World) :
  isSupported env = true ->
  let w' := fst (getUserMedia env constraints enumerated first second w) in
  exists q,
    _pendingEnumerateDevicesPromise (this w') = Some q
    /\ q ∈ enumerations (outside w')
    /\ last (effects (outside w')) = Some enumerateDevices_called.
Proof.
  intros Hs. cbv zeta. unfold getUserMedia. rewrite Hs. cbn [negb].
  destruct (_pendingEnumerateDevicesPromise (this w)) as [p|].
  - fold (enumeration_settled p enumerated w).
    destruct (_getUserMediaInternal_shape env first constraints
                (enumeration_settled p enumerated w)) as (s1 & w1 & -> & _).
    destruct first as [stream|e]; [apply _updateDevices_pending|].
    match goal with |- context [_getUserMediaInternal env second ?c ?w0] =>
      destruct (_getUserMediaInternal_shape env second c w0) as (s2 & w2 & -> & _) end.
    apply _updateDevices_pending.
  - destruct (_getUserMediaInternal_shape env first constraints w) as (s1 & w1 & -> & _).
    apply _updateDevices_pending.
Qed.

Lemma acquisition_is_followed_by_enumeration_witness :
  let w' := fst (getUserMedia (browser true)
                   {| c_audio := constraint_bool true; c_video := constraint_missing |}
                   None (resolved [audio_track 1 "mic1"]) (resolved []) fresh) in
  exists q,
    _pendingEnumerateDevicesPromise (this w') = Some q
    /\ q ∈ enumerations (outside w')
    /\ last (effects (outside w')) = Some enumerateDevices_called.
Proof.
  apply (acquisition_is_followed_by_enumeration (browser true)
           {| c_audio := constraint_bool true; c_video := constraint_missing |}
           None (resolved [audio_track 1 "mic1"]) (resolved []) fresh).
  reflexivity.
Defined.

Lemma set_attributes key value w :
  attr (set key value w) = assign key value (attr w).
Proof.
  unfold set, _storeDeviceId.
  destruct (negb (key =? "audioInputId")%string && negb (key =? "videoInputId")%string);
    [reflexivity|].
  match goal with |- context [truthy ?v] => destruct (truthy v) end; reflexivity.
Qed.

Lemma set_selection_state (k : TrackKind) (d : string) (w : World) :
  truthy_string d = true ->
  let w' := set (selection_key k) (VSelection (Id d)) w in
  selection k w' = Id d
  /\ (forall k', k' <> k -> selection k' w' = selection k' w)
  /\ devices (attr w') = devices (attr w)
  /\ BrowserStorage (outside w') = <[selection_key k := SText d]> (BrowserStorage (outside w))
  /\ triggered (outside w') =
       triggered (outside w) ++ [("change:" +:+ selection_key k, VSelection (Id d))].
Proof.
  intros Hd. cbv zeta. unfold selection. rewrite !set_attributes.
  split; [destruct k; reflexivity|].
  split; [intros k' Hk'; destruct k, k'; try reflexivity; congruence|].
  split; [destruct k; reflexivity|]. split.
  - rewrite set_selection_storage by (destruct k; [left | right]; reflexivity).
    rewrite Hd. reflexivity.
  - unfold set. rewrite triggered_storeDeviceId. reflexivity.
Qed.

Lemma reconcile_blocks stream w :
  _updateSelectedDevicesFromGetUserMediaResult stream w =
    reconcile video stream (reconcile audio stream w).
Proof.
  unfold _updateSelectedDevicesFromGetUserMediaResult, reconcile, reported. simpl.
  set (w1 := if truthy_selection (audioInputId (attr w)) then _ else w).
  set (w2 := if truthy_selection (audioInputId (attr w)) then _ else w).
  assert (Hw : w1 = w2).
  { subst w1 w2. destruct (truthy_selection (audioInputId (attr w))); [|reflexivity].
    destruct (first_settings audio stream) as [[[d|]]|]; try reflexivity.
    destruct (truthy_string d); simpl; [|reflexivity].
    destruct (bool_decide _); reflexivity. }
  rewrite <- Hw.
  destruct (truthy_selection (videoInputId (attr w1))); [|reflexivity].
  destruct (first_settings video stream) as [[[d|]]|]; try reflexivity.
  destruct (truthy_string d); simpl; [|reflexivity].
  destruct (bool_decide _); reflexivity.
Qed.

Lemma reported_truthy k stream d : reported k stream = Some d -> truthy_string d = true.
Proof.
  unfold reported. destruct (first_settings k stream) as [[[x|]]|]; try discriminate.
  destruct (truthy_string x) eqn:Hx; [|discriminate]. intros [= <-]. exact Hx.
Qed.

Lemma reconcile_state k stream w :
  let w' := reconcile k stream w in
  selection k w' =
    (if truthy_selection (selection k w)
     then match reported k stream with Some d => Id d | None => selection k w end
     else selection k w)
  /\ (forall k', k' <> k -> selection k' w' = selection k' w)
  /\ devices (attr w') = devices (attr w)
  /\ (forall key, key <> selection_key k -> getItem key w' = getItem key w)
  /\ (exists l, triggered (outside w') = triggered (outside w) ++ l)
  /\ (forall d, truthy_selection (selection k w) = true -> reported k stream = Some d ->
        selection k w <> Id d ->
        getItem (selection_key k) w' = Some (SText d)
        /\ ("change:" +:+ selection_key k, VSelection (Id d)) ∈ triggered (outside w')).
Proof.
  cbv zeta. unfold reconcile. fold (selection k w).
  destruct (truthy_selection (selection k w)) eqn:Ht.
  2:{ repeat split; try discriminate. exists []. rewrite app_nil_r. reflexivity. }
  destruct (reported k stream) as [d|] eqn:Hr.
  2:{ repeat split; try discriminate. exists []. rewrite app_nil_r. reflexivity. }
  destruct (bool_decide (selection k w = Id d)) eqn:Hb.
  - apply bool_decide_eq_true in Hb.
    split; [exact Hb|]. split; [reflexivity|]. split; [reflexivity|].
    split; [reflexivity|]. split; [exists []; rewrite app_nil_r; reflexivity|].
    intros d' _ [= <-] Hne. contradiction.
  - destruct (set_selection_state k d w (reported_truthy k stream d Hr))
      as (Hs & Ho & Hd & Hst & Htr). cbv zeta in Hs, Ho, Hd, Hst, Htr.
    split; [exact Hs|]. split; [exact Ho|]. split; [exact Hd|].
    split; [|split].
    + intros key Hkey. unfold getItem. rewrite Hst. apply lookup_insert_ne. congruence.
    + eexists. exact Htr.
    + intros d' _ [= <-] _. split.
      * unfold getItem. rewrite Hst. apply lookup_insert_eq.
      * rewrite Htr. apply elem_of_app. right. left.
Qed.

(** What a delivered stream does to the selections.  A selection that is
    [undefined], [null] or the empty string is never touched, and neither is
    one whose kind has no track reporting a device in the stream.  Any other
    selection becomes the device that the first track of its kind reports;
    when that is a change, the new selection is persisted and notified.  The
    device list is left alone. *)
Theorem selection_follows_acquired_stream (stream : MediaStream) (k : TrackKind) (w : World) :
  let w' := _updateSelectedDevicesFromGetUserMediaResult stream w in
  (truthy_selection (selection k w) = false -> selection k w' = selection k w)
  /\ (reported k stream = None -> selection k w' = selection k w)
  /\ (forall d, truthy_selection (selection k w) = true -> reported k stream = Some d ->
        selection k w' = Id d
        /\ (selection k w <> Id d ->
            getItem (selection_key k) w' = Some (SText d)
            /\ ("change:" +:+ selection_key k, VSelection (Id d)) ∈ triggered (outside w')))
  /\ devices (attr w') = devices (attr w).
Proof.
  cbv zeta. rewrite reconcile_blocks.
  destruct (reconcile_state audio stream w) as (A1 & A2 & A3 & A4 & [la A5] & A6).
  destruct (reconcile_state video stream (reconcile audio stream w))
    as (V1 & V2 & V3 & V4 & [lv V5] & V6).
  cbv zeta in *.
  assert (Hva : selection video (reconcile audio stream w) = selection video w)
    by (apply A2; discriminate).
  assert (Hav : selection audio (reconcile video stream (reconcile audio stream w))
                = selection audio (reconcile audio stream w))
    by (apply V2; discriminate).
  rewrite Hva in V1, V6.
  split; [|split; [|split]].
  - intros Hf. destruct k.
    + rewrite Hav, A1, Hf. reflexivity.
    + rewrite V1, Hf. reflexivity.
  - intros Hn. destruct k.
    + rewrite Hav, A1, Hn. destruct (truthy_selection (selection audio w)); reflexivity.
    + rewrite V1, Hn. destruct (truthy_selection (selection video w)); reflexivity.
  - intros d Ht Hr. destruct k.
    + split; [rewrite Hav, A1, Ht, Hr; reflexivity|].
      intros Hne. destruct (A6 d Ht Hr Hne) as [Hg Hin]. split.
      * rewrite V4 by discriminate. exact Hg.
      * rewrite V5. apply elem_of_app. left. exact Hin.
    + split; [rewrite V1, Ht, Hr; reflexivity|].
      intros Hne. apply (V6 d Ht Hr Hne).
  - rewrite V3. exact A3.
Qed.

Lemma selection_follows_acquired_stream_witness :
  let w := on_attributes (with_videoInputId (Id "cam1")) fresh in
  let w' := _updateSelectedDevicesFromGetUserMediaResult [video_track 1 "cam2"] w in
  selection video w' = Id "cam2"
  /\ (selection video w <> Id "cam2" ->
      getItem (selection_key video) w' = Some (SText "cam2")
      /\ ("change:" +:+ selection_key video, VSelection (Id "cam2")) ∈ triggered (outside w')).
Proof.
  cbv zeta.
  apply (selection_follows_acquired_stream [video_track 1 "cam2"] video
           (on_attributes (with_videoInputId (Id "cam1")) fresh)); reflexivity.
Defined.

Lemma tracks_forEach_registered (f : Track -> World -> World) n k w :
  (forall t w, registered w -> registered (f t w)) ->
  registered w -> registered (tracks_forEach_from n k f w).
Proof.
  intros Hf. revert k w. induction n as [|n IH]; intros k w Hr; simpl; [exact Hr|].
  apply IH. destruct (_tracks (this w) !! k); [apply Hf|]; exact Hr.
Qed.

Lemma _stopIncompatibleTracks_registered env constraints w :
  registered w -> registered (_stopIncompatibleTracks env constraints w).
Proof.
  apply tracks_forEach_registered. intros t w0 Hr. unfold stop_if_incompatible.
  destruct (conflicts video _ t); destruct (conflicts audio _ t);
    repeat apply stop_registered; exact Hr.
Qed.

(** A stream that the platform delivers, with no enumeration pending, is
    the stream the caller gets; its tracks are appended to the tracks that
    the stopping of the conflicting ones has left, and the array stays
    covered by listeners. *)
Theorem acquired_stream_is_held (env : Platform) (constraints : Constraints)
    (enumerated : option (list Device)) (stream : MediaStream)
    (second : Settlement MediaStream) (w : World) :
  isSupported env = true ->
  _pendingEnumerateDevicesPromise (this w) = None ->
  registered w ->
  let result := getUserMedia env constraints enumerated (resolved stream) second w in
  let asked := final_constraints constraints w in
  snd result = resolved stream
  /\ _tracks (this (fst result)) = _tracks (this (_stopIncompatibleTracks env asked w)) ++ stream
  /\ registered (fst result).
Proof.
  intros Hs Hp Hr. cbv zeta. unfold getUserMedia. rewrite Hs, Hp. cbn [negb].
  unfold _getUserMediaInternal, _getUserMediaInternal_request, _getUserMediaInternal_then.
  cbn [fst snd].
  set (w1 := call _ (_stopIncompatibleTracks env (final_constraints constraints w) w)).
  assert (Hr1 : registered w1)
    by exact (_stopIncompatibleTracks_registered env _ w Hr).
  destruct (reconcile_outside stream (_registerStream stream w1)) as (_ & Ht & Hl).
  destruct (_registerStream_state stream w1) as (Hts & _).
  split; [reflexivity|]. split.
  - change (_tracks (this (_updateSelectedDevicesFromGetUserMediaResult stream
                             (_registerStream stream w1)))
            = _tracks (this w1) ++ stream).
    rewrite Ht. exact Hts.
  - intros t.
    change (occurrences t
              (_tracks (this (_updateSelectedDevicesFromGetUserMediaResult stream
                                (_registerStream stream w1))))
            <= length (filter (fun x => x = track_id t)
                         (listeners (outside (_updateSelectedDevicesFromGetUserMediaResult
                                                stream (_registerStream stream w1)))))).
    rewrite Ht, Hl. apply (_registerStream_registered stream w1 Hr1 t).
Qed.

Lemma acquired_stream_is_held_witness :
  let held := _registerStream [video_track 1 "cam1"] fresh in
  let asked := {| c_audio := constraint_missing; c_video := exactly "cam2" |} in
  _tracks (this (fst (getUserMedia (browser true) asked None
                        (resolved [video_track 2 "cam2"]) (resolved []) held)))
  = [video_track 2 "cam2"].
Proof.
  cbv zeta.
  destruct (acquired_stream_is_held (browser true)
              {| c_audio := constraint_missing; c_video := exactly "cam2" |} None
              [video_track 2 "cam2"] (resolved [])
              (_registerStream [video_track 1 "cam1"] fresh)) as (_ & Ht & _).
  - reflexivity.
  - reflexivity.
  - apply _registerStream_registered, fresh_registered.
  - etransitivity; [exact Ht|]. vm_compute. reflexivity.
Defined.

(** ** [updatePreferences] *)

Lemma setItem_flag_preferences key v w :
  key <> "audioInputPreferences" -> key <> "videoInputPreferences" ->
  preferences_persisted w -> preferences_persisted (setItem key v w).
Proof.
  intros Ha Hv [H1 H2]. unfold preferences_persisted, stored_preferences in *. simpl.
  rewrite !lookup_insert_ne by congruence. split; assumption.
Qed.

Lemma outside_with_storage (o : Outside) : with_storage (BrowserStorage o) o = o.
Proof. destruct o. reflexivity. Qed.

Lemma this_with_preferenceAudioInputList (m : Manager) :
  with_preferenceAudioInputList (_preferenceAudioInputList m) m = m.
Proof. destruct m. reflexivity. Qed.

Lemma this_with_preferenceVideoInputList (m : Manager) :
  with_preferenceVideoInputList (_preferenceVideoInputList m) m = m.
Proof. destruct m. reflexivity. Qed.

(** The second half of a branch of [updatePreferences]: the mark. *)
Lemma mark_state flag w :
  let w' := if nothing_stored flag w then setItem flag (SText "true") w else w in
  this w' = this w
  /\ outside w' = with_storage (BrowserStorage (outside w')) (outside w)
  /\ nothing_stored flag w' = false
  /\ forall key, (key = flag -> nothing_stored key w = false) -> getItem key w' = getItem key w.
Proof.
  cbv zeta. destruct (nothing_stored flag w) eqn:Hn.
  - split; [reflexivity|]. split; [reflexivity|]. split.
    + unfold nothing_stored, getItem. simpl. rewrite lookup_insert_eq. reflexivity.
    + intros key Hkey. unfold getItem. simpl. apply lookup_insert_ne.
      intros <-. rewrite Hkey in Hn by reflexivity. discriminate.
  - split; [reflexivity|]. split; [symmetry; apply outside_with_storage|].
    split; [exact Hn | reflexivity].
Qed.

(** Whatever [promoteMediaDevice] answers, [updatePreferences] keeps the
    preference lists of the manager and of the store in step.  For an input
    kind, the manager afterwards is the manager before with the list of the
    kind replaced by the answer, if there is one (so the attributes and the
    list of the other kind are as they were); outside the manager nothing but
    the store changes; the store has a mark that the kind has a preferred
    device; and every key of the store other than the preference list of the
    kind reads as before, the mark included if it was already there.  For
    [audiooutput] nothing changes at all. *)
Theorem updatePreferences_keeps_store_in_step
    (promoteMediaDevice :
       MediaDeviceKind -> list Device -> list string -> Selection -> option (list string))
    (k : MediaDeviceKind) (w : World) :
  preferences_persisted w ->
  let w' := updatePreferences promoteMediaDevice k w in
  preferences_persisted w'
  /\ attr w' = attr w
  /\ outside w' = with_storage (BrowserStorage (outside w')) (outside w)
  /\ (k = audioinput ->
      this w' =
        with_preferenceAudioInputList
          (default (_preferenceAudioInputList (this w))
             (promoteMediaDevice audioinput (records (devices (attr w)))
                (_preferenceAudioInputList (this w)) (audioInputId (attr w))))
          (this w)
      /\ nothing_stored "audioInputDevicePreferred" w' = false
      /\ forall key, key <> "audioInputPreferences" ->
           (key = "audioInputDevicePreferred" -> nothing_stored key w = false) ->
           getItem key w' = getItem key w)
  /\ (k = videoinput ->
      this w' =
        with_preferenceVideoInputList
          (default (_preferenceVideoInputList (this w))
             (promoteMediaDevice videoinput (records (devices (attr w)))
                (_preferenceVideoInputList (this w)) (videoInputId (attr w))))
          (this w)
      /\ nothing_stored "videoInputDevicePreferred" w' = false
      /\ forall key, key <> "videoInputPreferences" ->
           (key = "videoInputDevicePreferred" -> nothing_stored key w = false) ->
           getItem key w' = getItem key w)
  /\ (k = audiooutput -> w' = w).
Proof.
  intros Hp. cbv zeta. destruct k; simpl.
  - set (answer := promoteMediaDevice audioinput _ _ _).
    set (w1 := match answer with Some l => _ | None => w end).
    assert (H1 : preferences_persisted w1
                 /\ this w1 = with_preferenceAudioInputList
                                (default (_preferenceAudioInputList (this w)) answer) (this w)
                 /\ outside w1 = with_storage (BrowserStorage (outside w1)) (outside w)
                 /\ forall key, key <> "audioInputPreferences" ->
                                getItem key w1 = getItem key w).
    { subst w1. destruct answer as [l|]; simpl.
      - destruct Hp as [_ Hv]. split; [|repeat split].
        + unfold preferences_persisted, stored_preferences in *. simpl.
          rewrite lookup_insert_eq, lookup_insert_ne by discriminate.
          split; [reflexivity | exact Hv].
        + intros key Hkey. unfold getItem. simpl. apply lookup_insert_ne. congruence.
      - split; [exact Hp|]. split; [symmetry; apply this_with_preferenceAudioInputList|].
        split; [symmetry; apply outside_with_storage | reflexivity]. }
    destruct H1 as (P1 & T1 & O1 & G1).
    destruct (mark_state "audioInputDevicePreferred" w1) as (Tm & Om & Fm & Gm).
    cbv zeta in Tm, Om, Fm, Gm.
    set (w2 := if nothing_stored "audioInputDevicePreferred" w1 then _ else w1) in *.
    split; [|split; [|split; [|split; [|split]]]]; try discriminate.
    + destruct P1 as [Pa Pv]. unfold preferences_persisted, stored_preferences.
      rewrite Tm.
      pose proof (Gm "audioInputPreferences") as Ga.
      pose proof (Gm "videoInputPreferences") as Gv.
      unfold getItem in Ga, Gv. rewrite Ga, Gv by discriminate. split; assumption.
    + unfold attr. rewrite Tm, T1. reflexivity.
    + rewrite Om, O1. reflexivity.
    + intros _. split; [rewrite Tm; exact T1|]. split; [exact Fm|].
      intros key Hne Hflag. rewrite Gm.
      * apply G1, Hne.
      * intros ->. unfold nothing_stored. rewrite G1 by discriminate.
        exact (Hflag eq_refl).
  - set (answer := promoteMediaDevice videoinput _ _ _).
    set (w1 := match answer with Some l => _ | None => w end).
    assert (H1 : preferences_persisted w1
                 /\ this w1 = with_preferenceVideoInputList
                                (default (_preferenceVideoInputList (this w)) answer) (this w)
                 /\ outside w1 = with_storage (BrowserStorage (outside w1)) (outside w)
                 /\ forall key, key <> "videoInputPreferences" ->
                                getItem key w1 = getItem key w).
    { subst w1. destruct answer as [l|]; simpl.
      - destruct Hp as [Ha _]. split; [|repeat split].
        + unfold preferences_persisted, stored_preferences in *. simpl.
          rewrite lookup_insert_eq, lookup_insert_ne by discriminate.
          split; [exact Ha | reflexivity].
        + intros key Hkey. unfold getItem. simpl. apply lookup_insert_ne. congruence.
      - split; [exact Hp|]. split; [symmetry; apply this_with_preferenceVideoInputList|].
        split; [symmetry; apply outside_with_storage | reflexivity]. }
    destruct H1 as (P1 & T1 & O1 & G1).
    destruct (mark_state "videoInputDevicePreferred" w1) as (Tm & Om & Fm & Gm).
    cbv zeta in Tm, Om, Fm, Gm.
    set (w2 := if nothing_stored "videoInputDevicePreferred" w1 then _ else w1) in *.
    split; [|split; [|split; [|split; [|split]]]]; try discriminate.
    + destruct P1 as [Pa Pv]. unfold preferences_persisted, stored_preferences.
      rewrite Tm.
      pose proof (Gm "audioInputPreferences") as Ga.
      pose proof (Gm "videoInputPreferences") as Gv.
      unfold getItem in Ga, Gv. rewrite Ga, Gv by discriminate. split; assumption.
    + unfold attr. rewrite Tm, T1. reflexivity.
    + rewrite Om, O1. reflexivity.
    + intros _. split; [rewrite Tm; exact T1|]. split; [exact Fm|].
      intros key Hne Hflag. rewrite Gm.
      * apply G1, Hne.
      * intros ->. unfold nothing_stored. rewrite G1 by discriminate.
        exact (Hflag eq_refl).
  - split; [exact Hp|]. split; [reflexivity|].
    split; [symmetry; apply outside_with_storage|].
    split; [discriminate|]. split; [discriminate | reflexivity].
Qed.

Lemma updatePreferences_keeps_store_in_step_witness :
  let w := _updateDevices_then 0 [microphone "mic1" ""; camera "cam1" ""] fresh in
  let w' := updatePreferences (fun _ _ _ _ => Some ["mic1"]) audioinput w in
  preferences_persisted w'
  /\ _preferenceAudioInputList (this w') = ["mic1"]
  /\ _preferenceVideoInputList (this w') = ["cam1"]
  /\ nothing_stored "audioInputDevicePreferred" w' = false
  /\ getItem "videoInputPreferences" w' = Some (SJson ["cam1"]).
Proof.
  cbv zeta.
  destruct (updatePreferences_keeps_store_in_step (fun _ _ _ _ => Some ["mic1"])
              audioinput
              (_updateDevices_then 0 [microphone "mic1" ""; camera "cam1" ""] fresh))
    as (Hp & _ & _ & Haudio & _).
  - split; reflexivity.
  - destruct (Haudio eq_refl) as (Ht & Hflag & Hframe).
    split; [exact Hp|]. rewrite Ht.
    split; [reflexivity|]. split; [reflexivity|]. split; [exact Hflag|].
    rewrite Hframe; [reflexivity | discriminate | discriminate].
Defined.

End MediaDevices.
